(** * Arb-Finder: the numeric core of [arbing.py]

    A shallow embedding of [process_data], [calculate_stakes] and the loop
    of [get_arbitrage_opportunities] with its qualification test.

    - A Python float is a binary64 number. A finite float is kept as its
      exact rational value; every arithmetic operation computes the exact
      rational result and rounds it to 53 significant bits, to nearest,
      ties to even, with gradual underflow below 2^-1022 and overflow to an
      infinity from 2^1024 on. Infinities and NaN are values of their own.
    - An operation that Python lets fail returns a [result]: the value, or
      the exception raised.
    - A dict is the list of its items in insertion order.
    - [sum] adds from left to right, starting from the int 0.
    - [time.time()] reads a clock given as a parameter; the number of
      readings made so far is threaded through [process_data].
    - A generator is run to its end: the list of the records it yields and
      the exception that stops it, if any. *)

From Stdlib Require Import ZArith QArith Qround Qabs Qpower Lia Lqa Bool List String.
From Stdlib Require Import Permutation Sorted.
Import ListNotations.

Local Open Scope Z_scope.

(** ** Exceptions and fallible computations *)

Inductive exn : Type :=
| KeyError (key : string)
| IndexError
| ZeroDivisionError
| ValueError
| OverflowError.

Inductive result (A : Type) : Type :=
| Ok (a : A)
| Raise (e : exn).

Arguments Ok {A} a.
Arguments Raise {A} e.

Definition bind {A B : Type} (m : result A) (k : A -> result B) : result B :=
  match m with
  | Ok a => k a
  | Raise e => Raise e
  end.

Notation "x <- m ;; k" := (bind m (fun x => k))
  (at level 61, m at next level, right associativity).

(** [for x in l: ...] collecting one value per element, stopping at the
    first exception. *)
Fixpoint mapM {A B : Type} (f : A -> result B) (l : list A) : result (list B) :=
  match l with
  | [] => Ok []
  | x :: xs => y <- f x ;; ys <- mapM f xs ;; Ok (y :: ys)
  end.

(** ** Python floats: binary64 *)

Module Float.

(** A finite float is kept as its exact rational value (the two zeros are
    not told apart: no operation of this program can see the sign of a
    zero, as a division by either zero raises). *)
Inductive float : Type :=
| FFin (q : Q)
| FInf (neg : bool)
| FNan.

Definition pow2 (e : Z) : Q :=
  if 0 <=? e then inject_Z (2 ^ e) else / inject_Z (2 ^ (- e)).

(** floor (log2 q) for q > 0 *)
Definition ilog2 (q : Q) : Z :=
  let e0 := Z.log2 (Qnum q) - Z.log2 (Zpos (Qden q)) in
  if Qle_bool (pow2 e0) q then e0 else e0 - 1.

(** round half to even, to an integer *)
Definition rne (q : Q) : Z :=
  let f := Qfloor q in
  match Qcompare (q - inject_Z f) (1 # 2) with
  | Lt => f
  | Gt => f + 1
  | Eq => if Z.even f then f else f + 1
  end.

Definition prec : Z := 53.
Definition emin : Z := -1022.
Definition emax : Z := 1024.

(** the exponent of the unit in the last place of a positive [a] *)
Definition ulp_exp (a : Q) : Z := Z.max (ilog2 a) emin - (prec - 1).

(** the magnitude of [a > 0] rounded to 53 significant bits *)
Definition round_mag (a : Q) : Q :=
  let e := ulp_exp a in
  inject_Z (rne (a / pow2 e)) * pow2 e.

(** Round an exact result to binary64, nearest, ties to even; magnitudes
    that round to 2^1024 overflow to an infinity. *)
Definition round64 (q : Q) : float :=
  match Qcompare q 0 with
  | Eq => FFin 0
  | Gt => let v := round_mag q in
          if Qle_bool (pow2 emax) v then FInf false else FFin (Qred v)
  | Lt => let v := round_mag (- q) in
          if Qle_bool (pow2 emax) v then FInf true else FFin (Qred (- v))
  end.

Definition is_zero (x : float) : bool :=
  match x with
  | FFin q => Qeq_bool q 0
  | _ => false
  end.

Definition is_neg (x : float) : bool :=
  match x with
  | FFin q => negb (Qle_bool 0 q)
  | FInf s => s
  | FNan => false
  end.

Definition fneg (x : float) : float :=
  match x with
  | FFin q => FFin (Qred (- q))
  | FInf s => FInf (negb s)
  | FNan => FNan
  end.

Definition fadd (x y : float) : float :=
  match x, y with
  | FNan, _ | _, FNan => FNan
  | FInf a, FInf b => if Bool.eqb a b then FInf a else FNan
  | FInf a, FFin _ => FInf a
  | FFin _, FInf b => FInf b
  | FFin p, FFin q => round64 (p + q)
  end.

Definition fsub (x y : float) : float := fadd x (fneg y).

Definition fmul (x y : float) : float :=
  match x, y with
  | FNan, _ | _, FNan => FNan
  | FFin p, FFin q => round64 (p * q)
  | _, _ =>
      if is_zero x || is_zero y then FNan
      else FInf (xorb (is_neg x) (is_neg y))
  end.

(** Python's [x / y] on floats: a zero divisor raises, everything else is
    the IEEE quotient (an overflow gives an infinity without raising). *)
Definition fdiv (x y : float) : result float :=
  if is_zero y then Raise ZeroDivisionError
  else Ok match x, y with
          | FNan, _ | _, FNan => FNan
          | FInf _, FInf _ => FNan
          | FInf a, FFin _ => FInf (xorb a (is_neg y))
          | FFin _, FInf _ => FFin 0
          | FFin p, FFin q => round64 (p / q)
          end.

(** [float(n)] as done implicitly when an int meets a float in [*], [-]:
    correctly rounded, [OverflowError] when out of range. *)
Definition of_int (n : Z) : result float :=
  match round64 (inject_Z n) with
  | FFin q => Ok (FFin q)
  | _ => Raise OverflowError
  end.

(** [int(x)]: truncation toward zero. *)
Definition trunc (q : Q) : Z := Z.quot (Qnum q) (Zpos (Qden q)).

Definition to_int (x : float) : result Z :=
  match x with
  | FFin q => Ok (trunc q)
  | FInf _ => Raise OverflowError
  | FNan => Raise ValueError
  end.

(** [x < y] and [x > y] on floats; anything compared with a NaN is false. *)
Definition flt (x y : float) : bool :=
  match x, y with
  | FNan, _ | _, FNan => false
  | FFin p, FFin q => negb (Qle_bool q p)
  | FFin _, FInf b => negb b
  | FInf a, FFin _ => a
  | FInf a, FInf b => a && negb b
  end.

Definition fgt (x y : float) : bool := flt y x.

(** [round(x, 2)]: the exact value of [x] rounded to two decimals (ties to
    even), then to the nearest float. *)
Definition round2 (x : float) : result float :=
  match x with
  | FFin q =>
      match round64 (inject_Z (rne (q * 100)) / 100) with
      | FFin r => Ok (FFin r)
      | _ => Raise OverflowError
      end
  | _ => Ok x
  end.

(** [sum(values)]: left to right from the int 0. *)
Definition sum (l : list float) : float := fold_left fadd l (FFin 0).

(** a float literal given as a fraction, for writing inputs *)
Definition lit (q : Q) : float := round64 q.

(** the binary64 values: fixed points of the rounding *)
Definition representable (q : Q) : bool :=
  match round64 q with
  | FFin r => Qeq_bool r q
  | _ => false
  end.

(** the unit roundoff of binary64 *)
Definition u : Q := pow2 (-53).

(** [(1 - u)^k]: what [k] roundings can lose *)
Fixpoint rpow (k : nat) : Q :=
  match k with
  | O => 1
  | S k' => (1 - u) * rpow k'
  end.

(** [y] is [x] up to [k] roundings, and the other way round *)
Definition close (k : nat) (x y : Q) : Prop :=
  (x * rpow k <= y)%Q /\ (y * rpow k <= x)%Q.

(** [x <= y] on floats *)
Definition fle (x y : float) : bool :=
  match x, y with
  | FNan, _ | _, FNan => false
  | _, _ => negb (flt y x)
  end.

Definition is_nan (x : float) : bool :=
  match x with
  | FNan => true
  | _ => false
  end.

End Float.
Import Float.

(** ** Python dicts: insertion-ordered, keyed by strings *)

Definition dict (V : Type) : Type := list (string * V).

Definition keys {V : Type} (d : dict V) : list string := map fst d.
Definition values {V : Type} (d : dict V) : list V := map snd d.

Fixpoint get {V : Type} (d : dict V) (k : string) : option V :=
  match d with
  | [] => None
  | (k', v) :: rest => if String.eqb k k' then Some v else get rest k
  end.

(** [d[k]] *)
Definition getitem {V : Type} (d : dict V) (k : string) : result V :=
  match get d k with
  | Some v => Ok v
  | None => Raise (KeyError k)
  end.

(** [d[k] = v]: an existing key keeps its position, a new one goes last. *)
Fixpoint setitem {V : Type} (d : dict V) (k : string) (v : V) : dict V :=
  match d with
  | [] => [(k, v)]
  | (k', v') :: rest =>
      if String.eqb k k' then (k', v) :: rest else (k', v') :: setitem rest k v
  end.

(** ** The stake allocator: [calculate_stakes] *)

Definition odds_map : Type := dict (string * float).
Definition allocation : Type := dict (string * float * Z * float).

(** Step 1: [{outcome: 1 / data[1] for outcome, data in odds_dict.items()}] *)
Definition inverse_odds (odds_dict : odds_map) : result (dict float) :=
  mapM (fun item : string * (string * float) =>
          inv <- fdiv (FFin 1) (snd (snd item)) ;; Ok (fst item, inv))
       odds_dict.

(** Step 2: [(inv / total_inverse) * total_stake] for every outcome *)
Definition ideal_stakes (inverse : dict float) (total_stake : Z)
  : result (dict float) :=
  let total_inverse := sum (values inverse) in
  mapM (fun item : string * float =>
          w <- fdiv (snd item) total_inverse ;;
          t <- of_int total_stake ;;
          Ok (fst item, fmul w t))
       inverse.

(** Step 3: [int(stake)] for every outcome *)
Definition rounded_stakes (ideal : dict float) : result (dict Z) :=
  mapM (fun item : string * float =>
          n <- to_int (snd item) ;; Ok (fst item, n))
       ideal.

Definition sumZ (l : list Z) : Z := fold_right Z.add 0 l.

(** [total_stake - sum(rounded_stakes.values())] *)
Definition remainder_of (total_stake : Z) (rounded : dict Z) : Z :=
  total_stake - sumZ (values rounded).

(** [ideal_stakes[outcome] - rounded_stakes[outcome]] for every outcome of
    [rounded_stakes] *)
Definition stake_diffs (ideal : dict float) (rounded : dict Z)
  : result (dict float) :=
  mapM (fun outcome : string =>
          i <- getitem ideal outcome ;;
          r <- getitem rounded outcome ;;
          r' <- of_int r ;;
          Ok (outcome, fsub i r'))
       (keys rounded).

(** [sorted(..., reverse=True)]: a stable sort, largest key first; an
    element moves behind another one only when its key is strictly less. *)
Fixpoint insert_desc (x : string * float) (l : list (string * float))
  : list (string * float) :=
  match l with
  | [] => [x]
  | y :: ys => if flt (snd x) (snd y) then y :: insert_desc x ys
               else x :: y :: ys
  end.

Definition sort_desc (l : list (string * float)) : list (string * float) :=
  fold_right insert_desc [] l.

(** [sorted(stake_diffs, key=stake_diffs.get, reverse=True)] *)
Definition sorted_outcomes (diffs : dict float) : result (list string) :=
  decorated <- mapM (fun outcome : string =>
                       d <- getitem diffs outcome ;; Ok (outcome, d))
                    (keys diffs) ;;
  Ok (map fst (sort_desc decorated)).

(** The loop that hands out the remainder, one unit per outcome. *)
Fixpoint award (order : list string) (rounded : dict Z) (remainder : Z)
  : result (dict Z) :=
  match order with
  | [] => Ok rounded
  | outcome :: rest =>
      if remainder <=? 0 then Ok rounded
      else
        cur <- getitem rounded outcome ;;
        award rest (setitem rounded outcome (cur + 1)) (remainder - 1)
  end.

(** Step 4 *)
Definition adjust (ideal : dict float) (rounded : dict Z) (total_stake : Z)
  : result (dict Z) :=
  let remainder := remainder_of total_stake rounded in
  if 0 <? remainder then
    diffs <- stake_diffs ideal rounded ;;
    order <- sorted_outcomes diffs ;;
    award order rounded remainder
  else Ok rounded.

(** Step 5 *)
Definition profits (odds_dict : odds_map) (stakes : dict Z) (total_stake : Z)
  : result allocation :=
  mapM (fun item : string * (string * float) =>
          let '(outcome, (bookie, odd)) := item in
          stake <- getitem stakes outcome ;;
          s <- of_int stake ;;
          t <- of_int total_stake ;;
          profit <- round2 (fsub (fmul s odd) t) ;;
          Ok (outcome, (bookie, odd, stake, profit)))
       odds_dict.

(** The stakes after steps 1 to 4, and the ideal shares they come from. *)
Definition final_stakes (odds_dict : odds_map) (total_stake : Z)
  : result (dict float * dict Z * dict Z) :=
  inverse <- inverse_odds odds_dict ;;
  ideal <- ideal_stakes inverse total_stake ;;
  rounded <- rounded_stakes ideal ;;
  stakes <- adjust ideal rounded total_stake ;;
  Ok (ideal, rounded, stakes).

Definition calculate_stakes (odds_dict : odds_map) (total_stake : Z)
  : result allocation :=
  s <- final_stakes odds_dict total_stake ;;
  profits odds_dict (snd s) total_stake.

Definition stake_of (entry : string * (string * float * Z * float)) : Z :=
  snd (fst (snd entry)).

Definition stakes_of (a : allocation) : dict Z :=
  map (fun e => (fst e, stake_of e)) a.

(** ** The match normalizer: [process_data] *)

(** The JSON objects of the data source. A field is [None] when its key is
    absent from the object. *)
Record outcome : Type := {
  name : option string;
  price : option float
}.

Record market : Type := {
  outcomes : option (list outcome)
}.

Record bookmaker : Type := {
  title : option string;
  markets : option (list market)
}.

Record raw_match : Type := {
  commence_time : option Z;
  home_team : option string;
  away_team : option string;
  sport_key : option string;
  bookmakers : option (list bookmaker)
}.

(** what [process_data] yields for a match *)
Record normalized : Type := {
  match_name : string;
  match_start_time : Z;
  hours_to_start : float;
  league : option string;
  best_odds : odds_map;
  total_implied_odds : float
}.

(** [obj[key]] *)
Definition field {A : Type} (key : string) (v : option A) : result A :=
  match v with
  | Some a => Ok a
  | None => Raise (KeyError key)
  end.

(** [obj.get(key, default)] *)
Definition get_or {A : Type} (v : option A) (default : A) : A :=
  match v with
  | Some a => a
  | None => default
  end.

(** [l[0]] *)
Definition first {A : Type} (l : list A) : result A :=
  match l with
  | x :: _ => Ok x
  | [] => Raise IndexError
  end.

(** how an f-string shows the value of [obj.get(key)] *)
Definition py_str (v : option string) : string :=
  match v with
  | Some s => s
  | None => "None"%string
  end.

(** [bookmaker.get("markets", [{}])[0].get("outcomes", [])] *)
Definition quoted (b : bookmaker) : result (list outcome) :=
  m <- first (get_or (markets b) [{| outcomes := None |}]) ;;
  Ok (get_or (outcomes m) []).

(** the body of the inner loop, lines 73 to 76 *)
Definition keep_best (b : bookmaker) (best : odds_map) (o : outcome)
  : result odds_map :=
  n <- field "name" (name o) ;;
  p <- field "price" (price o) ;;
  match get best n with
  | None => t <- field "title" (title b) ;; Ok (setitem best n (t, p))
  | Some held =>
      if fgt p (snd held)
      then t <- field "title" (title b) ;; Ok (setitem best n (t, p))
      else Ok best
  end.

Fixpoint foldM {A S : Type} (f : S -> A -> result S) (s : S) (l : list A)
  : result S :=
  match l with
  | [] => Ok s
  | x :: xs => s' <- f s x ;; foldM f s' xs
  end.

Definition scan_bookmaker (best : odds_map) (b : bookmaker) : result odds_map :=
  os <- quoted b ;;
  foldM (keep_best b) best os.

(** lines 70 to 76 *)
Definition build_best_odds (m : raw_match) : result odds_map :=
  foldM scan_bookmaker [] (get_or (bookmakers m) []).

(** [sum(1 / odds for _, odds in best_odds.values())] *)
Definition total_implied (best : odds_map) : result float :=
  inv <- mapM (fun data : string * float => fdiv (FFin 1) (snd data))
              (values best) ;;
  Ok (sum inv).

(** [time.time()]: the [n]-th reading of the wall clock is [clock n]; the
    number of readings made so far is threaded through. *)
Definition clock : Type := nat -> float.

(** [int < float] compares the exact values *)
Definition int_lt_float (n : Z) (x : float) : bool := flt (FFin (inject_Z n)) x.

(** One turn of the loop of [process_data]: [None] when the match is
    skipped by a [continue], the yielded record otherwise, with the number
    of clock readings made. *)
Definition process_match (now : clock) (include_started_matches : bool)
    (m : raw_match) (tick : nat) : result (option normalized * nat) :=
  start_time <- field "commence_time" (commence_time m) ;;
  let started_and_excluded :=
    if include_started_matches then (false, tick)
    else (int_lt_float start_time (now tick), S tick) in
  let tick := snd started_and_excluded in
  if fst started_and_excluded then Ok (None, tick)
  else
    best <- build_best_odds m ;;
    if (Z.of_nat (List.length best) <? 2)%Z then Ok (None, tick)
    else
      total <- total_implied best ;;
      let match_name :=
        (py_str (home_team m) ++ " v. " ++ py_str (away_team m))%string in
      s <- of_int start_time ;;
      h <- fdiv (fsub s (now tick)) (FFin 3600) ;;
      hours <- round2 h ;;
      Ok (Some {| match_name := match_name;
                  match_start_time := start_time;
                  hours_to_start := hours;
                  league := sport_key m;
                  best_odds := best;
                  total_implied_odds := total |},
          S tick).

(** The generator run to its end: the records yielded, in order, and the
    exception that ended it, if one did. *)
Fixpoint process_data (now : clock) (include_started_matches : bool)
    (matches : list raw_match) (tick : nat) : list normalized * option exn :=
  match matches with
  | [] => ([], None)
  | m :: rest =>
      match process_match now include_started_matches m tick with
      | Raise e => ([], Some e)
      | Ok (None, tick') =>
          process_data now include_started_matches rest tick'
      | Ok (Some r, tick') =>
          let '(rs, e) := process_data now include_started_matches rest tick' in
          (r :: rs, e)
      end
  end.

(** ** The opportunity detector *)

(** [0 < match["total_implied_odds"] < 1 - cutoff] *)
Definition qualifies (cutoff : float) (m : normalized) : bool :=
  flt (FFin 0) (total_implied_odds m)
  && flt (total_implied_odds m) (fsub (FFin 1) cutoff).

(** the matches of the stream for which the body of the [if] runs *)
Definition opportunities (cutoff : float) (matches : list normalized)
  : list normalized :=
  filter (qualifies cutoff) matches.

(** ** The scan: [get_arbitrage_opportunities] *)

(** [min(profits)] and [max(profits)]: the first element is kept until a
    later one is [<] it (for [max]: [>] it); [ValueError] on an empty
    list. *)
Definition py_min (l : list float) : result float :=
  match l with
  | [] => Raise ValueError
  | x :: rest => Ok (fold_left (fun m y => if flt y m then y else m) rest x)
  end.

Definition py_max (l : list float) : result float :=
  match l with
  | [] => Raise ValueError
  | x :: rest => Ok (fold_left (fun m y => if fgt y m then y else m) rest x)
  end.

Definition profit_of (entry : string * (string * float * Z * float)) : float :=
  snd (snd entry).

(** What the body of the [if] computes for a flagged match, lines 150 to
    161: the allocation for a total stake of 1000 and the profit range.
    The lines printed from them are not modelled. *)
Record report : Type := {
  for_match : normalized;
  allocated : allocation;
  profit_range : float * float
}.

Definition report_match (m : normalized) : result report :=
  stakes <- calculate_stakes (best_odds m) 1000 ;;
  let profits := map profit_of stakes in
  lo <- py_min profits ;;
  hi <- py_max profits ;;
  Ok {| for_match := m; allocated := stakes; profit_range := (lo, hi) |}.

(** the loop of lines 143 to 161 over the records of the stream: the
    reports made, in order, and the exception that ended the loop, if one
    did *)
Fixpoint scan_matches (cutoff : float) (matches : list normalized)
  : list report * option exn :=
  match matches with
  | [] => ([], None)
  | m :: rest =>
      if qualifies cutoff m then
        match report_match m with
        | Raise e => ([], Some e)
        | Ok r => let '(rs, e) := scan_matches cutoff rest in (r :: rs, e)
        end
      else scan_matches cutoff rest
  end.

(** [get_arbitrage_opportunities] on the matches fetched for all sports,
    in order ([data], every request having succeeded): the stream of
    [process_data] with its default [include_started_matches=True], consumed
    by the loop. The generator is only resumed after the loop body has run,
    so an exception of the body comes before a later one of the stream. *)
Definition get_arbitrage_opportunities (now : clock) (cutoff : float)
    (data : list raw_match) (tick : nat) : list report * option exn :=
  let '(matches, ended) := process_data now true data tick in
  let '(reports, raised) := scan_matches cutoff matches in
  (reports, match raised with
            | Some e => Some e
            | None => ended
            end).

(** ** Vocabulary of the statements *)

(** A raw match with its home team, or its away team, replaced. *)
Definition with_home (h : option string) (m : raw_match) : raw_match :=
  {| commence_time := commence_time m; home_team := h;
     away_team := away_team m; sport_key := sport_key m;
     bookmakers := bookmakers m |}.

Definition with_away (a : option string) (m : raw_match) : raw_match :=
  {| commence_time := commence_time m; home_team := home_team m;
     away_team := a; sport_key := sport_key m;
     bookmakers := bookmakers m |}.

(** The quotes of a match in the order the loops visit them: every outcome
    of the first market of every bookmaker, with its bookmaker. *)
Definition quotes_of_bookmaker (b : bookmaker) : list (bookmaker * outcome) :=
  match quoted b with
  | Ok os => map (pair b) os
  | Raise _ => []
  end.

Definition quotes (m : raw_match) : list (bookmaker * outcome) :=
  flat_map quotes_of_bookmaker (get_or (bookmakers m) []).

(** a quote for the outcome [n] at price [p] *)
Definition quote_for (n : string) (p : float) (q : bookmaker * outcome) : Prop :=
  name (snd q) = Some n /\ price (snd q) = Some p.

Definition numeric_prices (m : raw_match) : Prop :=
  forall q p, In q (quotes m) -> price (snd q) = Some p -> is_nan p = false.

(** an odds mapping holds a price that is zero *)
Definition has_zero_price (odds : odds_map) : Prop :=
  exists n t p, In (n, (t, p)) odds /\ is_zero p = true.

(** The entry kept for the outcome [n] is the best of the quotes [qs] and
    the first to reach that price: it is the quote of a bookmaker titled
    [t], every quote for [n] before it is strictly lower, and none after it
    is higher. *)
Definition first_best (qs : list (bookmaker * outcome)) (n t : string)
    (pmax : float) : Prop :=
  exists pre b o post,
    qs = pre ++ (b, o) :: post /\
    title b = Some t /\
    quote_for n pmax (b, o) /\
    (forall q p, In q pre -> quote_for n p q -> flt p pmax = true) /\
    (forall q p, In q post -> quote_for n p q -> fle p pmax = true).

(** the loop invariant of lines 71 to 76 *)
Definition best_so_far (qs : list (bookmaker * outcome)) (best : odds_map)
  : Prop :=
  (forall n, get best n = None -> forall q, In q qs -> name (snd q) <> Some n) /\
  (forall n t pmax, get best n = Some (t, pmax) -> first_best qs n t pmax).

Definition numeric (qs : list (bookmaker * outcome)) : Prop :=
  forall q p, In q qs -> price (snd q) = Some p -> is_nan p = false.

(** the mapping [d] with one unit added to the stake of every outcome of
    [winners] *)
Definition mem (k : string) (l : list string) : bool := existsb (String.eqb k) l.

Definition bump (winners : list string) (d : dict Z) : dict Z :=
  map (fun e : string * Z => (fst e, if mem (fst e) winners then snd e + 1 else snd e)) d.

(** The number of outcomes ranked ahead of the outcome [a], whose
    difference is [da]: those met before [a] in the mapping whose
    difference is not lower, and those met after it whose difference is
    strictly higher. *)
Fixpoint rank (diffs : dict float) (a : string) (da : float) : nat :=
  match diffs with
  | [] => 0
  | (b, db) :: rest =>
      if String.eqb a b
      then List.length (filter (fun e : string * float => flt da (snd e)) rest)
      else ((if flt db da then 0 else 1) + rank rest a da)%nat
  end.

(** a price above zero *)
Definition positive_prices (odds : odds_map) : Prop :=
  forall n t p, In (n, (t, p)) odds -> flt (FFin 0) p = true.

(** not below zero (a NaN is not excluded here) *)
Definition fnonneg (x : float) : Prop :=
  match x with
  | FFin q => (0 <= q)%Q
  | FInf neg => neg = false
  | FNan => True
  end.

(** two dicts with the same keys in the same order, their values related
    by [R] *)
Definition aligned {V W : Type} (R : V -> W -> Prop) (l : dict V) (l' : dict W)
  : Prop :=
  Forall2 (fun a b => fst b = fst a /\ R (snd a) (snd b)) l l'.

(** the difference [ideal_stakes[outcome] - rounded_stakes[outcome]] of step
    4, read off the ideal share alone *)
Definition diff_of (e : string * float) : result (string * float) :=
  r <- to_int (snd e) ;; r' <- of_int r ;; Ok (fst e, fsub (snd e) r').

(** the position of the first [a] in a list of outcomes *)
Fixpoint index_of (a : string) (l : list string) : nat :=
  match l with
  | [] => 0
  | b :: rest => if String.eqb a b then 0 else S (index_of a rest)
  end.

(** largest difference first *)
Definition descending (l : list (string * float)) : Prop :=
  StronglySorted (fun x y => flt (snd x) (snd y) = false) l.

Definition no_nan (l : list (string * float)) : Prop :=
  Forall (fun e => is_nan (snd e) = false) l.

(** the exact value of a finite float *)
Definition fval (x : float) : Q :=
  match x with
  | FFin q => q
  | _ => 0%Q
  end.

(** a finite float between [2^A] and [2^B] *)
Definition fin_within (A B : Z) (x : float) : Prop :=
  exists q, x = FFin q /\ (pow2 A <= q)%Q /\ (q <= pow2 B)%Q.

Definition sumQ (l : list Q) : Q := fold_right Qplus 0%Q l.

(** the prices the error analysis covers: finite, from [2^-400] to [2^400] *)
Definition price_exp : Z := 400.

Definition bounded_prices (odds : odds_map) : Prop :=
  forall n t p, In (n, (t, p)) odds -> fin_within (- price_exp) price_exp p.

(** a non-negative value with at most 53 significant bits above 2^-1074 *)
Definition dyadic53 (q : Q) : Prop :=
  exists m e : Z,
    (q == inject_Z m * pow2 e)%Q /\ 0 <= m <= 2 ^ 53 /\ -1074 <= e.

(** the bookmaker and the price an entry of an allocation carries *)
Definition offer_of (entry : string * (string * float * Z * float))
  : string * (string * float) :=
  (fst entry, (fst (fst (fst (snd entry))), snd (fst (fst (snd entry))))).

(** the outcome names in the order of their first appearance *)
Definition add_name (seen : list string) (n : string) : list string :=
  if mem n seen then seen else seen ++ [n].

Definition first_appearance (names : list string) : list string :=
  fold_left add_name names [].

(** the outcome names of a list of quotes, in order *)
Definition names_of (qs : list (bookmaker * outcome)) : list string :=
  flat_map (fun q => match name (snd q) with
                     | Some n => [n]
                     | None => []
                     end) qs.

(** the record [r] is what the match [m] is normalized to, the hours to
    start apart *)
Definition comes_from (m : raw_match) (r : normalized) : Prop :=
  commence_time m = Some (match_start_time r) /\
  build_best_odds m = Ok (best_odds r) /\
  total_implied (best_odds r) = Ok (total_implied_odds r) /\
  league r = sport_key m /\
  match_name r =
    (py_str (home_team m) ++ " v. " ++ py_str (away_team m))%string.

(** a yielded record without its hours to start *)
Definition timeless (r : normalized)
  : string * Z * option string * odds_map * float :=
  (match_name r, match_start_time r, league r, best_odds r,
   total_implied_odds r).

(** a raw match with one more bookmaker at the end of its list *)
Definition with_bookmaker (b : bookmaker) (m : raw_match) : raw_match :=
  {| commence_time := commence_time m; home_team := home_team m;
     away_team := away_team m; sport_key := sport_key m;
     bookmakers := Some (get_or (bookmakers m) [] ++ [b]) |}.

(** the exact sum of the inverses of the prices of an odds mapping *)
Definition implied_sum (odds : odds_map) : Q :=
  sumQ (map (fun e : string * (string * float) => (/ fval (snd (snd e)))%Q) odds).

(** every entry of [best] is still in [best'], unchanged or with a strictly
    higher price *)
Definition never_lower (best best' : odds_map) : Prop :=
  forall n t p,
    get best n = Some (t, p) ->
    exists t' p', get best' n = Some (t', p') /\
                  ((t', p') = (t, p) \/ flt p p' = true).

(** every quoted price of the match is finite, from [2^-400] to [2^400] *)
Definition quotes_in_range (m : raw_match) : Prop :=
  forall q p, In q (quotes m) -> price (snd q) = Some p ->
              fin_within (- price_exp) price_exp p.

(** a finite float that is not negative *)
Definition nonneg_float (x : float) : Prop :=
  exists q, x = FFin q /\ (0 <= q)%Q /\ round64 q = FFin q.

(** every quoted price of the match is above zero *)
Definition quotes_positive (m : raw_match) : Prop :=
  forall q p, In q (quotes m) -> price (snd q) = Some p -> flt (FFin 0) p = true.

(** a report without the hours to start of its match *)
Definition shown (rep : report)
  : (string * Z * option string * odds_map * float) * allocation * (float * float) :=
  (timeless (for_match rep), allocated rep, profit_range rep).

(** [l] is [l'] with some of its elements left out *)
Inductive subsequence {A : Type} : list A -> list A -> Prop :=
| sub_nil : subsequence [] []
| sub_skip (x : A) (l l' : list A) : subsequence l l' -> subsequence l (x :: l')
| sub_keep (x : A) (l l' : list A) :
    subsequence l l' -> subsequence (x :: l) (x :: l').

(** ** Concrete inputs *)

Module Inputs.

Local Open Scope string_scope.

Definition quote (n : string) (p : Q) : outcome :=
  {| name := Some n; price := Some (lit p) |}.

Definition book (t : string) (os : list outcome) : bookmaker :=
  {| title := Some t; markets := Some [ {| outcomes := Some os |} ] |}.

Definition fixture (t : Z) (home away : option string) (bs : list bookmaker)
  : raw_match :=
  {| commence_time := Some t; home_team := home; away_team := away;
     sport_key := Some "soccer_epl"; bookmakers := Some bs |}.

(** a clock that always reads 2000.0 *)
Definition at_2000 : clock := fun _ => lit 2000.

(** two bookmakers, two outcomes; started at 1000 *)
Definition two_books : list bookmaker :=
  [ book "Bookmaker1" [quote "A" (21 # 10); quote "B" (205 # 100)];
    book "Bookmaker2" [quote "A" 2; quote "B" (22 # 10)] ].

Definition derby : raw_match := fixture 1000 (Some "Reds") (Some "Blues") two_books.

(** the same match without its home team *)
Definition no_home : raw_match := with_home None derby.

(** the same match without its commence time *)
Definition no_time : raw_match :=
  {| commence_time := None; home_team := Some "Reds"; away_team := Some "Blues";
     sport_key := Some "soccer_epl"; bookmakers := Some two_books |}.

(** a bookmaker whose market list is present and empty *)
Definition empty_book : bookmaker := {| title := Some "Bookmaker3"; markets := Some [] |}.

Definition with_empty_book : raw_match :=
  fixture 1000 (Some "Reds") (Some "Blues") (two_books ++ [empty_book]).

(** a zero price for A that another bookmaker beats *)
Definition zero_beaten : raw_match :=
  fixture 1000 (Some "Reds") (Some "Blues")
    [ book "Bookmaker1" [quote "A" 0; quote "B" 2];
      book "Bookmaker2" [quote "A" 2] ].

(** a zero price that is the best one kept for A *)
Definition zero_kept : raw_match :=
  fixture 1000 (Some "Reds") (Some "Blues")
    [ book "Bookmaker1" [quote "A" 0; quote "B" 2] ].

(** the best-odds map of [derby] *)
Definition derby_best : odds_map :=
  [("A", ("Bookmaker1", lit (21 # 10))); ("B", ("Bookmaker2", lit (22 # 10)))].

(** odds {A: 1.5, B: 3.0} *)
Definition spec_example : odds_map :=
  [("A", ("Bookmaker1", FFin (3 # 2))); ("B", ("Bookmaker2", FFin 3))].

(** odds {A: 2.0, B: 2.0} *)
Definition evens : odds_map :=
  [("A", ("Bookmaker1", FFin 2)); ("B", ("Bookmaker2", FFin 2))].

(** odds {A: 1.0, B: 9.0} *)
Definition one_and_nine : odds_map :=
  [("A", ("Bookmaker1", FFin 1)); ("B", ("Bookmaker2", FFin 9))].

(** what [calculate_stakes] computes for them with a total stake of 100 *)
Definition spec_example_ideal : dict float :=
  Eval vm_compute in
    match final_stakes spec_example 100 with
    | Ok (ideal, _, _) => ideal
    | Raise _ => []
    end.

Definition spec_example_diffs : dict float :=
  Eval vm_compute in
    match mapM diff_of spec_example_ideal with
    | Ok diffs => diffs
    | Raise _ => []
    end.

Definition spec_example_result : allocation :=
  Eval vm_compute in
    match calculate_stakes spec_example 100 with
    | Ok res => res
    | Raise _ => []
    end.

Definition one_and_nine_ideal : dict float :=
  Eval vm_compute in
    match final_stakes one_and_nine 1000 with
    | Ok (ideal, _, _) => ideal
    | Raise _ => []
    end.

(** a normalized match whose total implied odds are 0.75 *)
Definition sure_bet : normalized :=
  {| match_name := "Reds v. Blues"; match_start_time := 1000;
     hours_to_start := FFin 0; league := Some "soccer_epl";
     best_odds := evens; total_implied_odds := FFin (3 # 4) |}.

Definition zero_kept_best : odds_map :=
  [("A", ("Bookmaker1", lit 0)); ("B", ("Bookmaker1", lit 2))].

End Inputs.

(** Inputs for the properties of the stream and of the scan. *)
Module Examples.

Local Open Scope string_scope.

(** what [process_data] yields for [Inputs.derby] when the clock reads 2000 *)
Definition derby_record : normalized :=
  Eval vm_compute in
    match process_data Inputs.at_2000 true [Inputs.derby] 0 with
    | (r :: _, _) => r
    | _ => Inputs.sure_bet
    end.

(** the first bookmaker of [Inputs.derby] alone, and the second one *)
Definition first_book_only : raw_match :=
  Inputs.fixture 1000 (Some "Reds") (Some "Blues")
    [ Inputs.book "Bookmaker1"
        [Inputs.quote "A" (21 # 10); Inputs.quote "B" (205 # 100)] ].

Definition second_book : bookmaker :=
  Inputs.book "Bookmaker2" [Inputs.quote "A" 2; Inputs.quote "B" (22 # 10)].

(** prices 2^-1023, -2^-1023 and 2: the inverses add up to 0.5, and the
    share of the first outcome overflows *)
Definition huge_inverses : odds_map :=
  [("A", ("Bookmaker1", lit (pow2 (-1023))));
   ("B", ("Bookmaker1", lit (- pow2 (-1023))));
   ("C", ("Bookmaker1", lit 2))].

Definition huge_inverses_record : normalized :=
  {| match_name := "Reds v. Blues"; match_start_time := 1000;
     hours_to_start := FFin 0; league := Some "soccer_epl";
     best_odds := huge_inverses; total_implied_odds := FFin (1 # 2) |}.

End Examples.

(** * Facts about the float model *)

Module FloatFacts.

Local Open Scope Q_scope.

Lemma pow2_spec (e : Z) : pow2 e == 2 ^ e.
Proof.
  unfold pow2. destruct (Z.leb_spec 0 e) as [H | H].
  - now rewrite Zpower_Qpower.
  - rewrite Zpower_Qpower by lia.
    rewrite <- Qpower_opp. now rewrite Z.opp_involutive.
Qed.

Lemma pow2_pos (e : Z) : 0 < pow2 e.
Proof. rewrite pow2_spec. now apply Qpower_0_lt. Qed.

Lemma pow2_add (a b : Z) : pow2 (a + b) == pow2 a * pow2 b.
Proof. rewrite !pow2_spec. now apply Qpower_plus. Qed.

Lemma pow2_sub (a b : Z) : pow2 (a - b) == pow2 a / pow2 b.
Proof.
  rewrite !pow2_spec. unfold Z.sub, Qdiv.
  rewrite Qpower_plus by discriminate. now rewrite Qpower_opp.
Qed.

Lemma pow2_le (a b : Z) : (a <= b)%Z -> pow2 a <= pow2 b.
Proof.
  intros H. rewrite !pow2_spec. apply Qpower_le_compat_l; [exact H | lra].
Qed.

Lemma pow2_lt (a b : Z) : (a < b)%Z -> pow2 a < pow2 b.
Proof.
  intros H. assert (Hs : pow2 (a + 1) <= pow2 b) by (apply pow2_le; lia).
  rewrite pow2_add in Hs. change (pow2 1) with 2 in Hs.
  pose proof (pow2_pos a). lra.
Qed.

Lemma pow2_int (e : Z) : (0 <= e)%Z -> pow2 e = inject_Z (2 ^ e).
Proof. intros H. unfold pow2. now rewrite (proj2 (Z.leb_le 0 e) H). Qed.

Lemma pow2_succ (a : Z) : pow2 (a + 1) == 2 * pow2 a.
Proof. rewrite pow2_add. change (pow2 1) with 2. lra. Qed.

(** [ilog2] is the floor of the binary logarithm. *)
Lemma ilog2_spec (q : Q) :
  0 < q -> pow2 (ilog2 q) <= q /\ q < pow2 (ilog2 q + 1).
Proof.
  intros Hq. destruct q as [n d].
  assert (Hn : (0 < n)%Z).
  { unfold Qlt in Hq. simpl in Hq. lia. }
  unfold ilog2. cbn [Qnum Qden].
  destruct (Z.log2_spec n Hn) as [Hn1 Hn2].
  destruct (Z.log2_spec (Zpos d) (Pos2Z.is_pos d)) as [Hd1 Hd2].
  pose proof (Z.log2_nonneg n) as Ln.
  pose proof (Z.log2_nonneg (Zpos d)) as Ld.
  set (ln := Z.log2 n) in *. set (ld := Z.log2 (Zpos d)) in *.
  assert (Hq' : n # d == inject_Z n / inject_Z (Zpos d)).
  { rewrite Qmake_Qdiv. reflexivity. }
  assert (Dpos : 0 < inject_Z (Zpos d)).
  { unfold Qlt. simpl. lia. }
  assert (N1 : pow2 ln <= inject_Z n).
  { rewrite pow2_int by assumption. now rewrite <- Zle_Qle. }
  assert (N2 : inject_Z n < pow2 (ln + 1)).
  { rewrite pow2_int by lia. rewrite <- Zlt_Qlt.
    now replace (ln + 1)%Z with (Z.succ ln) by lia. }
  assert (D1 : pow2 ld <= inject_Z (Zpos d)).
  { rewrite pow2_int by assumption. now rewrite <- Zle_Qle. }
  assert (D2 : inject_Z (Zpos d) < pow2 (ld + 1)).
  { rewrite pow2_int by lia. rewrite <- Zlt_Qlt.
    now replace (ld + 1)%Z with (Z.succ ld) by lia. }
  pose proof (pow2_pos ld) as Pld. pose proof (pow2_pos ln) as Pln.
  pose proof (pow2_pos (ln - ld)) as Pe.
  pose proof (pow2_sub ln ld) as Esub.
  assert (Emul : pow2 (ln - ld) * pow2 ld == pow2 ln).
  { rewrite Esub. field. lra. }
  assert (Xmul : (n # d) * inject_Z (Zpos d) == inject_Z n).
  { rewrite Hq'. field. lra. }
  rewrite pow2_succ in N2, D2.
  destruct (Qle_bool (pow2 (ln - ld)) (n # d)) eqn:Hb.
  - apply Qle_bool_iff in Hb. split; [exact Hb |].
    rewrite pow2_succ.
    apply Qnot_le_lt. intros C.
    assert (2 * pow2 (ln - ld) * pow2 ld <= (n # d) * inject_Z (Zpos d)).
    { apply Qle_trans with ((n # d) * pow2 ld).
      - apply Qmult_le_compat_r; lra.
      - rewrite (Qmult_comm (n # d)), (Qmult_comm (n # d)).
        apply Qmult_le_compat_r; [lra | ]. apply Qlt_le_weak.
        eapply Qlt_le_trans; [| exact C]. lra. }
    lra.
  - assert (Hlt : n # d < pow2 (ln - ld)).
    { apply Qnot_le_lt. intros C. apply Qle_bool_iff in C. congruence. }
    replace (ln - ld - 1 + 1)%Z with (ln - ld)%Z by lia.
    split; [| exact Hlt].
    assert (E1 : pow2 (ln - ld - 1) * 2 == pow2 (ln - ld)).
    { replace (ln - ld)%Z with (ln - ld - 1 + 1)%Z at 2 by lia.
      rewrite pow2_succ. lra. }
    pose proof (pow2_pos (ln - ld - 1)) as Pe1.
    apply Qnot_lt_le. intros C.
    assert ((n # d) * inject_Z (Zpos d) < pow2 (ln - ld - 1) * (2 * pow2 ld)).
    { apply Qlt_le_trans with (pow2 (ln - ld - 1) * inject_Z (Zpos d)).
      - apply Qmult_lt_compat_r; assumption.
      - rewrite (Qmult_comm (pow2 (ln - ld - 1))),
          (Qmult_comm (pow2 (ln - ld - 1))).
        apply Qmult_le_compat_r; lra. }
    assert (pow2 (ln - ld - 1) * (2 * pow2 ld) == pow2 ln).
    { rewrite <- Emul, <- E1. ring. }
    lra.
Qed.

Lemma ilog2_ge (q : Q) (a : Z) : 0 < q -> pow2 a <= q -> (a <= ilog2 q)%Z.
Proof.
  intros Hq Ha. destruct (ilog2_spec q Hq) as [_ H2].
  destruct (Z_le_gt_dec a (ilog2 q)) as [L | G]; [exact L |].
  assert (pow2 (ilog2 q + 1) <= pow2 a) by (apply pow2_le; lia). lra.
Qed.

Lemma ilog2_le (q : Q) (b : Z) : 0 < q -> q <= pow2 b -> (ilog2 q <= b)%Z.
Proof.
  intros Hq Hb. destruct (ilog2_spec q Hq) as [H1 _].
  destruct (Z_le_gt_dec (ilog2 q) b) as [L | G]; [exact L |].
  assert (pow2 b < pow2 (ilog2 q)) by (apply pow2_lt; lia). lra.
Qed.

(** [rne] picks an integer at distance at most one half. *)
Lemma rne_close (q : Q) :
  inject_Z (rne q) - (1 # 2) <= q /\ q <= inject_Z (rne q) + (1 # 2).
Proof.
  unfold rne. pose proof (Qfloor_le q) as F1. pose proof (Qlt_floor q) as F2.
  rewrite inject_Z_plus in F2. change (inject_Z 1) with 1 in F2.
  destruct (Qcompare_spec (q - inject_Z (Qfloor q)) (1 # 2)) as [E | L | G].
  - destruct (Z.even (Qfloor q)).
    + split; lra.
    + rewrite inject_Z_plus. change (inject_Z 1) with 1. split; lra.
  - split; lra.
  - rewrite inject_Z_plus. change (inject_Z 1) with 1. split; lra.
Qed.

Lemma rne_le (q : Q) (k : Z) : q <= inject_Z k -> (rne q <= k)%Z.
Proof.
  intros H. pose proof (rne_close q) as [C1 _].
  destruct (Z_le_gt_dec (rne q) k) as [L | G]; [exact L |].
  assert (Hk : (k + 1 <= rne q)%Z) by lia.
  rewrite Zle_Qle, inject_Z_plus in Hk. change (inject_Z 1) with 1 in Hk.
  (* the only way is a tie, rounded upward from [k] *)
  unfold rne in *. set (f := Qfloor q) in *.
  pose proof (Qfloor_le q) as F1. fold f in F1.
  destruct (Qcompare_spec (q - inject_Z f) (1 # 2)) as [E | Lt | Gt].
  - destruct (Z.even f); [lra |].
    rewrite inject_Z_plus in Hk, C1. change (inject_Z 1) with 1 in *. lra.
  - lra.
  - rewrite inject_Z_plus in Hk, C1. change (inject_Z 1) with 1 in *. lra.
Qed.

Lemma rne_ge (q : Q) (k : Z) : inject_Z k <= q -> (k <= rne q)%Z.
Proof.
  intros H. unfold rne. set (f := Qfloor q).
  assert (Hf : (k <= f)%Z).
  { replace k with (Qfloor (inject_Z k)) by apply Qfloor_Z.
    now apply Qfloor_resp_le. }
  destruct (Qcompare (q - inject_Z f) (1 # 2)); [destruct (Z.even f) | |]; lia.
Qed.

Lemma rne_int (k : Z) : rne (inject_Z k) = k.
Proof.
  apply Z.le_antisymm; [apply rne_le | apply rne_ge]; apply Qle_refl.
Qed.

Global Instance rne_comp : Proper (Qeq ==> eq) rne.
Proof.
  intros x y E. unfold rne. rewrite (Qfloor_comp x y E).
  now rewrite E.
Qed.

Lemma ulp_exp_cases (a : Q) :
  (ulp_exp a = ilog2 a - 52 /\ -1022 <= ilog2 a)%Z \/
  (ulp_exp a = -1074 /\ ilog2 a < -1022)%Z.
Proof. unfold ulp_exp, emin, prec. lia. Qed.

Lemma scaled_mul (a : Q) (e : Z) : a / pow2 e * pow2 e == a.
Proof. pose proof (pow2_pos e). field. lra. Qed.

(** Rounding never crosses a power of two from below... *)
Lemma round_mag_le (a : Q) (B : Z) :
  0 < a -> a <= pow2 B -> (-1074 <= B)%Z -> round_mag a <= pow2 B.
Proof.
  intros Ha Hb HB. unfold round_mag. set (e := ulp_exp a).
  pose proof (ilog2_le a B Ha Hb) as HE.
  assert (He : (e <= B)%Z).
  { destruct (ulp_exp_cases a) as [[H _] | [H _]]; fold e in H; lia. }
  pose proof (pow2_pos e) as Pe.
  assert (Hz : a / pow2 e <= inject_Z (2 ^ (B - e))).
  { rewrite <- pow2_int by lia. rewrite pow2_sub.
    unfold Qdiv. apply Qmult_le_compat_r; [exact Hb |].
    apply Qlt_le_weak, Qinv_lt_0_compat, Pe. }
  apply rne_le in Hz. rewrite Zle_Qle in Hz.
  rewrite <- pow2_int in Hz by lia.
  assert (pow2 (B - e) * pow2 e == pow2 B).
  { rewrite pow2_sub. field. lra. }
  rewrite <- H. apply Qmult_le_compat_r; lra.
Qed.

(** ... nor from above. *)
Lemma round_mag_ge (a : Q) (A : Z) :
  0 < a -> pow2 A <= a -> (-1074 <= A)%Z -> pow2 A <= round_mag a.
Proof.
  intros Ha Hb HA. unfold round_mag. set (e := ulp_exp a).
  pose proof (ilog2_ge a A Ha Hb) as HE.
  pose proof (pow2_pos e) as Pe.
  destruct (ilog2_spec a Ha) as [S1 _].
  assert (Hk : exists k : Z, (e <= k)%Z /\ pow2 A <= pow2 k /\ pow2 k <= a).
  { destruct (Z_le_gt_dec e A) as [L | G].
    - exists A. split; [exact L | split; [apply Qle_refl | exact Hb]].
    - exists (ilog2 a). split; [| split; [now apply pow2_le | exact S1]].
      destruct (ulp_exp_cases a) as [[H _] | [H _]]; fold e in H; lia. }
  destruct Hk as (k & K1 & K2 & K3).
  assert (Hz : inject_Z (2 ^ (k - e)) <= a / pow2 e).
  { rewrite <- pow2_int by lia. rewrite pow2_sub.
    unfold Qdiv. apply Qmult_le_compat_r; [exact K3 |].
    apply Qlt_le_weak, Qinv_lt_0_compat, Pe. }
  apply rne_ge in Hz. rewrite Zle_Qle in Hz.
  rewrite <- pow2_int in Hz by lia.
  assert (pow2 (k - e) * pow2 e == pow2 k).
  { rewrite pow2_sub. field. lra. }
  apply Qle_trans with (pow2 k); [exact K2 |].
  rewrite <- H. apply Qmult_le_compat_r; lra.
Qed.

(** In the normal range the relative error is at most [u]. *)
Lemma round_mag_rel (a : Q) :
  pow2 emin <= a ->
  a * (1 - u) <= round_mag a /\ round_mag a <= a * (1 + u).
Proof.
  intros Hn. pose proof (pow2_pos emin) as Pm.
  assert (Ha : 0 < a) by lra.
  pose proof (ilog2_ge a emin Ha Hn) as HE.
  destruct (ilog2_spec a Ha) as [S1 _].
  unfold round_mag. set (e := ulp_exp a).
  assert (He : e = (ilog2 a - 52)%Z).
  { destruct (ulp_exp_cases a) as [[H _] | [_ H]]; fold e in H;
      unfold emin in HE; lia. }
  pose proof (pow2_pos e) as Pe.
  destruct (rne_close (a / pow2 e)) as [C1 C2].
  set (m := inject_Z (rne (a / pow2 e))) in *.
  pose proof (scaled_mul a e) as Sm.
  assert (Hu : pow2 e * (1 # 2) <= a * u).
  { unfold u. apply Qle_trans with (pow2 (ilog2 a) * pow2 (-53)).
    - rewrite <- pow2_add. replace (ilog2 a + -53)%Z with (e + -1)%Z by lia.
      rewrite pow2_add. change (pow2 (-1)) with (1 # 2). apply Qle_refl.
    - apply Qmult_le_compat_r; [exact S1 |]. apply Qlt_le_weak, pow2_pos. }
  assert (M1 : (m - (1 # 2)) * pow2 e <= a).
  { rewrite <- Sm. apply Qmult_le_compat_r; lra. }
  assert (M2 : a <= (m + (1 # 2)) * pow2 e).
  { rewrite <- Sm at 1. apply Qmult_le_compat_r; lra. }
  split; lra.
Qed.

Lemma round64_pos (x : Q) :
  0 < x -> round_mag x < pow2 emax ->
  round64 x = FFin (Qred (round_mag x)).
Proof.
  intros Hx Hv. unfold round64.
  destruct (Qcompare_spec x 0) as [E | L | G]; try lra.
  destruct (Qle_bool (pow2 emax) (round_mag x)) eqn:Hb; [| reflexivity].
  apply Qle_bool_iff in Hb. lra.
Qed.

Lemma round64_neg (x : Q) :
  x < 0 -> round_mag (- x) < pow2 emax ->
  round64 x = FFin (Qred (- round_mag (- x))).
Proof.
  intros Hx Hv. unfold round64.
  destruct (Qcompare_spec x 0) as [E | L | G]; try lra.
  destruct (Qle_bool (pow2 emax) (round_mag (- x))) eqn:Hb; [| reflexivity].
  apply Qle_bool_iff in Hb. lra.
Qed.

Lemma pow2_1023_lt : pow2 1023 < pow2 emax.
Proof. apply pow2_lt. unfold emax. lia. Qed.

(** A positive value between two powers of two rounds to a finite float
    between them, within relative error [u] when in the normal range. *)
Lemma round64_bounds (x : Q) (A B : Z) :
  pow2 A <= x -> x <= pow2 B -> (-1074 <= A)%Z -> (B <= 1023)%Z ->
  exists y, round64 x = FFin y /\ pow2 A <= y /\ y <= pow2 B /\
            ((emin <= A)%Z -> x * (1 - u) <= y /\ y <= x * (1 + u)).
Proof.
  intros HA HB LA LB. pose proof (pow2_pos A) as PA.
  assert (Hx : 0 < x) by lra.
  assert (AB : (A <= B)%Z).
  { destruct (Z_le_gt_dec A B) as [L | G]; [exact L |].
    assert (pow2 B < pow2 A) by (apply pow2_lt; lia). lra. }
  pose proof (round_mag_le x B Hx HB ltac:(lia)) as R1.
  pose proof (round_mag_ge x A Hx HA LA) as R2.
  assert (B1023 : pow2 B <= pow2 1023) by (now apply pow2_le).
  pose proof pow2_1023_lt.
  exists (Qred (round_mag x)). rewrite round64_pos by lra.
  split; [reflexivity |]. rewrite !Qred_correct.
  repeat split; try assumption.
  - apply round_mag_rel. apply Qle_trans with (pow2 A); [now apply pow2_le | exact HA].
  - apply round_mag_rel. apply Qle_trans with (pow2 A); [now apply pow2_le | exact HA].
Qed.

(** Any value of magnitude at most [2^B] rounds to a finite float of
    magnitude at most [2^B], of the same sign. *)
Lemma round64_finite (x : Q) (B : Z) :
  Qabs x <= pow2 B -> (-1074 <= B <= 1023)%Z ->
  exists y, round64 x = FFin y /\ Qabs y <= pow2 B /\
            (0 <= x -> 0 <= y) /\ (x <= 0 -> y <= 0).
Proof.
  intros HB LB. pose proof (pow2_pos B) as PB.
  assert (B1023 : pow2 B <= pow2 1023) by (apply pow2_le; lia).
  pose proof pow2_1023_lt.
  apply Qabs_Qle_condition in HB.
  destruct (Qcompare_spec x 0) as [E | L | G].
  - exists 0. unfold round64. rewrite (proj1 (Qeq_alt x 0) E).
    split; [reflexivity |]. change (Qabs 0) with 0. repeat split; lra.
  - assert (Hx : 0 < - x) by lra.
    pose proof (round_mag_le (- x) B Hx ltac:(lra) ltac:(lia)) as R1.
    assert (R0 : 0 <= round_mag (- x)).
    { unfold round_mag. apply Qmult_le_0_compat; [| apply Qlt_le_weak, pow2_pos].
      change 0 with (inject_Z 0). rewrite <- Zle_Qle. apply rne_ge.
      apply Qle_shift_div_l; [apply pow2_pos |]. change (inject_Z 0) with 0. lra. }
    exists (Qred (- round_mag (- x))). rewrite round64_neg by lra.
    split; [reflexivity |]. rewrite !Qred_correct.
    split; [apply Qabs_Qle_condition; split; lra |]. split; intros; lra.
  - pose proof (round_mag_le x B G ltac:(lra) ltac:(lia)) as R1.
    assert (R0 : 0 <= round_mag x).
    { unfold round_mag. apply Qmult_le_0_compat; [| apply Qlt_le_weak, pow2_pos].
      change 0 with (inject_Z 0). rewrite <- Zle_Qle. apply rne_ge.
      apply Qle_shift_div_l; [apply pow2_pos |]. change (inject_Z 0) with 0. lra. }
    exists (Qred (round_mag x)). rewrite round64_pos by lra.
    split; [reflexivity |]. rewrite !Qred_correct.
    split; [apply Qabs_Qle_condition; split; lra |]. split; intros; lra.
Qed.

(** ** The order of the floats *)

Lemma Qle_bool_false (x y : Q) : Qle_bool x y = false <-> y < x.
Proof.
  split.
  - intros H. apply Qnot_le_lt. intros C. apply Qle_bool_iff in C. congruence.
  - intros H. destruct (Qle_bool x y) eqn:E; [| reflexivity].
    apply Qle_bool_iff in E. lra.
Qed.

Ltac float_order :=
  repeat match goal with
         | x : float |- _ => destruct x as [? | [|] |]
         end;
  cbn [flt fle is_nan negb andb] in *;
  try reflexivity; try discriminate;
  repeat match goal with
         | H : negb _ = true |- _ => apply negb_true_iff in H
         | H : negb _ = false |- _ => apply negb_false_iff in H
         | H : Qle_bool _ _ = true |- _ => apply Qle_bool_iff in H
         | H : Qle_bool _ _ = false |- _ => apply Qle_bool_false in H
         | |- negb _ = true => apply negb_true_iff
         | |- negb _ = false => apply negb_false_iff
         | |- Qle_bool _ _ = true => apply Qle_bool_iff
         | |- Qle_bool _ _ = false => apply Qle_bool_false
         end;
  try lra.

Lemma flt_trans (a b c : float) :
  flt a b = true -> flt b c = true -> flt a c = true.
Proof. intros H1 H2. float_order. Qed.

Lemma fle_flt_trans (a b c : float) :
  fle a b = true -> flt b c = true -> flt a c = true.
Proof. intros H1 H2. float_order. Qed.

Lemma flt_fle (a b : float) : flt a b = true -> fle a b = true.
Proof. intros H. float_order. Qed.

Lemma not_flt_fle (a b : float) :
  is_nan a = false -> is_nan b = false -> flt b a = false -> fle a b = true.
Proof. intros Ha Hb H. float_order. Qed.

Lemma flt_not_nan (a b : float) :
  flt a b = true -> is_nan a = false /\ is_nan b = false.
Proof. intros H. split; float_order. Qed.

(** ** Signs *)

Lemma round_mag_nonneg (a : Q) : 0 < a -> 0 <= round_mag a.
Proof.
  intros Ha. unfold round_mag.
  apply Qmult_le_0_compat; [| apply Qlt_le_weak, pow2_pos].
  change 0 with (inject_Z 0). rewrite <- Zle_Qle. apply rne_ge.
  apply Qle_shift_div_l; [apply pow2_pos |]. change (inject_Z 0) with 0. lra.
Qed.

Lemma round64_nonneg (x : Q) : 0 <= x -> fnonneg (round64 x).
Proof.
  intros Hx. unfold round64.
  destruct (Qcompare_spec x 0) as [E | L | G]; try lra.
  - cbn [fnonneg]. apply Qle_refl.
  - destruct (Qle_bool (pow2 emax) (round_mag x)); cbn [fnonneg]; [reflexivity |].
    rewrite Qred_correct. now apply round_mag_nonneg.
Qed.

Lemma fnonneg_not_neg (x : float) : fnonneg x -> is_neg x = false.
Proof.
  destruct x as [q | [|] |]; cbn; try easy.
  intros H. apply negb_false_iff, Qle_bool_iff, H.
Qed.

Lemma fadd_nonneg (x y : float) : fnonneg x -> fnonneg y -> fnonneg (fadd x y).
Proof.
  destruct x as [p | a |], y as [q | b |]; cbn [fnonneg fadd]; try easy.
  - intros Hp Hq. apply round64_nonneg. lra.
  - intros -> ->. reflexivity.
Qed.

Lemma fmul_nonneg (x y : float) : fnonneg x -> fnonneg y -> fnonneg (fmul x y).
Proof.
  intros Hx Hy.
  pose proof (fnonneg_not_neg x Hx) as Nx. pose proof (fnonneg_not_neg y Hy) as Ny.
  destruct x as [p | a |], y as [q | b |]; cbn [fmul]; try exact I.
  - apply round64_nonneg. cbn in Hx, Hy. now apply Qmult_le_0_compat.
  - destruct (is_zero (FFin p) || is_zero (FInf b)); [exact I |].
    rewrite Nx, Ny. reflexivity.
  - destruct (is_zero (FInf a) || is_zero (FFin q)); [exact I |].
    rewrite Nx, Ny. reflexivity.
  - destruct (is_zero (FInf a) || is_zero (FInf b)); [exact I |].
    rewrite Nx, Ny. reflexivity.
Qed.

Lemma is_zero_false (q : Q) : is_zero (FFin q) = false -> ~ q == 0.
Proof.
  cbn. intros H E. apply Qeq_bool_iff in E. congruence.
Qed.

Lemma fdiv_nonneg (x y z : float) :
  fnonneg x -> fnonneg y -> fdiv x y = Ok z -> fnonneg z.
Proof.
  intros Hx Hy. unfold fdiv.
  destruct (is_zero y) eqn:Z; [discriminate |].
  intros H. inversion H; subst z. clear H.
  pose proof (fnonneg_not_neg y Hy) as Ny.
  destruct x as [p | a |], y as [q | b |]; try exact I.
  - apply round64_nonneg. cbn in Hx, Hy. apply is_zero_false in Z.
    apply Qle_shift_div_l; lra.
  - cbn. apply Qle_refl.
  - rewrite Ny. cbn in Hx. subst a. reflexivity.
Qed.

Lemma sum_nonneg (l : list float) : Forall fnonneg l -> fnonneg (sum l).
Proof.
  unfold sum. assert (H0 : fnonneg (FFin 0)) by (cbn; apply Qle_refl).
  revert H0. generalize (FFin 0) as acc.
  induction l as [| x l IH]; intros acc Ha Hl; [exact Ha |].
  inversion Hl; subst. simpl. apply IH; [| assumption].
  now apply fadd_nonneg.
Qed.

Lemma flt_zero_nonneg (p : float) : flt (FFin 0) p = true -> fnonneg p.
Proof.
  destruct p as [q | [|] |]; cbn; try easy.
  rewrite negb_true_iff, Qle_bool_false. lra.
Qed.

Lemma of_int_nonneg (n : Z) (t : float) :
  (0 <= n)%Z -> of_int n = Ok t -> fnonneg t.
Proof.
  intros Hn. unfold of_int.
  assert (H : fnonneg (round64 (inject_Z n))).
  { apply round64_nonneg. now rewrite (Zle_Qle 0 n) in Hn. }
  destruct (round64 (inject_Z n)); [| discriminate | discriminate].
  intros E. now inversion E; subst.
Qed.

(** [int(x)] is the floor of a non-negative [x]. *)
Lemma trunc_floor (q : Q) : 0 <= q -> trunc q = Qfloor q.
Proof.
  destruct q as [n d]. intros H. unfold trunc, Qfloor. cbn [Qnum Qden].
  apply Z.quot_div_nonneg; [| lia]. unfold Qle in H. simpl in H. lia.
Qed.

Lemma not_flt_trans (a b c : float) :
  is_nan a = false -> is_nan b = false -> is_nan c = false ->
  flt a b = false -> flt b c = false -> flt a c = false.
Proof. intros Na Nb Nc H1 H2. float_order. Qed.

Lemma round64_not_nan (x : Q) : is_nan (round64 x) = false.
Proof.
  unfold round64. destruct (Qcompare x 0); [reflexivity | |].
  - destruct (Qle_bool _ _); reflexivity.
  - destruct (Qle_bool _ _); reflexivity.
Qed.

(** ** Values that rounding leaves alone *)

Lemma fsub_fin (x y : Q) : fsub (FFin x) (FFin y) = round64 (x + Qred (- y)).
Proof. reflexivity. Qed.


Lemma ilog2_unique (q : Q) (E : Z) :
  pow2 E <= q -> q < pow2 (E + 1) -> ilog2 q = E.
Proof.
  intros H1 H2. pose proof (pow2_pos E) as PE.
  assert (Hq : 0 < q) by lra.
  pose proof (ilog2_ge q E Hq H1) as G.
  destruct (ilog2_spec q Hq) as [S1 _].
  destruct (Z_le_gt_dec (ilog2 q) E) as [L | G']; [lia |].
  assert (pow2 (E + 1) <= pow2 (ilog2 q)) by (apply pow2_le; lia). lra.
Qed.

Lemma ilog2_comp (x y : Q) : 0 < x -> x == y -> ilog2 x = ilog2 y.
Proof.
  intros Hx E. destruct (ilog2_spec x Hx) as [S1 S2].
  symmetry. apply ilog2_unique; rewrite <- E; assumption.
Qed.

Lemma round_mag_comp (x y : Q) : 0 < x -> x == y -> round_mag x == round_mag y.
Proof.
  intros Hx E. unfold round_mag, ulp_exp.
  rewrite (ilog2_comp x y Hx E). now rewrite E.
Qed.

Lemma Qle_bool_comp (a b c d : Q) : a == c -> b == d -> Qle_bool a b = Qle_bool c d.
Proof.
  intros E1 E2. destruct (Qle_bool a b) eqn:H1, (Qle_bool c d) eqn:H2; try reflexivity.
  - apply Qle_bool_iff in H1. apply Qle_bool_false in H2. lra.
  - apply Qle_bool_iff in H2. apply Qle_bool_false in H1. lra.
Qed.

(** rounding depends on the value only, not on the fraction that denotes it *)
Global Instance round64_comp : Proper (Qeq ==> eq) round64.
Proof.
  intros x y E. unfold round64.
  destruct (Qcompare_spec x 0) as [X | X | X];
    destruct (Qcompare_spec y 0) as [Y | Y | Y]; try lra; try reflexivity.
  - assert (Ev : round_mag (- x) == round_mag (- y))
      by (apply round_mag_comp; lra).
    rewrite (Qle_bool_comp _ _ _ _ (Qeq_refl (pow2 emax)) Ev).
    destruct (Qle_bool (pow2 emax) (round_mag (- y))); [reflexivity |].
    f_equal. apply Qred_complete. now rewrite Ev.
  - assert (Ev : round_mag x == round_mag y)
      by (apply round_mag_comp; lra).
    rewrite (Qle_bool_comp _ _ _ _ (Qeq_refl (pow2 emax)) Ev).
    destruct (Qle_bool (pow2 emax) (round_mag y)); [reflexivity |].
    f_equal. now apply Qred_complete.
Qed.

Lemma round_mag_exact_lt (m e : Z) :
  (0 < m < 2 ^ 53)%Z -> (-1074 <= e)%Z ->
  round_mag (inject_Z m * pow2 e) == inject_Z m * pow2 e.
Proof.
  intros Hm He. set (x := inject_Z m * pow2 e).
  pose proof (pow2_pos e) as Pe.
  assert (M0 : 0 < inject_Z m).
  { change 0 with (inject_Z 0). rewrite <- Zlt_Qlt. lia. }
  assert (M1 : inject_Z m < pow2 53).
  { rewrite pow2_int by lia. rewrite <- Zlt_Qlt. lia. }
  assert (Hx : 0 < x) by (unfold x; nra).
  assert (Hlt : x < pow2 (53 + e)).
  { rewrite pow2_add. unfold x. apply Qmult_lt_compat_r; assumption. }
  destruct (ilog2_spec x Hx) as [S1 _].
  assert (HE : (ilog2 x < 53 + e)%Z).
  { destruct (Z_lt_ge_dec (ilog2 x) (53 + e)) as [L | G]; [exact L |].
    assert (pow2 (53 + e) <= pow2 (ilog2 x)) by (apply pow2_le; lia). lra. }
  unfold round_mag. set (ue := ulp_exp x).
  assert (Hue : (ue <= e)%Z).
  { destruct (ulp_exp_cases x) as [[H _] | [H _]]; fold ue in H; lia. }
  assert (Ex : x / pow2 ue == inject_Z (m * 2 ^ (e - ue))).
  { rewrite inject_Z_mult. rewrite <- pow2_int by lia. rewrite pow2_sub.
    unfold x. pose proof (pow2_pos ue). field. lra. }
  rewrite Ex, rne_int, <- Ex. apply scaled_mul.
Qed.

Lemma round_mag_exact (m e : Z) :
  (0 < m <= 2 ^ 53)%Z -> (-1074 <= e)%Z ->
  round_mag (inject_Z m * pow2 e) == inject_Z m * pow2 e.
Proof.
  intros Hm He.
  destruct (Z_lt_ge_dec m (2 ^ 53)) as [L | G];
    [apply round_mag_exact_lt; lia |].
  assert (m = 2 ^ 53)%Z by lia. subst m.
  assert (E : inject_Z (2 ^ 53) * pow2 e == inject_Z (2 ^ 52) * pow2 (e + 1)).
  { rewrite pow2_succ. change (inject_Z (2 ^ 53)) with (2 * inject_Z (2 ^ 52)).
    ring. }
  assert (P : 0 < inject_Z (2 ^ 53) * pow2 e).
  { pose proof (pow2_pos e). apply Qmult_lt_0_compat; [reflexivity | assumption]. }
  rewrite (round_mag_comp _ _ P E), E.
  apply round_mag_exact_lt; lia.
Qed.

(** a value with 53 significant bits is a float *)
Lemma round64_exact (q : Q) :
  dyadic53 q -> q <= pow2 1023 -> exists y, round64 q = FFin y /\ y == q.
Proof.
  intros (m & e & E & Hm & He) Hb.
  rewrite (round64_comp q _ E).
  destruct (Z.eq_dec m 0) as [-> | N].
  - exists 0. assert (Z0 : inject_Z 0 * pow2 e == 0) by ring.
    rewrite (round64_comp _ _ Z0). split; [reflexivity |].
    rewrite E. now rewrite Z0.
  - assert (R : round_mag (inject_Z m * pow2 e) == inject_Z m * pow2 e)
      by (apply round_mag_exact; lia).
    assert (P : 0 < inject_Z m * pow2 e).
    { pose proof (pow2_pos e). apply Qmult_lt_0_compat; [| assumption].
      change 0 with (inject_Z 0). rewrite <- Zlt_Qlt. lia. }
    pose proof pow2_1023_lt.
    exists (Qred (round_mag (inject_Z m * pow2 e))).
    rewrite round64_pos; [| exact P | rewrite R, <- E; lra].
    split; [reflexivity |]. rewrite Qred_correct, R. now symmetry.
Qed.

(** a positive float has 53 significant bits *)
Lemma FFin_inj (a b : Q) : FFin a = FFin b -> a = b.
Proof. intros H. now injection H. Qed.

Lemma round64_dyadic (x y : Q) : round64 x = FFin y -> 0 < y -> dyadic53 y.
Proof.
  unfold round64. destruct (Qcompare_spec x 0) as [X | X | X].
  - intros H. apply FFin_inj in H. subst y. intros C. lra.
  - destruct (Qle_bool _ _); [discriminate |].
    intros H. apply FFin_inj in H. subst y. intros C. rewrite Qred_correct in C.
    pose proof (round_mag_nonneg (- x) ltac:(lra)). lra.
  - destruct (Qle_bool _ _); [discriminate |].
    intros H _. apply FFin_inj in H. subst y.
    unfold round_mag. set (ue := ulp_exp x).
    exists (rne (x / pow2 ue)), ue. split; [apply Qred_correct |].
    pose proof (pow2_pos ue) as Pu.
    destruct (ilog2_spec x X) as [S1 S2].
    split; [split |].
    + apply rne_ge. apply Qle_shift_div_l; [exact Pu |].
      change (inject_Z 0) with 0. lra.
    + apply rne_le. rewrite <- pow2_int by lia.
      apply Qle_shift_div_r; [exact Pu |]. rewrite <- pow2_add.
      destruct (ulp_exp_cases x) as [[H _] | [H1 H2]].
      * fold ue in H. rewrite H.
        apply Qle_trans with (pow2 (ilog2 x + 1)); [now apply Qlt_le_weak |].
        apply pow2_le. lia.
      * fold ue in H1. rewrite H1.
        apply Qle_trans with (pow2 (ilog2 x + 1)); [now apply Qlt_le_weak |].
        apply pow2_le. lia.
    + destruct (ulp_exp_cases x) as [[H H'] | [H H']]; fold ue in H; rewrite H; lia.
Qed.

Lemma Qfloor_nonneg (q : Q) : 0 <= q -> (0 <= Qfloor q)%Z.
Proof.
  intros H. change 0%Z with (Qfloor (inject_Z 0)). now apply Qfloor_resp_le.
Qed.

(** The difference of step 4 is exact: it is the fractional part of the
    share. *)
Lemma diff_of_exact (k : string) (s : Q) :
  dyadic53 s -> 0 < s -> s <= pow2 1023 ->
  exists d, diff_of (k, FFin s) = Ok (k, FFin d) /\
            d == s - inject_Z (Qfloor s).
Proof.
  intros (m & e & E & Hm & He) Hs Hb.
  pose proof (pow2_pos e) as Pe.
  pose proof (Qfloor_le s) as F1. pose proof (Qlt_floor s) as F2.
  rewrite inject_Z_plus in F2. change (inject_Z 1) with 1 in F2.
  pose proof (Qfloor_nonneg s (Qlt_le_weak _ _ Hs)) as F0.
  set (f := Qfloor s) in *.
  assert (F0q : 0 <= inject_Z f).
  { change 0 with (inject_Z 0). now rewrite <- Zle_Qle. }
  unfold diff_of. cbn [fst snd to_int bind].
  rewrite (trunc_floor s (Qlt_le_weak _ _ Hs)). fold f.
  (* the floor and the fractional part have 53 significant bits *)
  assert (D : dyadic53 (inject_Z f) /\ dyadic53 (s - inject_Z f)).
  { destruct (Z_le_gt_dec 0 e) as [Epos | Eneg].
    - assert (Es : s == inject_Z (m * 2 ^ e)).
      { rewrite E, inject_Z_mult. now rewrite <- pow2_int. }
      assert (Ef : f = (m * 2 ^ e)%Z).
      { unfold f. rewrite (Qfloor_comp _ _ Es). apply Qfloor_Z. }
      split.
      + exists m, e. split; [| split; assumption].
        rewrite Ef. now rewrite <- Es.
      + exists 0%Z, 0%Z. split; [| lia].
        rewrite Ef, <- Es. ring.
    - assert (M53 : inject_Z m <= pow2 53).
      { rewrite pow2_int by lia. rewrite <- Zle_Qle. lia. }
      assert (M0 : 0 <= inject_Z m).
      { change 0 with (inject_Z 0). rewrite <- Zle_Qle. lia. }
      assert (E1 : pow2 e <= pow2 (-1)) by (apply pow2_le; lia).
      change (pow2 (-1)) with (1 # 2) in E1.
      assert (S52 : s <= pow2 52).
      { rewrite E. assert (H52 : pow2 53 * (1 # 2) == pow2 52) by reflexivity.
        rewrite <- H52. apply Qmult_le_compat_nonneg; split; lra. }
      split.
      + exists f, 0%Z. split; [change (pow2 0) with 1; ring |].
        split; [| lia]. split; [exact F0 |].
        assert (inject_Z f <= pow2 52) by lra.
        rewrite pow2_int in H by lia. rewrite <- Zle_Qle in H. lia.
      + exists (m - f * 2 ^ (- e))%Z, e.
        assert (Ed : s - inject_Z f == inject_Z (m - f * 2 ^ (- e)) * pow2 e).
        { unfold Z.sub at 1. rewrite inject_Z_plus, inject_Z_opp, inject_Z_mult.
          rewrite <- pow2_int by lia. rewrite E.
          assert (pow2 (- e) * pow2 e == 1).
          { rewrite <- pow2_add. now replace (- e + e)%Z with 0%Z by lia. }
          setoid_replace ((inject_Z m + - (inject_Z f * pow2 (- e))) * pow2 e)
            with (inject_Z m * pow2 e - inject_Z f * (pow2 (- e) * pow2 e)) by ring.
          rewrite H. ring. }
        split; [exact Ed |]. split; [| exact He].
        assert (P2 : (0 < 2 ^ (- e))%Z) by (apply Z.pow_pos_nonneg; lia).
        split; [| nia].
        assert (Hd : 0 <= inject_Z (m - f * 2 ^ (- e)) * pow2 e)
          by (rewrite <- Ed; lra).
        destruct (Z_le_gt_dec 0 (m - f * 2 ^ (- e))) as [L | G]; [exact L |].
        exfalso. assert (G' : (m - f * 2 ^ (- e) <= -1)%Z) by lia.
        rewrite Zle_Qle in G'. change (inject_Z (-1)) with (-1) in G'. nra. }
  destruct D as [Df Dd].
  destruct (round64_exact _ Df ltac:(lra)) as (y & Ey & Yf).
  unfold of_int. rewrite Ey. cbn [bind]. rewrite fsub_fin.
  assert (Eq1 : s + Qred (- y) == s - inject_Z f).
  { rewrite Qred_correct, Yf. ring. }
  rewrite (round64_comp _ _ Eq1).
  destruct (round64_exact _ Dd ltac:(lra)) as (d & Ed & Yd).
  rewrite Ed. exists d. split; [reflexivity | exact Yd].
Qed.

Lemma fmul_fin_dyadic (w t : float) (s : Q) :
  fmul w t = FFin s -> 0 < s -> dyadic53 s.
Proof.
  destruct w as [p | a |], t as [q | b |]; cbn [fmul];
    try discriminate;
    try (destruct (_ || _); discriminate).
  apply round64_dyadic.
Qed.

End FloatFacts.
Import FloatFacts.

(** * Dicts *)

Section Dicts.

Context {V : Type}.

Lemma get_setitem_same (d : dict V) (k : string) (v : V) :
  get (setitem d k v) k = Some v.
Proof.
  induction d as [| [k' v'] d IH]; simpl.
  - now rewrite String.eqb_refl.
  - destruct (String.eqb_spec k k') as [E | N]; simpl.
    + subst. now rewrite String.eqb_refl.
    + now rewrite (proj2 (String.eqb_neq k k') N).
Qed.

Lemma get_setitem_other (d : dict V) (k k' : string) (v : V) :
  k' <> k -> get (setitem d k v) k' = get d k'.
Proof.
  intros N. induction d as [| [k0 v0] d IH]; simpl.
  - now rewrite (proj2 (String.eqb_neq k' k) N).
  - destruct (String.eqb_spec k k0) as [E | N0]; simpl.
    + subst. now rewrite (proj2 (String.eqb_neq k' k0) N).
    + now rewrite IH.
Qed.

Lemma keys_setitem_present (d : dict V) (k : string) (v v0 : V) :
  get d k = Some v0 -> keys (setitem d k v) = keys d.
Proof.
  induction d as [| [k' v'] d IH]; simpl; [discriminate |].
  destruct (String.eqb_spec k k') as [E | N]; simpl.
  - now subst.
  - intros H. unfold keys in *. simpl. now rewrite IH.
Qed.

Lemma get_in_keys (d : dict V) (k : string) (v : V) :
  get d k = Some v -> In k (keys d).
Proof.
  induction d as [| [k' v'] d IH]; simpl; [discriminate |].
  destruct (String.eqb_spec k k') as [E | N]; [now left | right; now apply IH].
Qed.

Lemma get_not_in_keys (d : dict V) (k : string) :
  get d k = None <-> ~ In k (keys d).
Proof.
  induction d as [| [k' v'] d IH]; simpl.
  - split; [intros _ [] | reflexivity].
  - destruct (String.eqb_spec k k') as [E | N].
    + split; [discriminate | intros H; exfalso; apply H; now left].
    + rewrite IH. split.
      * intros H [E | I]; [now apply N | now apply H].
      * intros H I. apply H. now right.
Qed.

End Dicts.

(** * Best-price selection *)

Section BestOdds.

Lemma quote_for_price (n n' : string) (p p' : float) (q : bookmaker * outcome) :
  quote_for n p q -> quote_for n' p' q -> n = n' /\ p = p'.
Proof. intros [H1 H2] [H3 H4]. split; congruence. Qed.

Lemma first_best_later (qs : list (bookmaker * outcome)) (n t : string)
    (pmax : float) (q : bookmaker * outcome) :
  first_best qs n t pmax ->
  (forall p, quote_for n p q -> fle p pmax = true) ->
  first_best (qs ++ [q]) n t pmax.
Proof.
  intros (pre & b & o & post & E & T & Q & Hpre & Hpost) Hq.
  exists pre, b, o, (post ++ [q]). subst qs.
  rewrite <- app_assoc. repeat split; try assumption; try apply Q.
  intros q' p Hin Hf. apply in_app_or in Hin. destruct Hin as [Hin | [<- | []]].
  - now apply (Hpost q').
  - now apply Hq.
Qed.

Lemma first_best_new (qs : list (bookmaker * outcome)) (n t : string)
    (p0 : float) (b : bookmaker) (o : outcome) :
  title b = Some t -> quote_for n p0 (b, o) ->
  (forall q p, In q qs -> quote_for n p q -> flt p p0 = true) ->
  first_best (qs ++ [(b, o)]) n t p0.
Proof.
  intros T Q H. exists qs, b, o, []. repeat split; try assumption; try apply Q.
  intros q p [].
Qed.

(** one turn of the inner loop keeps the invariant *)
Lemma keep_best_invariant (qs : list (bookmaker * outcome)) (best best' : odds_map)
    (b : bookmaker) (o : outcome) :
  numeric (qs ++ [(b, o)]) ->
  best_so_far qs best ->
  keep_best b best o = Ok best' ->
  best_so_far (qs ++ [(b, o)]) best'.
Proof.
  intros Hnum [I1 I2] Hk. unfold keep_best in Hk.
  destruct (name o) as [n0 |] eqn:Hn; [| discriminate].
  destruct (price o) as [p0 |] eqn:Hp; [| discriminate].
  cbn [field bind] in Hk.
  assert (Q0 : quote_for n0 p0 (b, o)) by (split; assumption).
  assert (Nan0 : is_nan p0 = false).
  { apply (Hnum (b, o)); [apply in_or_app; right; now left | exact Hp]. }
  assert (Other : forall n t pmax, n <> n0 ->
            first_best qs n t pmax -> first_best (qs ++ [(b, o)]) n t pmax).
  { intros n t pmax N F. apply first_best_later; [exact F |].
    intros p [Hname _]. cbn [snd] in Hname. congruence. }
  assert (Fresh : forall t0, title b = Some t0 ->
            (forall q p, In q qs -> quote_for n0 p q -> flt p p0 = true) ->
            best_so_far (qs ++ [(b, o)]) (setitem best n0 (t0, p0))).
  { intros t0 T Lower. split.
    - intros n G q Hin.
      destruct (string_dec n n0) as [-> | N].
      + rewrite get_setitem_same in G. discriminate.
      + rewrite get_setitem_other in G by assumption.
        apply in_app_or in Hin. destruct Hin as [Hin | [<- | []]].
        * now apply I1.
        * cbn [snd]. congruence.
    - intros n t pmax G.
      destruct (string_dec n n0) as [-> | N].
      + rewrite get_setitem_same in G. inversion G; subst.
        now apply first_best_new.
      + rewrite get_setitem_other in G by assumption.
        apply Other; [exact N | now apply I2]. }
  destruct (get best n0) as [[th ph] |] eqn:G0.
  - cbn [snd] in Hk. unfold fgt in Hk.
    destruct (I2 n0 th ph G0) as (pre & bh & oh & post & E & Th & Qh & Hpre & Hpost).
    destruct (flt ph p0) eqn:Hgt.
    + destruct (title b) as [t0 |] eqn:T; [| discriminate].
      cbn [field bind] in Hk. inversion Hk; subst best'.
      apply Fresh; [reflexivity |].
      intros q p Hin Hq. subst qs.
      apply in_app_or in Hin. destruct Hin as [Hin | [<- | Hin]].
      * apply flt_trans with ph; [now apply (Hpre q) | exact Hgt].
      * destruct (quote_for_price _ _ _ _ _ Hq Qh) as [_ ->]. exact Hgt.
      * apply fle_flt_trans with ph; [now apply (Hpost q) | exact Hgt].
    + inversion Hk; subst best'. split.
      * intros n G q Hin.
        apply in_app_or in Hin. destruct Hin as [Hin | [<- | []]].
        -- now apply I1.
        -- cbn [snd]. intros C. rewrite Hn in C. inversion C; subst n.
           congruence.
      * intros n t pmax G.
        destruct (string_dec n n0) as [-> | N].
        -- rewrite G0 in G. inversion G; subst t pmax.
           apply first_best_later; [now apply I2 |].
           intros p Hq. destruct (quote_for_price _ _ _ _ _ Hq Q0) as [_ ->].
           apply not_flt_fle; [exact Nan0 | | exact Hgt].
           apply (Hnum (bh, oh)); [| apply Qh].
           apply in_or_app. left. subst qs. apply in_or_app. right. now left.
        -- apply Other; [exact N | now apply I2].
  - destruct (title b) as [t0 |] eqn:T; [| discriminate].
    cbn [field bind] in Hk. inversion Hk; subst best'.
    apply Fresh; [reflexivity |].
    intros q p Hin [Hname _]. exfalso. now apply (I1 n0 G0 q Hin).
Qed.

Lemma numeric_app_l (l1 l2 : list (bookmaker * outcome)) :
  numeric (l1 ++ l2) -> numeric l1.
Proof. intros H q p Hin. apply H. apply in_or_app. now left. Qed.

Lemma scan_outcomes_invariant (b : bookmaker) (os : list outcome) :
  forall (qs : list (bookmaker * outcome)) (best best' : odds_map),
    numeric (qs ++ map (pair b) os) ->
    best_so_far qs best ->
    foldM (keep_best b) best os = Ok best' ->
    best_so_far (qs ++ map (pair b) os) best'.
Proof.
  induction os as [| o os IH]; intros qs best best' Hnum Inv Hf; simpl in *.
  - rewrite app_nil_r. now inversion Hf; subst.
  - destruct (keep_best b best o) as [best1 |] eqn:Hk; [| discriminate].
    cbn [bind] in Hf.
    replace (qs ++ (b, o) :: map (pair b) os)
      with ((qs ++ [(b, o)]) ++ map (pair b) os) in *
      by (now rewrite <- app_assoc).
    apply (IH _ best1); [exact Hnum | | exact Hf].
    apply (keep_best_invariant qs best); [| exact Inv | exact Hk].
    now apply numeric_app_l in Hnum.
Qed.

Lemma scan_bookmakers_invariant (bs : list bookmaker) :
  forall (qs : list (bookmaker * outcome)) (best best' : odds_map),
    numeric (qs ++ flat_map quotes_of_bookmaker bs) ->
    best_so_far qs best ->
    foldM scan_bookmaker best bs = Ok best' ->
    best_so_far (qs ++ flat_map quotes_of_bookmaker bs) best'.
Proof.
  induction bs as [| b bs IH]; intros qs best best' Hnum Inv Hf; simpl in *.
  - rewrite app_nil_r. now inversion Hf; subst.
  - destruct (scan_bookmaker best b) as [best1 |] eqn:Hs; [| discriminate].
    cbn [bind] in Hf. unfold scan_bookmaker in Hs.
    unfold quotes_of_bookmaker at 1. unfold quotes_of_bookmaker at 1 in Hnum.
    destruct (quoted b) as [os |]; [| discriminate]. cbn [bind] in Hs.
    rewrite app_assoc in *.
    apply (IH _ best1); [exact Hnum | | exact Hf].
    apply (scan_outcomes_invariant b os qs best); [| exact Inv | exact Hs].
    now apply numeric_app_l in Hnum.
Qed.

(** C2. When the best-odds map of a match has been built and the quoted
    prices are numbers, every outcome name quoted by some bookmaker has an
    entry; that entry is a quote for the outcome by the bookmaker stored
    with it; no quote for the outcome is higher, and every quote for it
    that the loops visit earlier is strictly lower: the stored price is the
    maximum, and among equal maxima the first encountered is kept. *)
Theorem best_price_selection (m : raw_match) (best : odds_map) (n : string) :
  build_best_odds m = Ok best ->
  numeric_prices m ->
  (exists q p, In q (quotes m) /\ quote_for n p q) ->
  exists t pmax,
    get best n = Some (t, pmax) /\
    first_best (quotes m) n t pmax /\
    (forall q p, In q (quotes m) -> quote_for n p q -> fle p pmax = true).
Proof.
  intros Hb Hnum (q & p & Hin & Hq).
  assert (Inv0 : best_so_far [] []).
  { split; [intros ? _ ? [] | intros ? ? ? G; discriminate]. }
  pose proof (scan_bookmakers_invariant (get_or (bookmakers m) []) [] [] best
                Hnum Inv0 Hb) as [I1 I2].
  cbn [app] in I1, I2. fold (quotes m) in I1, I2.
  destruct (get best n) as [[t pmax] |] eqn:G.
  - exists t, pmax. split; [reflexivity |]. split; [now apply I2 |].
    destruct (I2 n t pmax G) as (pre & b & o & post & E & T & Qb & Hpre & Hpost).
    intros q' p' Hin' Hq'. rewrite E in Hin'.
    apply in_app_or in Hin'. destruct Hin' as [Hi | [<- | Hi]].
    + apply flt_fle. now apply (Hpre q').
    + destruct (quote_for_price _ _ _ _ _ Hq' Qb) as [_ ->].
      apply not_flt_fle.
      * apply (Hnum (b, o)); [rewrite E; apply in_or_app; right; now left | apply Qb].
      * apply (Hnum (b, o)); [rewrite E; apply in_or_app; right; now left | apply Qb].
      * destruct pmax as [x | [|] |]; cbn [flt]; try reflexivity.
        apply negb_false_iff, Qle_bool_iff, Qle_refl.
    + now apply (Hpost q').
  - exfalso. apply (I1 n G q Hin). apply Hq.
Qed.

End BestOdds.

(** * The match normalizer *)

Section Normalizer.

Variable now : clock.

Lemma quoted_empty_markets (b : bookmaker) :
  markets b = Some [] -> quoted b = Raise IndexError.
Proof. intros H. unfold quoted. now rewrite H. Qed.

Lemma quoted_no_markets_key (b : bookmaker) :
  markets b = None -> quoted b = Ok [].
Proof. intros H. unfold quoted. now rewrite H. Qed.

Lemma quoted_first_market (b : bookmaker) (mk : market) (rest : list market) :
  markets b = Some (mk :: rest) -> quoted b = Ok (get_or (outcomes mk) []).
Proof. intros H. unfold quoted. now rewrite H. Qed.

(** A bookmaker whose first market has no outcomes (an empty list, or no
    [outcomes] key) leaves the best-odds map as it is and raises nothing. *)
Lemma scan_bookmaker_no_outcomes (best : odds_map) (b : bookmaker)
    (mk : market) (rest : list market) :
  markets b = Some (mk :: rest) ->
  outcomes mk = Some [] \/ outcomes mk = None ->
  scan_bookmaker best b = Ok best.
Proof.
  intros Hm Ho. unfold scan_bookmaker. rewrite (quoted_first_market b mk rest Hm).
  destruct Ho as [Ho | Ho]; rewrite Ho; reflexivity.
Qed.

Lemma process_match_no_commence_time (inc : bool) (m : raw_match) (tick : nat) :
  commence_time m = None ->
  process_match now inc m tick = Raise (KeyError "commence_time").
Proof. intros H. unfold process_match. now rewrite H. Qed.

Lemma process_data_app_raise (inc : bool) (pre : list raw_match) (m : raw_match)
    (rest : list raw_match) (e : exn) :
  (forall tick, process_match now inc m tick = Raise e) ->
  forall tick,
    snd (process_data now inc pre tick) = None ->
    process_data now inc (pre ++ m :: rest) tick =
      (fst (process_data now inc pre tick), Some e).
Proof.
  intros Hm. induction pre as [| x pre IH]; intros tick Hpre; simpl.
  - now rewrite Hm.
  - simpl in Hpre.
    destruct (process_match now inc x tick) as [[[r |] tick'] | e'].
    + destruct (process_data now inc pre tick') as [rs e1] eqn:E1.
      simpl in Hpre. subst e1.
      specialize (IH tick'). rewrite E1 in IH. rewrite IH by reflexivity.
      reflexivity.
    + now apply IH.
    + discriminate.
Qed.

(** ** What a price of zero does *)

Lemma fdiv_raises (x y : float) (e : exn) :
  fdiv x y = Raise e -> e = ZeroDivisionError /\ is_zero y = true.
Proof.
  unfold fdiv. destruct (is_zero y); [| discriminate].
  intros H. now inversion H.
Qed.

Lemma fdiv_zero (x y : float) : is_zero y = true -> fdiv x y = Raise ZeroDivisionError.
Proof. intros H. unfold fdiv. now rewrite H. Qed.

Lemma inverse_odds_zero (odds : odds_map) :
  has_zero_price odds -> inverse_odds odds = Raise ZeroDivisionError.
Proof.
  intros (n & t & p & Hin & Hz). unfold inverse_odds.
  induction odds as [| [n' [t' p']] odds IH]; [contradiction |].
  simpl. destruct (fdiv (FFin 1) p') as [w | e] eqn:Hd.
  - destruct Hin as [Heq | Hin].
    + inversion Heq; subst. rewrite fdiv_zero in Hd by assumption. discriminate.
    + simpl. rewrite (IH Hin). reflexivity.
  - apply fdiv_raises in Hd. destruct Hd as [-> _]. reflexivity.
Qed.

Lemma total_implied_zero (best : odds_map) :
  has_zero_price best -> total_implied best = Raise ZeroDivisionError.
Proof.
  intros (n & t & p & Hin & Hz). unfold total_implied.
  assert (H : mapM (fun data : string * float => fdiv (FFin 1) (snd data))
                   (values best) = Raise ZeroDivisionError).
  { induction best as [| [n' [t' p']] best IH]; [contradiction |].
    simpl. destruct (fdiv (FFin 1) p') as [w | e] eqn:Hd.
    - destruct Hin as [Heq | Hin].
      + inversion Heq; subst. rewrite fdiv_zero in Hd by assumption. discriminate.
      + simpl. rewrite (IH Hin). reflexivity.
    - apply fdiv_raises in Hd. destruct Hd as [-> _]. reflexivity. }
  now rewrite H.
Qed.

(** ** The hours to start never fail for a plausible clock *)

Lemma of_int_finite (n : Z) (B : Z) :
  (Qabs (inject_Z n) <= pow2 B)%Q -> (-1074 <= B <= 1023)%Z ->
  exists y, of_int n = Ok (FFin y) /\ (Qabs y <= pow2 B)%Q /\
            ((0 <= n)%Z -> (0 <= y)%Q).
Proof.
  intros H HB. destruct (round64_finite _ B H HB) as (y & E & Y1 & Y2 & _).
  exists y. unfold of_int. rewrite E. repeat split; try assumption.
  intros Hn. apply Y2. now rewrite (Zle_Qle 0 n) in Hn.
Qed.

Lemma round2_finite (h : Q) (B : Z) :
  (Qabs h <= pow2 B)%Q -> (0 <= B < 1023)%Z ->
  exists r, round2 (FFin h) = Ok (FFin r).
Proof.
  intros H HB. unfold round2.
  destruct (rne_close (h * 100)) as [C1 C2].
  set (k := inject_Z (rne (h * 100))) in *.
  apply Qabs_Qle_condition in H.
  assert (P1 : (1 <= pow2 B)%Q).
  { change 1%Q with (pow2 0). apply pow2_le. lia. }
  assert (Hk : (Qabs (k / 100) <= pow2 (B + 1))%Q).
  { rewrite pow2_succ. apply Qabs_Qle_condition.
    split.
    - apply Qle_shift_div_l; lra.
    - apply Qle_shift_div_r; lra. }
  destruct (round64_finite _ (B + 1) Hk ltac:(lia)) as (y & E & _).
  exists y. now rewrite E.
Qed.

Lemma hours_to_start_ok (t : Z) (x : Q) :
  (- 2 ^ 62 <= t <= 2 ^ 62)%Z -> (Qabs x <= pow2 62)%Q ->
  exists h,
    (s <- of_int t ;; h <- fdiv (fsub s (FFin x)) (FFin 3600) ;; round2 h)
    = Ok (FFin h).
Proof.
  intros Ht Hx.
  assert (Ta : (Qabs (inject_Z t) <= pow2 62)%Q).
  { apply Qabs_Qle_condition. rewrite pow2_int by lia.
    change (- inject_Z (2 ^ 62))%Q with (inject_Z (- 2 ^ 62)).
    rewrite <- !Zle_Qle. lia. }
  destruct (of_int_finite t 62 Ta ltac:(lia)) as (s & Es & S1 & _).
  rewrite Es. cbn [bind]. rewrite fsub_fin.
  apply Qabs_Qle_condition in S1. apply Qabs_Qle_condition in Hx.
  assert (D : (Qabs (s + Qred (- x)) <= pow2 63)%Q).
  { rewrite Qred_correct. change 63%Z with (62 + 1)%Z. rewrite pow2_succ.
    apply Qabs_Qle_condition. split; lra. }
  destruct (round64_finite _ 63 D ltac:(lia)) as (d & Ed & D1 & _).
  rewrite Ed. unfold fdiv. change (is_zero (FFin 3600)) with false. cbn [bind].
  apply Qabs_Qle_condition in D1.
  assert (Hq : (Qabs (d / 3600) <= pow2 63)%Q).
  { pose proof (pow2_pos 63). apply Qabs_Qle_condition. split.
    - apply Qle_shift_div_l; lra.
    - apply Qle_shift_div_r; lra. }
  destruct (round64_finite _ 63 Hq ltac:(lia)) as (h & Eh & H1 & _).
  rewrite Eh. apply (round2_finite h 63 H1). lia.
Qed.

(** ** The claims on the normalizer *)

(** C9. A match whose commence time lies before the clock reading is
    skipped when [include_started_matches] is false; when it is true the
    match is yielded whenever the other rules let it through (its best-odds
    map was built with at least two outcomes and its implied odds were
    computed), whatever those implied odds are. Timestamps and clock
    readings are at most 2^62 seconds away from the epoch. *)
Theorem started_match_filter (m : raw_match) (tick : nat) (t : Z) (x : Q) :
  commence_time m = Some t ->
  now tick = FFin x ->
  (inject_Z t < x)%Q ->
  (- 2 ^ 62 <= t)%Z -> (x <= pow2 62)%Q ->
  process_match now false m tick = Ok (None, S tick) /\
  (forall best total,
      build_best_odds m = Ok best ->
      (2 <= List.length best)%nat ->
      total_implied best = Ok total ->
      exists r,
        process_match now true m tick = Ok (Some r, S tick) /\
        match_start_time r = t /\
        best_odds r = best /\
        total_implied_odds r = total).
Proof.
  intros Hc Hn Hlt Ht Hx. split.
  - unfold process_match. rewrite Hc. cbn [field bind fst snd].
    unfold int_lt_float. rewrite Hn. cbn [flt].
    destruct (Qle_bool x (inject_Z t)) eqn:Hb; [| reflexivity].
    apply Qle_bool_iff in Hb. lra.
  - intros best total Hb Hlen Htot.
    unfold process_match. rewrite Hc. cbn [field bind fst snd].
    rewrite Hb. cbn [bind].
    destruct (Z.ltb_spec (Z.of_nat (List.length best)) 2) as [L | _]; [lia |].
    rewrite Htot. cbn [bind]. rewrite Hn.
    assert (T62 : (inject_Z (- 2 ^ 62) <= inject_Z t)%Q) by (now rewrite <- Zle_Qle).
    assert (P62 : pow2 62 = inject_Z (2 ^ 62)) by (apply pow2_int; lia).
    assert (Tle : (t <= 2 ^ 62)%Z).
    { rewrite Zle_Qle, <- P62. lra. }
    assert (Xa : (Qabs x <= pow2 62)%Q).
    { apply Qabs_Qle_condition. rewrite P62 at 1.
      change (- inject_Z (2 ^ 62))%Q with (inject_Z (- 2 ^ 62)). split; lra. }
    destruct (hours_to_start_ok t x ltac:(lia) Xa) as (h & Eh).
    destruct (of_int t) as [s |]; [| discriminate]. cbn [bind] in *.
    destruct (fdiv (fsub s (FFin x)) (FFin 3600)) as [h' |]; [| discriminate].
    cbn [bind] in *. rewrite Eh. cbn [bind].
    eexists. split; [reflexivity |]. repeat split.
Qed.

(** C6, as amended. A match without its commence time raises
    [KeyError] and ends the stream there, after the records of the matches
    before it. A match without its home team, or its away team, raises
    nothing on that account: it is processed exactly as a match whose team
    is named None. *)
Theorem missing_identity_fields (inc : bool) (pre : list raw_match)
    (m : raw_match) (rest : list raw_match) (tick : nat) :
  (commence_time m = None ->
   snd (process_data now inc pre tick) = None ->
   process_data now inc (pre ++ m :: rest) tick =
     (fst (process_data now inc pre tick), Some (KeyError "commence_time")))
  /\ process_match now inc (with_home None m) tick =
     process_match now inc (with_home (Some "None"%string) m) tick
  /\ process_match now inc (with_away None m) tick =
     process_match now inc (with_away (Some "None"%string) m) tick.
Proof.
  split; [| split].
  - intros Hc Hpre. apply process_data_app_raise; [| exact Hpre].
    intros tick'. now apply process_match_no_commence_time.
  - reflexivity.
  - reflexivity.
Qed.

(** C7, as amended. [calculate_stakes] raises [ZeroDivisionError] on every
    odds mapping that holds a zero price; the normalizer raises it for a
    match that is not skipped as started whenever a zero price is among the
    best prices kept and at least two outcomes were kept. *)
Theorem zero_price_division (odds : odds_map) (total_stake : Z)
    (inc : bool) (m : raw_match) (tick : nat) (t : Z) (best : odds_map) :
  (has_zero_price odds ->
   calculate_stakes odds total_stake = Raise ZeroDivisionError)
  /\ (commence_time m = Some t ->
      inc = true \/ int_lt_float t (now tick) = false ->
      build_best_odds m = Ok best ->
      (2 <= List.length best)%nat ->
      has_zero_price best ->
      process_match now inc m tick = Raise ZeroDivisionError).
Proof.
  split.
  - intros Hz. unfold calculate_stakes, final_stakes.
    now rewrite (inverse_odds_zero odds Hz).
  - intros Hc Hinc Hb Hlen Hz. unfold process_match.
    rewrite Hc. cbn [field bind].
    assert (Hs : fst (if inc then (false, tick)
                      else (int_lt_float t (now tick), S tick)) = false).
    { destruct Hinc as [-> | Hf]; [reflexivity |].
      destruct inc; [reflexivity | exact Hf]. }
    rewrite Hs, Hb. cbn [bind].
    destruct (Z.ltb_spec (Z.of_nat (List.length best)) 2) as [L | _]; [lia |].
    now rewrite (total_implied_zero best Hz).
Qed.

End Normalizer.

Lemma started_match_filter_witness :
  process_match Inputs.at_2000 false Inputs.derby 0 = Ok (None, 1%nat).
Proof.
  apply (proj1 (started_match_filter Inputs.at_2000 Inputs.derby 0 1000 2000
                  eq_refl eq_refl eq_refl ltac:(lia) ltac:(vm_compute; discriminate))).
Defined.

Lemma missing_identity_fields_witness :
  process_data Inputs.at_2000 true ([Inputs.derby] ++ [Inputs.no_time]) 0 =
  (fst (process_data Inputs.at_2000 true [Inputs.derby] 0),
   Some (KeyError "commence_time")).
Proof.
  apply (proj1 (missing_identity_fields Inputs.at_2000 true [Inputs.derby]
                  Inputs.no_time [] 0)); reflexivity.
Defined.

(** C6 as stated fails: the match without its home team is yielded. *)
Lemma missing_home_team_is_yielded :
  exists r,
    process_data Inputs.at_2000 true [Inputs.no_home] 0 = ([r], None) /\
    match_name r = "None v. Blues"%string.
Proof. eexists. split; vm_compute; reflexivity. Qed.

Lemma zero_price_division_witness :
  calculate_stakes Inputs.zero_kept_best 100 = Raise ZeroDivisionError /\
  process_match Inputs.at_2000 true Inputs.zero_kept 0 = Raise ZeroDivisionError.
Proof.
  assert (Hz : has_zero_price Inputs.zero_kept_best).
  { exists "A"%string, "Bookmaker1"%string, (lit 0).
    split; [left; reflexivity | reflexivity]. }
  pose proof (zero_price_division Inputs.at_2000 Inputs.zero_kept_best 100
                true Inputs.zero_kept 0 1000 Inputs.zero_kept_best) as [H1 H2].
  split.
  - exact (H1 Hz).
  - apply H2; [reflexivity | now left | reflexivity | simpl; lia | exact Hz].
Defined.

(** C7 as stated fails: a match with an outcome priced at zero that a
    second bookmaker beats is yielded, and nothing is raised. *)
Lemma zero_price_can_pass :
  exists r,
    process_data Inputs.at_2000 true [Inputs.zero_beaten] 0 = ([r], None) /\
    get (best_odds r) "A" = Some ("Bookmaker2"%string, FFin 2).
Proof. eexists. split; vm_compute; reflexivity. Qed.

(** C5. The third bookmaker of this match has a market list that is
    present and empty: indexing its first market raises [IndexError], which
    ends the stream before anything is yielded. *)
Theorem empty_market_list_raises :
  process_data Inputs.at_2000 true [Inputs.with_empty_book] 0 =
  ([], Some IndexError).
Proof. vm_compute. reflexivity. Qed.

(** * The opportunity detector *)

(** C3. For a cutoff strictly between 0 and 1 the threshold [1 - cutoff]
    is a finite float between 0 and 1, and a match qualifies exactly when
    its total implied odds are a finite number strictly above 0 and
    strictly below that threshold; the body of the [if] runs for exactly
    those matches of the stream. *)
Theorem qualification_bounds (c : Q) (m : normalized) :
  (0 < c)%Q -> (c < 1)%Q ->
  exists b,
    fsub (FFin 1) (FFin c) = FFin b /\ (0 <= b)%Q /\ (b <= 1)%Q /\
    (qualifies (FFin c) m = true <->
     exists t, total_implied_odds m = FFin t /\ (0 < t)%Q /\ (t < b)%Q) /\
    (forall ms,
        In m (opportunities (FFin c) ms) <->
        In m ms /\
        exists t, total_implied_odds m = FFin t /\ (0 < t)%Q /\ (t < b)%Q).
Proof.
  intros C0 C1. rewrite fsub_fin.
  assert (Ha : (Qabs (1 + Qred (- c)) <= pow2 0)%Q).
  { rewrite Qred_correct. change (pow2 0) with 1%Q.
    apply Qabs_Qle_condition. split; lra. }
  destruct (round64_finite _ 0 Ha ltac:(lia)) as (b & Eb & B1 & B2 & _).
  assert (B0 : (0 <= b)%Q) by (apply B2; rewrite Qred_correct; lra).
  apply Qabs_Qle_condition in B1. change (pow2 0) with 1%Q in B1.
  assert (Hq : qualifies (FFin c) m = true <->
               exists t, total_implied_odds m = FFin t /\ (0 < t)%Q /\ (t < b)%Q).
  { unfold qualifies. rewrite fsub_fin, Eb.
    destruct (total_implied_odds m) as [t | [|] |]; cbn [flt].
    - rewrite andb_true_iff, !negb_true_iff. split.
      + intros [H1 H2]. exists t. split; [reflexivity |].
        split; apply Qnot_le_lt; intros C; apply Qle_bool_iff in C; congruence.
      + intros (t' & E & H1 & H2). inversion E; subst t'.
        split.
        * destruct (Qle_bool t 0) eqn:Hb; [| reflexivity].
          apply Qle_bool_iff in Hb. lra.
        * destruct (Qle_bool b t) eqn:Hb; [| reflexivity].
          apply Qle_bool_iff in Hb. lra.
    - split; [discriminate | intros (t & E & _); discriminate].
    - split; [discriminate | intros (t & E & _); discriminate].
    - split; [discriminate | intros (t & E & _); discriminate]. }
  exists b. repeat split; try assumption; try lra.
  - apply Hq.
  - apply Hq.
  - unfold opportunities in H. apply filter_In in H. apply H.
  - unfold opportunities in H. apply filter_In in H. apply Hq, H.
  - intros [Hin Ht]. unfold opportunities. apply filter_In.
    split; [exact Hin | now apply Hq].
Qed.

(** * The stake allocator: structure *)

Section MapM.

Context {A B : Type} (f : A -> result B).

Lemma mapM_Forall2 (l : list A) (l' : list B) :
  mapM f l = Ok l' -> Forall2 (fun x y => f x = Ok y) l l'.
Proof.
  revert l'. induction l as [| x l IH]; intros l' H; simpl in H.
  - inversion H. constructor.
  - destruct (f x) as [y |] eqn:Hx; [| discriminate]. cbn [bind] in H.
    destruct (mapM f l) as [ys |]; [| discriminate]. cbn [bind] in H.
    inversion H; subst. constructor; [exact Hx | now apply IH].
Qed.

Lemma mapM_total (l : list A) :
  (forall x, In x l -> exists y, f x = Ok y) -> exists l', mapM f l = Ok l'.
Proof.
  induction l as [| x l IH]; intros H; simpl.
  - now exists [].
  - destruct (H x (or_introl eq_refl)) as (y & Hy).
    destruct IH as (l' & Hl); [intros; apply H; now right |].
    exists (y :: l'). now rewrite Hy, Hl.
Qed.

Lemma mapM_total_rel (P : A -> B -> Prop) (l : list A) :
  (forall x, In x l -> exists y, f x = Ok y /\ P x y) ->
  exists l', mapM f l = Ok l' /\ Forall2 P l l'.
Proof.
  induction l as [| x l IH]; intros H; simpl.
  - exists []. split; [reflexivity | constructor].
  - destruct (H x (or_introl eq_refl)) as (y & Hy & Py).
    destruct IH as (l' & Hl & Pl); [intros; apply H; now right |].
    exists (y :: l'). rewrite Hy, Hl. split; [reflexivity | now constructor].
Qed.

End MapM.

Section Allocator.

Lemma get_in {V : Type} (d : dict V) (k : string) (v : V) :
  NoDup (keys d) -> In (k, v) d -> get d k = Some v.
Proof.
  induction d as [| [k' v'] d IH]; intros ND Hin; [contradiction |].
  simpl. inversion ND as [| ? ? Hnot ND']; subst.
  destruct Hin as [E | Hin].
  - inversion E; subst. now rewrite String.eqb_refl.
  - destruct (String.eqb_spec k k') as [-> | N]; [| now apply IH].
    exfalso. apply Hnot. change k' with (fst (k', v)). now apply in_map.
Qed.

Lemma in_get {V : Type} (d : dict V) (k : string) (v : V) :
  get d k = Some v -> In (k, v) d.
Proof.
  induction d as [| [k' v'] d IH]; simpl; [discriminate |].
  destruct (String.eqb_spec k k') as [-> | N].
  - intros H. inversion H. now left.
  - intros H. right. now apply IH.
Qed.

(** Re-reading every key of a dict gives the dict back. *)
Lemma mapM_getitem {V W : Type} (d : dict V) (g : string -> V -> result W)
    (l : dict V) :
  (forall k v, In (k, v) l -> get d k = Some v) ->
  mapM (fun k => v <- getitem d k ;; g k v) (keys l) =
  mapM (fun e => g (fst e) (snd e)) l.
Proof.
  induction l as [| [k v] l IH]; intros H; [reflexivity |].
  change (keys ((k, v) :: l)) with (k :: keys l). cbn [mapM fst snd].
  unfold getitem at 1. rewrite (H k v (or_introl eq_refl)). cbn [bind].
  rewrite IH; [reflexivity |].
  intros; apply H; now right.
Qed.

Lemma mapM_id {V : Type} (l : dict V) :
  mapM (fun e : string * V => Ok (fst e, snd e)) l = Ok l.
Proof.
  induction l as [| [k v] l IH]; [reflexivity |]. simpl. now rewrite IH.
Qed.

Lemma sorted_outcomes_eq (diffs : dict float) :
  NoDup (keys diffs) ->
  sorted_outcomes diffs = Ok (map fst (sort_desc diffs)).
Proof.
  intros ND. unfold sorted_outcomes.
  rewrite (mapM_getitem diffs (fun k d => Ok (k, d)) diffs)
    by (intros; now apply get_in).
  now rewrite mapM_id.
Qed.

(** ** The sort *)

Lemma insert_desc_perm (x : string * float) (l : list (string * float)) :
  Permutation (x :: l) (insert_desc x l).
Proof.
  induction l as [| y l IH]; simpl; [reflexivity |].
  destruct (flt (snd x) (snd y)); [| reflexivity].
  rewrite perm_swap. now constructor.
Qed.

Lemma sort_desc_perm (l : list (string * float)) : Permutation l (sort_desc l).
Proof.
  induction l as [| x l IH]; simpl; [reflexivity |].
  rewrite <- insert_desc_perm. now constructor.
Qed.

Lemma sort_desc_keys_perm (l : dict float) :
  Permutation (keys l) (map fst (sort_desc l)).
Proof. apply Permutation_map, sort_desc_perm. Qed.

Lemma insert_desc_sorted (x : string * float) (l : list (string * float)) :
  is_nan (snd x) = false -> no_nan l ->
  descending l -> descending (insert_desc x l).
Proof.
  intros Nx Nl Hs. induction Hs as [| y l Hs IH Hy]; simpl.
  - constructor; constructor.
  - inversion Nl as [| ? ? Ny Nl']; subst.
    destruct (flt (snd x) (snd y)) eqn:Hxy.
    + constructor; [now apply IH |].
      apply Forall_forall. intros z Hz.
      apply (Permutation_in _ (Permutation_sym (insert_desc_perm x l))) in Hz.
      destruct Hz as [<- | Hz].
      * destruct (flt_not_nan _ _ Hxy) as [_ _].
        destruct (snd x) as [? | [|] |], (snd y) as [? | [|] |];
          cbn [flt] in *; try discriminate; try reflexivity.
        apply negb_true_iff, Qle_bool_false in Hxy.
        apply negb_false_iff, Qle_bool_iff. lra.
      * rewrite Forall_forall in Hy. now apply Hy.
    + constructor; [now constructor |].
      constructor; [exact Hxy |].
      apply Forall_forall. intros z Hz.
      rewrite Forall_forall in Hy, Nl'.
      apply not_flt_trans with (snd y); try assumption; [now apply Nl' | now apply Hy].
Qed.

Lemma no_nan_insert (x : string * float) (l : list (string * float)) :
  is_nan (snd x) = false -> no_nan l -> no_nan (insert_desc x l).
Proof.
  intros Nx Nl. unfold no_nan in *. rewrite Forall_forall in *.
  intros z Hz.
  apply (Permutation_in _ (Permutation_sym (insert_desc_perm x l))) in Hz.
  destruct Hz as [<- | Hz]; [exact Nx | now apply Nl].
Qed.

Lemma sort_desc_no_nan (l : list (string * float)) :
  no_nan l -> no_nan (sort_desc l).
Proof.
  intros H. induction H as [| x l Nx Nl IH]; simpl; [constructor |].
  now apply no_nan_insert.
Qed.

(** the sorted order is in descending order of the differences *)
Lemma sort_desc_sorted (l : list (string * float)) :
  no_nan l -> descending (sort_desc l).
Proof.
  intros H. induction H as [| x l Nx Nl IH]; simpl; [constructor |].
  apply insert_desc_sorted; [exact Nx | now apply sort_desc_no_nan | exact IH].
Qed.

Lemma filter_insert_desc (f : string * float -> bool) (x : string * float)
    (l : list (string * float)) :
  List.length (filter f (insert_desc x l)) = List.length (filter f (x :: l)).
Proof.
  induction l as [| y l IH]; [reflexivity |]. simpl.
  destruct (flt (snd x) (snd y)); [| reflexivity].
  simpl in *. destruct (f y), (f x); simpl in *; lia.
Qed.

Lemma filter_sort_desc (f : string * float -> bool) (l : list (string * float)) :
  List.length (filter f (sort_desc l)) = List.length (filter f l).
Proof.
  induction l as [| x l IH]; [reflexivity |]. simpl sort_desc.
  rewrite filter_insert_desc. simpl. destruct (f x); simpl; now rewrite IH.
Qed.

Lemma filter_none {A : Type} (f : A -> bool) (l : list A) :
  (forall x, In x l -> f x = false) -> filter f l = [].
Proof.
  induction l as [| x l IH]; intros H; [reflexivity |].
  simpl. rewrite (H x (or_introl eq_refl)). apply IH.
  intros; apply H; now right.
Qed.

(** where the inserted outcome lands: behind the strictly larger ones *)
Lemma index_inserted (b : string) (db : float) (l : list (string * float)) :
  is_nan db = false -> no_nan l -> descending l -> ~ In b (keys l) ->
  index_of b (map fst (insert_desc (b, db) l)) =
  List.length (filter (fun e : string * float => flt db (snd e)) l).
Proof.
  intros Nb Nl Hs. induction Hs as [| y l Hs IH Hy]; intros Hnot; simpl.
  - now rewrite String.eqb_refl.
  - inversion Nl as [| ? ? Ny Nl']; subst.
    destruct (flt db (snd y)) eqn:Hxy; simpl.
    + destruct (String.eqb_spec b (fst y)) as [E | N];
        [exfalso; apply Hnot; now left |].
      f_equal. apply IH; [assumption |]. intros C. apply Hnot. now right.
    + rewrite String.eqb_refl.
      assert (E : filter (fun e : string * float => flt db (snd e)) l = []).
      { apply filter_none. intros z Hz.
        rewrite Forall_forall in Hy, Nl'.
        apply not_flt_trans with (snd y); try assumption;
          [now apply Nl' | now apply Hy]. }
      now rewrite E.
Qed.

(** where the others land once one more outcome is inserted *)
Lemma index_after_insert (a b : string) (da db : float) (l : list (string * float)) :
  is_nan db = false -> no_nan l -> descending l -> NoDup (keys l) ->
  a <> b -> In (a, da) l ->
  index_of a (map fst (insert_desc (b, db) l)) =
  (index_of a (map fst l) + (if flt db da then 0 else 1))%nat.
Proof.
  intros Nb Nl Hs. induction Hs as [| y l Hs IH Hy]; intros ND Hab Hin;
    [contradiction |].
  inversion Nl as [| ? ? Ny Nl']; subst.
  inversion ND as [| ? ? Hnot ND']; subst.
  simpl. destruct (flt db (snd y)) eqn:Hxy; simpl.
  - destruct (String.eqb_spec a (fst y)) as [E | N].
    + destruct Hin as [-> | Hin].
      * cbn [snd] in Hxy. now rewrite Hxy.
      * exfalso. apply Hnot. rewrite <- E. change a with (fst (a, da)).
        now apply in_map.
    + destruct Hin as [-> | Hin]; [now cbn in N |].
      rewrite IH by assumption. lia.
  - destruct (String.eqb_spec a b) as [E | _]; [contradiction |].
    assert (Hda : flt db da = false).
    { destruct Hin as [-> | Hin]; [exact Hxy |].
      rewrite Forall_forall in Hy, Nl'.
      apply not_flt_trans with (snd y); try assumption.
      - apply (Nl' (a, da) Hin).
      - apply (Hy (a, da) Hin). }
    rewrite Hda. lia.
Qed.

(** The position of an outcome in the sorted order is its rank. *)
Lemma index_is_rank (l : dict float) (a : string) (da : float) :
  no_nan l -> NoDup (keys l) -> In (a, da) l ->
  index_of a (map fst (sort_desc l)) = rank l a da.
Proof.
  intros Nl. induction Nl as [| [b db] l Nb Nl IH]; intros ND Hin; [contradiction |].
  inversion ND as [| ? ? Hnot ND']; subst. cbn [snd] in Nb.
  simpl sort_desc. simpl rank.
  assert (Ks : forall k, In k (keys (sort_desc l)) <-> In k (keys l)).
  { intros k. split; apply Permutation_in;
      [apply Permutation_sym |]; apply sort_desc_keys_perm. }
  destruct (String.eqb_spec a b) as [-> | N].
  - assert (da = db) as ->.
    { destruct Hin as [E | Hin]; [now inversion E |].
      exfalso. apply Hnot. change b with (fst (b, da)). now apply in_map. }
    rewrite index_inserted.
    + apply filter_sort_desc.
    + exact Nb.
    + now apply sort_desc_no_nan.
    + now apply sort_desc_sorted.
    + now rewrite Ks.
  - destruct Hin as [E | Hin]; [inversion E; congruence |].
    rewrite (index_after_insert a b da db).
    + rewrite IH by assumption. lia.
    + exact Nb.
    + now apply sort_desc_no_nan.
    + now apply sort_desc_sorted.
    + apply (Permutation_NoDup (sort_desc_keys_perm l) ND').
    + exact N.
    + apply (Permutation_in _ (sort_desc_perm l) Hin).
Qed.

Lemma mem_firstn (a : string) (l : list string) (r : nat) :
  In a l -> mem a (firstn r l) = (index_of a l <? r)%nat.
Proof.
  revert r. induction l as [| b l IH]; intros r Hin; [contradiction |].
  destruct r as [| r]; [reflexivity |].
  cbn [firstn mem existsb index_of]. fold (mem a (firstn r l)).
  destruct (String.eqb_spec a b) as [-> | N]; [reflexivity |].
  destruct Hin as [E | Hin]; [congruence |].
  rewrite IH by assumption. reflexivity.
Qed.

(** ** The loop that awards the remainder *)

Lemma map_absent_key (d : dict Z) (k : string) (v : Z) :
  ~ In k (keys d) ->
  map (fun e : string * Z => (fst e, if String.eqb (fst e) k then v else snd e)) d = d.
Proof.
  induction d as [| [k0 v0] d IH]; intros Hnot; [reflexivity |].
  simpl. destruct (String.eqb_spec k0 k) as [-> | N].
  - exfalso. apply Hnot. now left.
  - f_equal. apply IH. intros C. apply Hnot. now right.
Qed.

Lemma setitem_map (d : dict Z) (k : string) (v cur : Z) :
  NoDup (keys d) -> get d k = Some cur ->
  setitem d k v =
  map (fun e : string * Z => (fst e, if String.eqb (fst e) k then v else snd e)) d.
Proof.
  induction d as [| [k' v'] d IH]; intros ND G; simpl in *; [discriminate |].
  inversion ND as [| ? ? Hnot ND']; subst.
  destruct (String.eqb_spec k k') as [-> | N].
  - rewrite String.eqb_refl. f_equal. symmetry. now apply map_absent_key.
  - destruct (String.eqb_spec k' k) as [-> | _]; [congruence |].
    f_equal. now apply IH.
Qed.

Lemma keys_bump (w : list string) (d : dict Z) : keys (bump w d) = keys d.
Proof. unfold keys, bump. rewrite map_map. reflexivity. Qed.

Lemma get_bump (w : list string) (d : dict Z) (k : string) :
  get (bump w d) k =
  option_map (fun v => if mem k w then v + 1 else v) (get d k).
Proof.
  induction d as [| [k' v'] d IH]; [reflexivity |]. simpl.
  destruct (String.eqb_spec k k') as [-> | N]; [reflexivity | exact IH].
Qed.

Lemma bump_nil (d : dict Z) : bump [] d = d.
Proof.
  unfold bump. rewrite <- (map_id d) at 2. apply map_ext.
  intros [k v]. reflexivity.
Qed.

Lemma mem_In (k : string) (l : list string) : mem k l = true <-> In k l.
Proof.
  unfold mem. rewrite existsb_exists. split.
  - intros (x & Hin & E). apply String.eqb_eq in E. now subst.
  - intros H. exists k. split; [exact H | apply String.eqb_refl].
Qed.

Lemma bump_setitem (w : list string) (d : dict Z) (k : string) (cur : Z) :
  NoDup (keys d) -> get d k = Some cur -> ~ In k w ->
  bump w (setitem d k (cur + 1)) = bump (k :: w) d.
Proof.
  intros ND G Hw. rewrite (setitem_map d k (cur + 1) cur ND G).
  unfold bump. rewrite map_map. apply map_ext_in.
  intros [k' v'] Hin. cbn [fst snd]. cbn [mem existsb].
  fold (mem k' w). destruct (String.eqb_spec k' k) as [-> | N].
  - apply (get_in d k v' ND) in Hin. rewrite G in Hin. inversion Hin; subst.
    destruct (mem k w) eqn:M; [apply mem_In in M; contradiction | reflexivity].
  - reflexivity.
Qed.

Lemma In_firstn {A : Type} (n : nat) (l : list A) (x : A) :
  In x (firstn n l) -> In x l.
Proof.
  intros H. rewrite <- (firstn_skipn n l). apply in_or_app. now left.
Qed.

Lemma award_spec (order : list string) :
  forall (d : dict Z) (remainder : Z),
    NoDup (keys d) -> NoDup order -> incl order (keys d) ->
    award order d remainder = Ok (bump (firstn (Z.to_nat remainder) order) d).
Proof.
  induction order as [| o order IH]; intros d r ND NO Hincl.
  - simpl. now rewrite firstn_nil, bump_nil.
  - simpl. destruct (Z.leb_spec r 0) as [L | G].
    + replace (Z.to_nat r) with 0%nat by lia. now rewrite bump_nil.
    + assert (Ho : In o (keys d)) by (apply Hincl; now left).
      destruct (get d o) as [cur |] eqn:Gd;
        [| apply get_not_in_keys in Gd; contradiction].
      unfold getitem. rewrite Gd. cbn [bind].
      inversion NO as [| ? ? Hnot NO']; subst.
      rewrite IH.
      * replace (Z.to_nat r) with (S (Z.to_nat (r - 1))) by lia.
        cbn [firstn]. f_equal. apply bump_setitem; try assumption.
        intros C. apply Hnot. eapply In_firstn; exact C.
      * now rewrite (keys_setitem_present d o (cur + 1) cur Gd).
      * exact NO'.
      * rewrite (keys_setitem_present d o (cur + 1) cur Gd).
        intros x Hx. apply Hincl. now right.
Qed.

(** ** The steps, one by one *)

Lemma aligned_keys {V W : Type} (R : V -> W -> Prop) (l : dict V) (l' : dict W) :
  aligned R l l' -> keys l' = keys l.
Proof.
  induction 1 as [| a b l l' [E _] _ IH]; [reflexivity |].
  unfold keys in *. simpl. now rewrite E, IH.
Qed.

Lemma aligned_get {V W : Type} (R : V -> W -> Prop) (l : dict V) (l' : dict W)
    (k : string) (w : W) :
  aligned R l l' -> get l' k = Some w -> exists v, get l k = Some v /\ R v w.
Proof.
  induction 1 as [| [k1 v1] [k2 w2] l l' [E HR] _ IH]; simpl; [discriminate |].
  cbn [fst snd] in E, HR. subst k2.
  destruct (String.eqb k k1).
  - intros H. inversion H; subst. now exists v1.
  - exact IH.
Qed.

Lemma inverse_odds_aligned (odds : odds_map) (inverse : dict float) :
  inverse_odds odds = Ok inverse ->
  aligned (fun data inv => fdiv (FFin 1) (snd data) = Ok inv) odds inverse.
Proof.
  intros H. apply mapM_Forall2 in H.
  induction H as [| x y l l' Hxy _ IH]; constructor; [| exact IH].
  destruct (fdiv (FFin 1) (snd (snd x))) as [w |]; [| discriminate].
  inversion Hxy; subst. now split.
Qed.

Lemma ideal_stakes_aligned (inverse ideal : dict float) (total_stake : Z) :
  ideal_stakes inverse total_stake = Ok ideal ->
  aligned (fun inv share =>
             exists w t, fdiv inv (sum (values inverse)) = Ok w /\
                         of_int total_stake = Ok t /\ share = fmul w t)
          inverse ideal.
Proof.
  unfold ideal_stakes. generalize (sum (values inverse)) as total.
  intros total H. apply mapM_Forall2 in H.
  induction H as [| x y l l' Hxy _ IH]; constructor; [| exact IH].
  destruct (fdiv (snd x) total) as [w |]; [| discriminate].
  destruct (of_int total_stake) as [t |]; [| discriminate].
  inversion Hxy; subst. split; [reflexivity |]. now exists w, t.
Qed.

Lemma rounded_stakes_aligned (ideal : dict float) (rounded : dict Z) :
  rounded_stakes ideal = Ok rounded ->
  aligned (fun share n => to_int share = Ok n) ideal rounded.
Proof.
  intros H. apply mapM_Forall2 in H.
  induction H as [| x y l l' Hxy _ IH]; constructor; [| exact IH].
  destruct (to_int (snd x)) as [n |]; [| discriminate].
  inversion Hxy; subst. now split.
Qed.

Lemma stake_diffs_zip (ideal : dict float) (rounded : dict Z) :
  forall (si : dict float) (sr : dict Z),
    aligned (fun share n => to_int share = Ok n) si sr ->
    (forall k i, In (k, i) si -> get ideal k = Some i) ->
    (forall k r, In (k, r) sr -> get rounded k = Some r) ->
    mapM (fun outcome : string =>
            i <- getitem ideal outcome ;;
            r <- getitem rounded outcome ;;
            r' <- of_int r ;;
            Ok (outcome, fsub i r'))
         (keys sr) = mapM diff_of si.
Proof.
  intros si sr H. induction H as [| [k i] [k' r] si sr [E HR] _ IH];
    intros Hi Hr; [reflexivity |].
  cbn [fst snd] in E, HR. subst k'.
  change (keys ((k, r) :: sr)) with (k :: keys sr). cbn [mapM].
  unfold getitem at 1 2. rewrite (Hi k i (or_introl eq_refl)).
  rewrite (Hr k r (or_introl eq_refl)). cbn [bind].
  unfold diff_of at 1. cbn [fst snd]. rewrite HR. cbn [bind].
  rewrite IH; [reflexivity | |]; intros; [apply Hi | apply Hr]; now right.
Qed.

Lemma stake_diffs_eq (ideal : dict float) (rounded : dict Z) :
  NoDup (keys ideal) ->
  aligned (fun share n => to_int share = Ok n) ideal rounded ->
  stake_diffs ideal rounded = mapM diff_of ideal.
Proof.
  intros ND Hal. unfold stake_diffs.
  assert (NDr : NoDup (keys rounded)) by (now rewrite (aligned_keys _ _ _ Hal)).
  apply stake_diffs_zip; [exact Hal | |]; intros; now apply get_in.
Qed.

Lemma diffs_aligned (ideal diffs : dict float) :
  mapM diff_of ideal = Ok diffs ->
  aligned (fun share d =>
             exists n r', to_int share = Ok n /\ of_int n = Ok r' /\
                          d = fsub share r')
          ideal diffs.
Proof.
  intros H. apply mapM_Forall2 in H.
  induction H as [| x y l l' Hxy _ IH]; constructor; [| exact IH].
  unfold diff_of in Hxy.
  destruct (to_int (snd x)) as [n |] eqn:E1; [| discriminate]. cbn [bind] in Hxy.
  destruct (of_int n) as [r' |] eqn:E2; [| discriminate]. cbn [bind] in Hxy.
  inversion Hxy; subst. split; [reflexivity |]. cbn [snd].
  exists n, r'. repeat split; assumption.
Qed.

(** Step 4 adds one unit to the first outcomes of the sorted order, as
    many as the remainder says, and leaves an exact total alone. *)
Lemma adjust_spec (ideal : dict float) (rounded stakes : dict Z) (total_stake : Z) :
  NoDup (keys ideal) ->
  aligned (fun share n => to_int share = Ok n) ideal rounded ->
  adjust ideal rounded total_stake = Ok stakes ->
  let remainder := remainder_of total_stake rounded in
  (remainder <= 0 /\ stakes = rounded) \/
  (0 < remainder /\
   exists diffs,
     mapM diff_of ideal = Ok diffs /\
     stakes = bump (firstn (Z.to_nat remainder) (map fst (sort_desc diffs)))
                   rounded).
Proof.
  intros ND Hal H rem. unfold adjust in H. fold rem in H.
  assert (Kr : keys rounded = keys ideal) by apply (aligned_keys _ _ _ Hal).
  destruct (Z.ltb_spec 0 rem) as [Hpos | Hle].
  - right. split; [exact Hpos |].
    rewrite (stake_diffs_eq ideal rounded ND Hal) in H.
    destruct (mapM diff_of ideal) as [diffs |] eqn:Hd; [| discriminate].
    cbn [bind] in H. exists diffs. split; [reflexivity |].
    assert (Kd : keys diffs = keys ideal)
      by apply (aligned_keys _ _ _ (diffs_aligned _ _ Hd)).
    rewrite sorted_outcomes_eq in H by (now rewrite Kd).
    cbn [bind] in H. rewrite award_spec in H.
    + now inversion H.
    + now rewrite Kr.
    + apply (Permutation_NoDup (sort_desc_keys_perm diffs)). now rewrite Kd.
    + intros k Hk. rewrite Kr, <- Kd.
      apply (Permutation_in _ (Permutation_sym (sort_desc_keys_perm diffs))), Hk.
  - left. split; [lia | now inversion H].
Qed.

(** Step 5 copies the stakes. *)
Lemma profits_stakes_sub (full : dict Z) (total_stake : Z) (odds : odds_map) :
  forall (res : allocation) (sub : dict Z),
    keys sub = keys odds ->
    (forall k v, In (k, v) sub -> get full k = Some v) ->
    profits odds full total_stake = Ok res ->
    stakes_of res = sub.
Proof.
  unfold profits.
  induction odds as [| [n [t p]] odds IH]; intros res sub K G H.
  - destruct sub; [| discriminate]. simpl in H. now inversion H.
  - destruct sub as [| [k v] sub]; [discriminate |].
    inversion K; subst. cbn [mapM] in H.
    unfold getitem in H at 1. rewrite (G n v (or_introl eq_refl)) in H.
    cbn [bind] in H.
    destruct (of_int v) as [sv |]; [| discriminate]. cbn [bind] in H.
    destruct (of_int total_stake) as [tv |]; [| discriminate]. cbn [bind] in H.
    destruct (round2 (fsub (fmul sv p) tv)) as [pr |]; [| discriminate].
    cbn [bind] in H.
    match type of H with
    | (ys <- ?M ;; _) = _ => destruct M as [tl |] eqn:Htl; [| discriminate]
    end.
    cbn [bind] in H. inversion H; subst.
    cbn [stakes_of map stake_of fst snd]. f_equal.
    apply IH; [assumption | | exact Htl]. intros; apply G; now right.
Qed.

Lemma profits_stakes (odds : odds_map) (stakes : dict Z) (total_stake : Z)
    (res : allocation) :
  NoDup (keys stakes) -> keys stakes = keys odds ->
  profits odds stakes total_stake = Ok res ->
  stakes_of res = stakes.
Proof.
  intros ND K H. apply (profits_stakes_sub stakes total_stake odds); try assumption.
  intros; now apply get_in.
Qed.

(** ** The whole function, taken apart *)

Lemma final_stakes_inv (odds : odds_map) (total_stake : Z)
    (ideal : dict float) (rounded stakes : dict Z) :
  final_stakes odds total_stake = Ok (ideal, rounded, stakes) ->
  exists inverse,
    inverse_odds odds = Ok inverse /\
    ideal_stakes inverse total_stake = Ok ideal /\
    rounded_stakes ideal = Ok rounded /\
    adjust ideal rounded total_stake = Ok stakes /\
    keys ideal = keys odds /\ keys rounded = keys odds.
Proof.
  unfold final_stakes. intros H.
  destruct (inverse_odds odds) as [inverse |] eqn:H1; [| discriminate].
  cbn [bind] in H.
  destruct (ideal_stakes inverse total_stake) as [ideal' |] eqn:H2; [| discriminate].
  cbn [bind] in H.
  destruct (rounded_stakes ideal') as [rounded' |] eqn:H3; [| discriminate].
  cbn [bind] in H.
  destruct (adjust ideal' rounded' total_stake) as [stakes' |] eqn:H4; [| discriminate].
  cbn [bind] in H. inversion H; subst.
  exists inverse. repeat split; try assumption.
  - rewrite (aligned_keys _ _ _ (ideal_stakes_aligned _ _ _ H2)).
    apply (aligned_keys _ _ _ (inverse_odds_aligned _ _ H1)).
  - rewrite (aligned_keys _ _ _ (rounded_stakes_aligned _ _ H3)).
    rewrite (aligned_keys _ _ _ (ideal_stakes_aligned _ _ _ H2)).
    apply (aligned_keys _ _ _ (inverse_odds_aligned _ _ H1)).
Qed.

Lemma adjust_keys (ideal : dict float) (rounded stakes : dict Z) (total_stake : Z) :
  NoDup (keys ideal) ->
  aligned (fun share n => to_int share = Ok n) ideal rounded ->
  adjust ideal rounded total_stake = Ok stakes ->
  keys stakes = keys rounded.
Proof.
  intros ND Hal H.
  destruct (adjust_spec ideal rounded stakes total_stake ND Hal H)
    as [[_ ->] | [_ (diffs & _ & ->)]]; [reflexivity | apply keys_bump].
Qed.

Lemma calculate_stakes_inv (odds : odds_map) (total_stake : Z) (res : allocation) :
  NoDup (keys odds) ->
  calculate_stakes odds total_stake = Ok res ->
  exists ideal rounded stakes,
    final_stakes odds total_stake = Ok (ideal, rounded, stakes) /\
    stakes_of res = stakes /\ keys stakes = keys odds.
Proof.
  intros ND H. unfold calculate_stakes in H.
  destruct (final_stakes odds total_stake) as [[[ideal rounded] stakes] |] eqn:F;
    [| discriminate].
  cbn [bind snd] in H. exists ideal, rounded, stakes.
  destruct (final_stakes_inv _ _ _ _ _ F) as (inverse & H1 & H2 & H3 & H4 & K1 & K2).
  assert (K : keys stakes = keys odds).
  { rewrite <- K2. apply (adjust_keys ideal rounded stakes total_stake);
      [now rewrite K1 | now apply rounded_stakes_aligned | exact H4]. }
  repeat split; [| exact K].
  apply (profits_stakes odds stakes total_stake res); [now rewrite K | exact K | exact H].
Qed.

Lemma aligned_in {V W : Type} (R : V -> W -> Prop) (l : dict V) (l' : dict W)
    (k : string) (w : W) :
  aligned R l l' -> In (k, w) l' -> exists v, In (k, v) l /\ R v w.
Proof.
  induction 1 as [| [k1 v1] [k2 w2] l l' [E HR] _ IH]; [contradiction |].
  cbn [fst snd] in E, HR. subst k2. intros [H | H].
  - inversion H; subst. exists v1. split; [now left | exact HR].
  - destruct (IH H) as (v & Hin & Hv). exists v. split; [now right | exact Hv].
Qed.

(** With positive prices and a positive total, no ideal share is negative. *)
Lemma ideal_nonneg (odds : odds_map) (total_stake : Z) (inverse ideal : dict float) :
  positive_prices odds -> 0 < total_stake ->
  inverse_odds odds = Ok inverse ->
  ideal_stakes inverse total_stake = Ok ideal ->
  forall k share, In (k, share) ideal -> fnonneg share.
Proof.
  intros Hpos HT H1 H2.
  pose proof (inverse_odds_aligned _ _ H1) as A1.
  pose proof (ideal_stakes_aligned _ _ _ H2) as A2.
  assert (Hinv : forall k w, In (k, w) inverse -> fnonneg w).
  { intros k w Hin. destruct (aligned_in _ _ _ _ _ A1 Hin) as ([t p] & Ho & Hw).
    cbn [snd] in Hw. eapply fdiv_nonneg; [| | exact Hw].
    - cbn. lra.
    - apply flt_zero_nonneg. now apply (Hpos k t). }
  assert (Hsum : fnonneg (sum (values inverse))).
  { apply sum_nonneg. apply Forall_forall. intros w Hw.
    unfold values in Hw. apply in_map_iff in Hw. destruct Hw as ([k w'] & <- & Hin).
    now apply (Hinv k). }
  intros k share Hin.
  destruct (aligned_in _ _ _ _ _ A2 Hin) as (w & Hw & w' & t & Hd & Ht & ->).
  apply fmul_nonneg.
  - eapply fdiv_nonneg; [| | exact Hd]; [now apply (Hinv k) | exact Hsum].
  - eapply of_int_nonneg; [| exact Ht]. lia.
Qed.

(** C10. With positive prices and a positive total stake, whenever
    [calculate_stakes] returns, every outcome of the mapping has a stake,
    and every stake is the floor of the outcome's ideal share or that floor
    plus one: the ideal share is a finite non-negative float and no stake
    is below its floor or more than one unit above it. *)
Theorem stake_floor_or_next (odds : odds_map) (total_stake : Z) (res : allocation) :
  NoDup (keys odds) ->
  positive_prices odds ->
  0 < total_stake ->
  calculate_stakes odds total_stake = Ok res ->
  exists ideal rounded stakes,
    final_stakes odds total_stake = Ok (ideal, rounded, stakes) /\
    stakes_of res = stakes /\
    keys stakes = keys odds /\
    forall n s,
      get stakes n = Some s ->
      exists q, get ideal n = Some (FFin q) /\ (0 <= q)%Q /\
                (s = Qfloor q \/ s = Qfloor q + 1).
Proof.
  intros ND Hpos HT H.
  destruct (calculate_stakes_inv odds total_stake res ND H)
    as (ideal & rounded & stakes & F & S & K).
  exists ideal, rounded, stakes. repeat split; try assumption.
  destruct (final_stakes_inv _ _ _ _ _ F) as (inverse & H1 & H2 & H3 & H4 & K1 & K2).
  pose proof (rounded_stakes_aligned _ _ H3) as A3.
  assert (NDi : NoDup (keys ideal)) by (now rewrite K1).
  assert (Hfloor : forall n r, get rounded n = Some r ->
            exists q, get ideal n = Some (FFin q) /\ (0 <= q)%Q /\ r = Qfloor q).
  { intros n r G. destruct (aligned_get _ _ _ _ _ A3 G) as (share & Gi & Hto).
    pose proof (ideal_nonneg odds total_stake inverse ideal Hpos HT H1 H2
                  n share (in_get _ _ _ Gi)) as Hn.
    destruct share as [q | |]; try discriminate.
    cbn in Hn. cbn in Hto. inversion Hto; subst r.
    exists q. repeat split; try assumption. now apply trunc_floor. }
  intros n s G.
  destruct (adjust_spec ideal rounded stakes total_stake NDi A3 H4)
    as [[_ ->] | [_ (diffs & _ & ->)]].
  - destruct (Hfloor n s G) as (q & Gq & Q0 & ->). exists q. auto.
  - rewrite get_bump in G. destruct (get rounded n) as [r |] eqn:Gr; [| discriminate].
    cbn in G. destruct (Hfloor n r Gr) as (q & Gq & Q0 & ->).
    exists q. repeat split; try assumption.
    destruct (mem n _); inversion G; auto.
Qed.

End Allocator.

(** * The stake allocator: rounding errors *)

Section Rounding.

Local Open Scope Q_scope.

Lemma u_bounds : 0 < u /\ u <= 1 # 2.
Proof.
  unfold u. split; [apply pow2_pos |].
  change (1 # 2) with (pow2 (-1)). apply pow2_le. lia.
Qed.

Lemma u_scale : u * inject_Z (2 ^ 53) == 1.
Proof. reflexivity. Qed.

Lemma rpow_pos (k : nat) : 0 < rpow k.
Proof.
  pose proof u_bounds as [U0 U1].
  induction k as [| k IH]; cbn [rpow]; [lra |].
  apply Qmult_lt_0_compat; lra.
Qed.

Lemma rpow_le_1 (k : nat) : rpow k <= 1.
Proof.
  pose proof u_bounds as [U0 U1].
  induction k as [| k IH]; cbn [rpow]; [lra |].
  pose proof (rpow_pos k). nra.
Qed.

Lemma rpow_add (j k : nat) : rpow (j + k) == rpow j * rpow k.
Proof.
  induction j as [| j IH]; cbn [rpow Nat.add]; [lra |].
  rewrite IH. ring.
Qed.

Lemma rpow_mono (j k : nat) : (j <= k)%nat -> rpow k <= rpow j.
Proof.
  intros H. replace k with (j + (k - j))%nat by lia.
  rewrite rpow_add. pose proof (rpow_pos j). pose proof (rpow_le_1 (k - j)).
  pose proof (rpow_pos (k - j)%nat). nra.
Qed.

(** Bernoulli's inequality *)
Lemma rpow_bernoulli (k : nat) : 1 - inject_Z (Z.of_nat k) * u <= rpow k.
Proof.
  pose proof u_bounds as [U0 U1].
  induction k as [| k IH]; cbn [rpow].
  - change (inject_Z (Z.of_nat 0)) with 0. lra.
  - rewrite Nat2Z.inj_succ. unfold Z.succ. rewrite inject_Z_plus.
    change (inject_Z 1) with 1.
    pose proof (rpow_pos k). pose proof (rpow_le_1 k).
    assert (0 <= inject_Z (Z.of_nat k)).
    { change 0 with (inject_Z 0). rewrite <- Zle_Qle. lia. }
    nra.
Qed.

Lemma close_refl (x : Q) : close 0 x x.
Proof. unfold close. cbn [rpow]. split; lra. Qed.

Lemma close_trans (j k : nat) (x y z : Q) :
  close j x y -> close k y z -> close (j + k) x z.
Proof.
  intros [H1 H2] [H3 H4]. unfold close. rewrite rpow_add.
  pose proof (rpow_pos j). pose proof (rpow_pos k). split; nra.
Qed.

Lemma close_add (k : nat) (a b c d : Q) :
  close k a b -> close k c d -> close k (a + c) (b + d).
Proof. intros [H1 H2] [H3 H4]. split; nra. Qed.

Lemma close_add_exact (k : nat) (a b w : Q) :
  0 <= w -> close k a b -> close k (a + w) (b + w).
Proof.
  intros Hw [H1 H2]. pose proof (rpow_le_1 k). pose proof (rpow_pos k).
  split; nra.
Qed.

Lemma close_mul (j k : nat) (a b c d : Q) :
  0 <= a -> 0 <= b -> 0 <= c -> 0 <= d ->
  close j a b -> close k c d -> close (j + k) (a * c) (b * d).
Proof.
  intros Ha Hb Hc Hd [H1 H2] [H3 H4]. unfold close. rewrite rpow_add.
  pose proof (rpow_pos j). pose proof (rpow_pos k). split.
  - setoid_replace (a * c * (rpow j * rpow k)) with ((a * rpow j) * (c * rpow k)) by ring.
    apply Qmult_le_compat_nonneg; split; try assumption; nra.
  - setoid_replace (b * d * (rpow j * rpow k)) with ((b * rpow j) * (d * rpow k)) by ring.
    apply Qmult_le_compat_nonneg; split; try assumption; nra.
Qed.

Lemma close_div (j k : nat) (a b c d : Q) :
  0 <= a -> 0 <= b -> 0 < c -> 0 < d ->
  close j a b -> close k c d -> close (j + k) (a / c) (b / d).
Proof.
  intros Ha Hb Hc Hd [H1 H2] [H3 H4]. unfold close. rewrite rpow_add.
  pose proof (rpow_pos j). pose proof (rpow_pos k). split.
  - apply Qle_shift_div_l; [exact Hd |].
    setoid_replace (a / c * (rpow j * rpow k) * d)
      with ((a * rpow j) * (d * rpow k) / c) by (field; lra).
    apply Qle_shift_div_r; [exact Hc |].
    apply Qmult_le_compat_nonneg; split; try assumption; nra.
  - apply Qle_shift_div_l; [exact Hc |].
    setoid_replace (b / d * (rpow j * rpow k) * c)
      with ((b * rpow j) * (c * rpow k) / d) by (field; lra).
    apply Qle_shift_div_r; [exact Hd |].
    apply Qmult_le_compat_nonneg; split; try assumption; nra.
Qed.

(** one rounding in the normal range *)
Lemma close_round (x y : Q) :
  0 <= x -> x * (1 - u) <= y -> y <= x * (1 + u) -> close 1 x y.
Proof.
  intros Hx H1 H2. pose proof u_bounds as [U0 U1].
  unfold close. cbn [rpow]. split; nra.
Qed.

(** ** One operation at a time *)

Lemma round64_within (x : Q) (A B : Z) :
  pow2 A <= x -> x <= pow2 B -> (-1022 <= A)%Z -> (B <= 1023)%Z ->
  exists y, round64 x = FFin y /\ pow2 A <= y /\ y <= pow2 B /\ close 1 x y.
Proof.
  intros HA HB LA LB.
  destruct (round64_bounds x A B HA HB ltac:(lia) LB) as (y & E & Y1 & Y2 & Y3).
  exists y. split; [exact E |]. split; [exact Y1 |]. split; [exact Y2 |].
  destruct (Y3 LA) as [R1 R2]. pose proof (pow2_pos A).
  apply close_round; [lra | exact R1 | exact R2].
Qed.

Lemma is_zero_pos (q : Q) : 0 < q -> is_zero (FFin q) = false.
Proof.
  intros H. cbn [is_zero]. destruct (Qeq_bool q 0) eqn:E; [| reflexivity].
  apply Qeq_bool_iff in E. lra.
Qed.

Lemma fdiv_within (a b : Q) (A1 B1 A2 B2 : Z) :
  pow2 A1 <= a -> a <= pow2 B1 -> pow2 A2 <= b -> b <= pow2 B2 ->
  (-1022 <= A1 - B2)%Z -> (B1 - A2 <= 1023)%Z ->
  exists y, fdiv (FFin a) (FFin b) = Ok (FFin y) /\
            pow2 (A1 - B2) <= y /\ y <= pow2 (B1 - A2) /\ close 1 (a / b) y.
Proof.
  intros Ha1 Ha2 Hb1 Hb2 L1 L2.
  pose proof (pow2_pos A1). pose proof (pow2_pos A2).
  pose proof (pow2_pos B1). pose proof (pow2_pos B2).
  assert (Hb : 0 < b) by lra.
  assert (Q1 : pow2 (A1 - B2) <= a / b).
  { rewrite pow2_sub. apply Qle_shift_div_l; [exact Hb |].
    setoid_replace (pow2 A1 / pow2 B2 * b) with (pow2 A1 * (b / pow2 B2))
      by (field; lra).
    assert (b / pow2 B2 <= 1) by (apply Qle_shift_div_r; lra).
    assert (0 <= b / pow2 B2) by (apply Qle_shift_div_l; lra).
    nra. }
  assert (Q2 : a / b <= pow2 (B1 - A2)).
  { rewrite pow2_sub. apply Qle_shift_div_r; [exact Hb |].
    setoid_replace (pow2 B1 / pow2 A2 * b) with (pow2 B1 * (b / pow2 A2))
      by (field; lra).
    assert (1 <= b / pow2 A2) by (apply Qle_shift_div_l; lra).
    nra. }
  destruct (round64_within _ _ _ Q1 Q2 L1 L2) as (y & E & Y1 & Y2 & C).
  exists y. unfold fdiv. rewrite (is_zero_pos b Hb), E. tauto.
Qed.

Lemma fmul_within (a b : Q) (A1 B1 A2 B2 : Z) :
  pow2 A1 <= a -> a <= pow2 B1 -> pow2 A2 <= b -> b <= pow2 B2 ->
  (-1022 <= A1 + A2)%Z -> (B1 + B2 <= 1023)%Z ->
  exists y, fmul (FFin a) (FFin b) = FFin y /\
            pow2 (A1 + A2) <= y /\ y <= pow2 (B1 + B2) /\ close 1 (a * b) y.
Proof.
  intros Ha1 Ha2 Hb1 Hb2 L1 L2.
  pose proof (pow2_pos A1). pose proof (pow2_pos A2).
  assert (Q1 : pow2 (A1 + A2) <= a * b).
  { rewrite pow2_add. apply Qmult_le_compat_nonneg; split; lra. }
  assert (Q2 : a * b <= pow2 (B1 + B2)).
  { rewrite pow2_add. apply Qmult_le_compat_nonneg; split; lra. }
  destruct (round64_within _ _ _ Q1 Q2 L1 L2) as (y & E & Y1 & Y2 & C).
  exists y. cbn [fmul]. rewrite E. tauto.
Qed.

Lemma of_int_within (n : Z) (B : Z) :
  (1 <= n)%Z -> (n <= 2 ^ B)%Z -> (0 <= B <= 1023)%Z ->
  exists y, of_int n = Ok (FFin y) /\ pow2 0 <= y /\ y <= pow2 B /\
            close 1 (inject_Z n) y.
Proof.
  intros H1 H2 HB.
  assert (Q1 : pow2 0 <= inject_Z n).
  { change (pow2 0) with (inject_Z 1). now rewrite <- Zle_Qle. }
  assert (Q2 : inject_Z n <= pow2 B).
  { rewrite pow2_int by lia. now rewrite <- Zle_Qle. }
  destruct (round64_within _ _ _ Q1 Q2 ltac:(lia) ltac:(lia)) as (y & E & Y1 & Y2 & C).
  exists y. unfold of_int. rewrite E. tauto.
Qed.

Global Instance close_proper (k : nat) : Proper (Qeq ==> Qeq ==> iff) (close k).
Proof.
  intros x x' Ex y y' Ey. unfold close. now rewrite Ex, Ey.
Qed.

Lemma rpow_ge (k : nat) (N : Z) :
  (Z.of_nat k <= N)%Z -> 1 - inject_Z N * u <= rpow k.
Proof.
  intros H. pose proof (rpow_bernoulli k) as B. pose proof u_bounds as [U0 _].
  rewrite Zle_Qle in H. nra.
Qed.

Lemma rpow_half (k : nat) : (Z.of_nat k <= 2 ^ 52)%Z -> 1 # 2 <= rpow k.
Proof.
  intros H. pose proof (rpow_ge k (2 ^ 52) H) as B.
  assert (E : inject_Z (2 ^ 52) * u == 1 # 2) by reflexivity.
  lra.
Qed.

(** a value known up to [k] roundings is within a factor two *)
Lemma close_factor2 (k : nat) (x y : Q) :
  (Z.of_nat k <= 2 ^ 52)%Z -> 0 <= x -> close k x y ->
  x * (1 # 2) <= y /\ y <= 2 * x.
Proof.
  intros Hk Hx [H1 H2]. pose proof (rpow_half k Hk). pose proof (rpow_le_1 k).
  assert (0 <= y) by nra. split; nra.
Qed.

(** ** The sum of the weights *)

Lemma sum_close_from (l : list float) :
  Forall (fin_within (- price_exp) price_exp) l ->
  forall (a S0 : Q) (k : nat),
    0 <= S0 ->
    S0 <= inject_Z (Z.of_nat k) * pow2 price_exp ->
    close k S0 a ->
    (Z.of_nat (k + List.length l) <= 2 ^ 52)%Z ->
    exists W, fold_left fadd l (FFin a) = FFin W /\
              close (k + List.length l) (S0 + sumQ (map fval l)) W.
Proof.
  induction 1 as [| x l (w & -> & W1 & W2) _ IH]; intros a S0 k HS0 HSk Hc Hlen.
  - exists a. split; [reflexivity |].
    change (sumQ (map fval [])) with 0. cbn [List.length].
    rewrite Nat.add_0_r. now rewrite Qplus_0_r.
  - change (sumQ (map fval (FFin w :: l))) with (w + sumQ (map fval l)).
    cbn [fold_left fadd List.length].
    cbn [List.length] in Hlen.
    pose proof (pow2_pos (- price_exp)) as P1.
    pose proof (pow2_pos price_exp) as P2.
    destruct (close_factor2 k S0 a ltac:(lia) HS0 Hc) as [A1 A2].
    assert (Kb : inject_Z (Z.of_nat k) <= pow2 52).
    { rewrite pow2_int by lia. rewrite <- Zle_Qle. lia. }
    assert (K0 : 0 <= inject_Z (Z.of_nat k)).
    { change 0 with (inject_Z 0). rewrite <- Zle_Qle. lia. }
    assert (Q1 : pow2 (- price_exp) <= a + w) by lra.
    assert (Q2 : a + w <= pow2 (price_exp + 54)).
    { replace (price_exp + 54)%Z with (52 + price_exp + 1 + 1)%Z by lia.
      rewrite !pow2_succ, pow2_add.
      assert (inject_Z (Z.of_nat k) * pow2 price_exp <= pow2 52 * pow2 price_exp)
        by (apply Qmult_le_compat_r; lra).
      assert (1 <= pow2 52) by (change 1 with (pow2 0); apply pow2_le; lia).
      assert (pow2 price_exp <= pow2 52 * pow2 price_exp) by nra.
      lra. }
    destruct (round64_within _ _ _ Q1 Q2 ltac:(unfold price_exp; lia)
                ltac:(unfold price_exp; lia)) as (y & E & Y1 & Y2 & C).
    rewrite E.
    assert (Hc' : close (S k) (S0 + w) y).
    { replace (S k) with (k + 1)%nat by lia.
      apply close_trans with (a + w); [| exact C].
      apply close_add_exact; [lra | exact Hc]. }
    destruct (IH y (S0 + w) (S k)) as (Wf & EW & CW).
    + lra.
    + rewrite Nat2Z.inj_succ. unfold Z.succ. rewrite inject_Z_plus.
      change (inject_Z 1) with 1. lra.
    + exact Hc'.
    + replace (S k + List.length l)%nat with (k + S (List.length l))%nat by lia.
      exact Hlen.
    + exists Wf. split; [exact EW |].
      replace (k + S (List.length l))%nat with (S k + List.length l)%nat by lia.
      now rewrite Qplus_assoc.
Qed.

Lemma sumQ_bounds (l : list float) :
  Forall (fin_within (- price_exp) price_exp) l ->
  0 <= sumQ (map fval l) /\
  sumQ (map fval l) <= inject_Z (Z.of_nat (List.length l)) * pow2 price_exp /\
  (l <> [] -> pow2 (- price_exp) <= sumQ (map fval l)).
Proof.
  pose proof (pow2_pos (- price_exp)) as P1.
  induction 1 as [| x l (w & -> & W1 & W2) _ (I1 & I2 & I3)].
  - cbn [map sumQ fold_right List.length].
    change (inject_Z (Z.of_nat 0)) with 0.
    split; [lra |]. split; [lra |]. intros C. now elim C.
  - change (sumQ (map fval (FFin w :: l))) with (w + sumQ (map fval l)).
    cbn [List.length].
    rewrite Nat2Z.inj_succ. unfold Z.succ. rewrite inject_Z_plus.
    change (inject_Z 1) with 1.
    split; [lra |]. split; [lra |]. intros _. lra.
Qed.

(** The float sum of [n] weights is their exact sum up to [n] roundings. *)
Lemma sum_close (l : list float) :
  Forall (fin_within (- price_exp) price_exp) l ->
  l <> [] ->
  (Z.of_nat (List.length l) <= 2 ^ 52)%Z ->
  exists W, sum l = FFin W /\
            close (List.length l) (sumQ (map fval l)) W /\
            pow2 (- price_exp - 1) <= W /\ W <= pow2 (price_exp + 53).
Proof.
  intros Hl Hne Hlen. unfold sum.
  destruct (sum_close_from l Hl 0 0 0%nat) as (W & E & C).
  - lra.
  - change (inject_Z (Z.of_nat 0)) with 0. lra.
  - apply close_refl.
  - exact Hlen.
  - cbn [Nat.add] in C. rewrite Qplus_0_l in C.
    exists W. split; [exact E |]. split; [exact C |].
    destruct (sumQ_bounds l Hl) as (S0 & S1 & S2). specialize (S2 Hne).
    destruct (close_factor2 _ _ _ Hlen S0 C) as [F1 F2].
    assert (Kb : inject_Z (Z.of_nat (List.length l)) <= pow2 52).
    { rewrite pow2_int by lia. now rewrite <- Zle_Qle. }
    pose proof (pow2_pos price_exp) as P2.
    split.
    + replace (- price_exp - 1)%Z with (- price_exp + -1)%Z by lia.
      rewrite pow2_add. change (pow2 (-1)) with (1 # 2). lra.
    + replace (price_exp + 53)%Z with (52 + price_exp + 1)%Z by lia.
      rewrite pow2_succ, pow2_add.
      assert (inject_Z (Z.of_nat (List.length l)) * pow2 price_exp
              <= pow2 52 * pow2 price_exp)
        by (apply Qmult_le_compat_r; lra).
      lra.
Qed.

(** ** The ideal shares *)

Lemma ideal_share_close (w W S : Q) (n : nat) (total_stake : Z) :
  pow2 (- price_exp) <= w -> w <= pow2 price_exp ->
  pow2 (- price_exp - 1) <= W -> W <= pow2 (price_exp + 53) ->
  0 < S -> close n S W ->
  (1 <= total_stake <= 2 ^ 52)%Z ->
  exists r t s,
    fdiv (FFin w) (FFin W) = Ok (FFin r) /\
    of_int total_stake = Ok (FFin t) /\
    fmul (FFin r) (FFin t) = FFin s /\
    pow2 (- 2 * price_exp - 54) <= s /\ s <= pow2 (2 * price_exp + 54) /\
    close (n + 3) (w * (inject_Z total_stake / S)) s.
Proof.
  intros W1 W2 V1 V2 HS HC HT.
  pose proof (pow2_pos (- price_exp)) as P1.
  pose proof (pow2_pos (- price_exp - 1)) as P2.
  destruct (fdiv_within w W _ _ _ _ W1 W2 V1 V2
              ltac:(unfold price_exp; lia) ltac:(unfold price_exp; lia))
    as (r & Er & R1 & R2 & Cr).
  destruct (of_int_within total_stake 52 ltac:(lia) ltac:(lia) ltac:(lia))
    as (t & Et & T1 & T2 & Ct).
  destruct (fmul_within r t _ _ _ _ R1 R2 T1 T2
              ltac:(unfold price_exp; lia) ltac:(unfold price_exp; lia))
    as (s & Es & S1 & S2 & Cs).
  exists r, t, s. split; [exact Er |]. split; [exact Et |]. split; [exact Es |].
  split.
  { eapply Qle_trans; [| exact S1]. apply pow2_le. unfold price_exp. lia. }
  split.
  { eapply Qle_trans; [exact S2 |]. apply pow2_le. unfold price_exp. lia. }
  pose proof (pow2_pos (- price_exp - (price_exp + 53))) as P3.
  pose proof (pow2_pos 0) as P4.
  assert (HW : 0 < W) by lra.
  assert (Hw : 0 < w) by lra.
  assert (HTq : 0 < inject_Z total_stake).
  { change 0 with (inject_Z 0). rewrite <- Zlt_Qlt. lia. }
  assert (Hq : 0 <= w / W) by (apply Qle_shift_div_l; lra).
  (* the three roundings of the share *)
  assert (C3 : close 3 (w / W * inject_Z total_stake) s).
  { change 3%nat with (1 + 1 + 1)%nat.
    apply close_trans with (r * t); [| exact Cs].
    apply close_mul; try lra; assumption. }
  (* the [n] roundings of the sum *)
  assert (Cn : close n (w / S * inject_Z total_stake) (w / W * inject_Z total_stake)).
  { replace n with (0 + n + 0)%nat by lia.
    apply close_mul.
    - apply Qle_shift_div_l; lra.
    - exact Hq.
    - lra.
    - lra.
    - apply close_div; try lra; [apply close_refl | exact HC].
    - apply close_refl. }
  setoid_replace (w * (inject_Z total_stake / S))
    with (w / S * inject_Z total_stake) by (field; lra).
  now apply close_trans with (w / W * inject_Z total_stake).
Qed.

Lemma sumQ_scaled (N : nat) (c : Q) (l l' : list float) :
  Forall2 (fun a b => close N (fval a * c) (fval b)) l l' ->
  close N (sumQ (map fval l) * c) (sumQ (map fval l')).
Proof.
  induction 1 as [| a b l l' Hab _ IH].
  - change (sumQ (map fval [])) with 0. unfold close. split; lra.
  - change (sumQ (map fval (a :: l))) with (fval a + sumQ (map fval l)).
    change (sumQ (map fval (b :: l'))) with (fval b + sumQ (map fval l')).
    setoid_replace ((fval a + sumQ (map fval l)) * c)
      with (fval a * c + sumQ (map fval l) * c) by ring.
    now apply close_add.
Qed.

(** ** The remainder *)

Lemma remainder_bounds (T R : Z) (n : nat) (shares : Q) :
  (1 <= T)%Z ->
  ((T + 1) * (Z.of_nat n + 3) < 2 ^ 53)%Z ->
  close (n + 3) (inject_Z T) shares ->
  inject_Z R <= shares ->
  shares <= inject_Z R + inject_Z (Z.of_nat n) ->
  (0 <= T - R <= Z.of_nat n)%Z.
Proof.
  intros HT Hsmall [C1 C2] F1 F2.
  pose proof (rpow_ge (n + 3) (Z.of_nat n + 3) ltac:(lia)) as B.
  pose proof (rpow_le_1 (n + 3)) as B1. pose proof (rpow_pos (n + 3)) as B0.
  pose proof u_bounds as [U0 _].
  set (rho := rpow (n + 3)) in *.
  assert (Hs : (inject_Z T + 1) * (inject_Z (Z.of_nat n) + 3) * u < 1).
  { rewrite Zlt_Qlt in Hsmall.
    rewrite inject_Z_mult, !inject_Z_plus in Hsmall.
    change (inject_Z 1) with 1 in Hsmall. change (inject_Z 3) with 3 in Hsmall.
    pose proof u_scale as E.
    remember (inject_Z (2 ^ 53)) as big eqn:Ebig. clear Ebig.
    assert (H0 : ((inject_Z T + 1) * (inject_Z (Z.of_nat n) + 3)) * u < big * u)
      by (apply Qmult_lt_compat_r; assumption).
    lra. }
  rewrite inject_Z_plus in B. change (inject_Z 3) with 3 in B.
  assert (T1 : 1 <= inject_Z T).
  { change 1 with (inject_Z 1). now rewrite <- Zle_Qle. }
  assert (N0 : 0 <= inject_Z (Z.of_nat n)).
  { change 0 with (inject_Z 0). rewrite <- Zle_Qle. lia. }
  set (Tq := inject_Z T) in *. set (Nq := inject_Z (Z.of_nat n)) in *.
  assert (Hlow : Tq - 1 < Tq * rho).
  { assert (Tq * (Nq + 3) * u < 1) by nra. nra. }
  split.
  - destruct (Z_le_gt_dec R T) as [L | G]; [lia |].
    exfalso. assert (G' : (T + 1 <= R)%Z) by lia.
    rewrite Zle_Qle, inject_Z_plus in G'. change (inject_Z 1) with 1 in G'.
    fold Tq in G'.
    assert ((Tq + 1) * rho <= Tq) by nra.
    nra.
  - destruct (Z_le_gt_dec (T - R) (Z.of_nat n)) as [L | G]; [exact L |].
    exfalso. assert (G' : (R + Z.of_nat n + 1 <= T)%Z) by lia.
    rewrite Zle_Qle, !inject_Z_plus in G'. change (inject_Z 1) with 1 in G'.
    fold Tq Nq in G'. lra.
Qed.

(** the floors of non-negative shares, summed *)
Lemma floors_sum (ideal : dict float) (rounded : dict Z) :
  aligned (fun share n => to_int share = Ok n) ideal rounded ->
  (forall k share, In (k, share) ideal -> exists s, share = FFin s /\ 0 <= s) ->
  inject_Z (sumZ (values rounded)) <= sumQ (map fval (values ideal)) /\
  sumQ (map fval (values ideal)) <=
    inject_Z (sumZ (values rounded)) + inject_Z (Z.of_nat (List.length ideal)).
Proof.
  induction 1 as [| [k share] [k' r] ideal rounded [_ Hr] _ IH]; intros Hpos.
  - change (sumQ (map fval (values []))) with 0.
    change (inject_Z (sumZ (values []))) with 0.
    change (inject_Z (Z.of_nat (List.length (@nil (string * float))))) with 0.
    split; lra.
  - destruct (Hpos k share (or_introl eq_refl)) as (s & -> & Hs).
    cbn [snd to_int] in Hr. inversion Hr; subst r.
    rewrite (trunc_floor s Hs).
    destruct IH as [I1 I2]; [intros; eapply Hpos; right; eassumption |].
    change (sumQ (map fval (values ((k, FFin s) :: ideal))))
      with (s + sumQ (map fval (values ideal))).
    change (sumZ (values ((k', Qfloor s) :: rounded)))
      with (Qfloor s + sumZ (values rounded))%Z.
    cbn [List.length]. rewrite Nat2Z.inj_succ. unfold Z.succ.
    rewrite !inject_Z_plus. change (inject_Z 1) with 1.
    pose proof (Qfloor_le s) as F1. pose proof (Qlt_floor s) as F2.
    rewrite inject_Z_plus in F2. change (inject_Z 1) with 1 in F2.
    split; lra.
Qed.

Lemma Forall2_map2 {A B C D : Type} (P : A -> B -> Prop) (Q' : C -> D -> Prop)
    (f : A -> C) (g : B -> D) (l : list A) (l' : list B) :
  (forall a b, P a b -> Q' (f a) (g b)) ->
  Forall2 P l l' -> Forall2 Q' (map f l) (map g l').
Proof. intros H. induction 1; simpl; constructor; auto. Qed.

Lemma Forall2_Forall_r {A B : Type} (P : A -> B -> Prop) (Q' : B -> Prop)
    (l : list A) (l' : list B) :
  (forall a b, P a b -> Q' b) -> Forall2 P l l' -> Forall Q' l'.
Proof. intros H. induction 1; constructor; eauto. Qed.

Local Open Scope Z_scope.

(** ** Steps 1 to 3 go through, and the remainder is between 0 and [n] *)
Lemma shares_exist (odds : odds_map) (total_stake : Z) :
  odds <> [] ->
  bounded_prices odds ->
  1 <= total_stake ->
  (total_stake + 1) * (Z.of_nat (List.length odds) + 3) < 2 ^ 53 ->
  exists inverse ideal rounded,
    inverse_odds odds = Ok inverse /\
    ideal_stakes inverse total_stake = Ok ideal /\
    rounded_stakes ideal = Ok rounded /\
    (forall k share, In (k, share) ideal ->
       fin_within (- 2 * price_exp - 54) (2 * price_exp + 54) share) /\
    0 <= remainder_of total_stake rounded <= Z.of_nat (List.length odds).
Proof.
  intros Hne Hb HT Hsmall.
  set (n := List.length odds) in *.
  assert (Hn : Z.of_nat n <= 2 ^ 52) by nia.
  assert (HT52 : total_stake <= 2 ^ 52) by nia.
  (* step 1 *)
  destruct (mapM_total_rel
              (fun item : string * (string * float) =>
                 inv <- fdiv (FFin 1) (snd (snd item)) ;; Ok (fst item, inv))
              (fun item res => fst res = fst item /\
                               fin_within (- price_exp) price_exp (snd res))
              odds) as (inverse & E1 & F1).
  { intros [k [t p]] Hin. destruct (Hb k t p Hin) as (q & -> & Q1 & Q2).
    cbn [fst snd].
    destruct (fdiv_within 1 q 0 0 _ _ (Qle_refl _) (Qle_refl _) Q1 Q2
                ltac:(unfold price_exp; lia) ltac:(unfold price_exp; lia))
      as (y & Ey & Y1 & Y2 & _).
    rewrite Ey. cbn [bind]. eexists. split; [reflexivity |].
    split; [reflexivity |]. exists y. cbn [snd].
    replace (0 - price_exp) with (- price_exp) in Y1 by lia.
    replace (0 - - price_exp) with price_exp in Y2 by lia. auto. }
  fold (inverse_odds odds) in E1.
  assert (Lw : List.length inverse = n) by (symmetry; apply (Forall2_length F1)).
  assert (Hw : Forall (fin_within (- price_exp) price_exp) (values inverse)).
  { unfold values. apply Forall_map.
    eapply Forall2_Forall_r; [| exact F1]. now intros a b [_ H]. }
  assert (Hwne : values inverse <> []).
  { destruct inverse; [destruct odds; [congruence | discriminate Lw] | discriminate]. }
  destruct (sum_close (values inverse) Hw Hwne) as (W & EW & CW & W1 & W2).
  { unfold values. rewrite length_map, Lw. exact Hn. }
  unfold values in CW at 1. rewrite length_map, Lw in CW.
  set (S := sumQ (map fval (values inverse))) in *.
  destruct (sumQ_bounds _ Hw) as (_ & _ & S2). specialize (S2 Hwne). fold S in S2.
  assert (HS : (0 < S)%Q) by (pose proof (pow2_pos (- price_exp)); lra).
  (* step 2 *)
  set (c := (inject_Z total_stake / S)%Q).
  destruct (mapM_total_rel
              (fun item : string * float =>
                 w <- fdiv (snd item) (FFin W) ;;
                 t <- of_int total_stake ;;
                 Ok (fst item, fmul w t))
              (fun item res =>
                 fst res = fst item /\
                 exists w s, snd item = FFin w /\ snd res = FFin s /\
                             (pow2 (- 2 * price_exp - 54) <= s)%Q /\
                             (s <= pow2 (2 * price_exp + 54))%Q /\
                             close (n + 3) (w * c) s)
              inverse) as (ideal & E2 & F2).
  { intros [k x] Hin. cbn [fst snd].
    assert (Hx : fin_within (- price_exp) price_exp x).
    { rewrite Forall_forall in Hw. apply Hw. unfold values.
      change x with (snd (k, x)). now apply in_map. }
    destruct Hx as (w & -> & X1 & X2).
    destruct (ideal_share_close w W S n total_stake X1 X2 W1 W2 HS CW ltac:(lia))
      as (r & t & s & Er & Et & Es & S1 & S3 & Cs).
    rewrite Er. cbn [bind]. rewrite Et. cbn [bind]. rewrite Es.
    eexists. split; [reflexivity |]. split; [reflexivity |].
    exists w, s. cbn [snd]. tauto. }
  assert (E2' : ideal_stakes inverse total_stake = Ok ideal).
  { unfold ideal_stakes. now rewrite EW. }
  assert (Hideal : forall k share, In (k, share) ideal ->
            fin_within (- 2 * price_exp - 54) (2 * price_exp + 54) share).
  { intros k share Hin.
    assert (Hall : Forall (fun res : string * float =>
               fin_within (- 2 * price_exp - 54) (2 * price_exp + 54) (snd res)) ideal).
    { eapply Forall2_Forall_r; [| exact F2].
      intros a b [_ (w & s & _ & Eb & B1 & B2 & _)]. exists s. auto. }
    rewrite Forall_forall in Hall. apply (Hall (k, share) Hin). }
  (* step 3 *)
  destruct (mapM_total_rel
              (fun item : string * float => m <- to_int (snd item) ;; Ok (fst item, m))
              (fun _ _ => True) ideal) as (rounded & E3 & _).
  { intros [k share] Hin. destruct (Hideal k share Hin) as (s & -> & _).
    cbn [fst snd to_int bind]. eexists. split; [reflexivity | exact I]. }
  fold (rounded_stakes ideal) in E3.
  exists inverse, ideal, rounded.
  split; [exact E1 |]. split; [exact E2' |]. split; [exact E3 |].
  split; [exact Hideal |].
  (* the sums *)
  assert (Csum : close (n + 3) (inject_Z total_stake)
                       (sumQ (map fval (values ideal)))).
  { assert (Hc : close (n + 3) (S * c) (sumQ (map fval (values ideal)))).
    { apply sumQ_scaled. unfold values.
      eapply Forall2_map2; [| exact F2].
      intros a b [_ (w & s & Ea & Eb & _ & _ & C)].
      rewrite Ea, Eb. exact C. }
    assert (Esc : (S * c == inject_Z total_stake)%Q) by (unfold c; field; lra).
    now rewrite Esc in Hc. }
  pose proof (rounded_stakes_aligned _ _ E3) as A3.
  destruct (floors_sum ideal rounded A3) as [Fl1 Fl2].
  { intros k share Hin. destruct (Hideal k share Hin) as (s & -> & S1 & _).
    exists s. split; [reflexivity |].
    pose proof (pow2_pos (- 2 * price_exp - 54)). lra. }
  assert (Li : List.length ideal = n).
  { rewrite <- Lw. symmetry. apply (Forall2_length F2). }
  rewrite Li in Fl2.
  unfold remainder_of.
  apply (remainder_bounds total_stake (sumZ (values rounded)) n
           (sumQ (map fval (values ideal)))); assumption.
Qed.

(** ** Steps 4 and 5 go through *)

Lemma sum_setitem (d : dict Z) (k : string) (cur v : Z) :
  get d k = Some cur ->
  sumZ (values (setitem d k v)) = sumZ (values d) - cur + v.
Proof.
  unfold values, sumZ.
  induction d as [| [k' v'] d IH]; simpl; [discriminate |].
  destruct (String.eqb k k'); simpl.
  - intros H. inversion H; subst. lia.
  - intros H. rewrite (IH H). lia.
Qed.

Lemma sum_bump (w : list string) :
  forall d : dict Z,
    NoDup (keys d) -> NoDup w -> incl w (keys d) ->
    sumZ (values (bump w d)) = sumZ (values d) + Z.of_nat (List.length w).
Proof.
  induction w as [| k w IH]; intros d ND NW Hincl.
  - rewrite bump_nil. cbn [List.length]. lia.
  - inversion NW as [| ? ? Hnot NW']; subst.
    assert (Hk : In k (keys d)) by (apply Hincl; now left).
    destruct (get d k) as [cur |] eqn:G;
      [| apply get_not_in_keys in G; contradiction].
    rewrite <- (bump_setitem w d k cur ND G Hnot).
    rewrite IH.
    + rewrite (sum_setitem d k cur (cur + 1) G). cbn [List.length]. lia.
    + now rewrite (keys_setitem_present d k (cur + 1) cur G).
    + exact NW'.
    + rewrite (keys_setitem_present d k (cur + 1) cur G).
      intros x Hx. apply Hincl. now right.
Qed.

Lemma sumZ_nonneg (l : list Z) : Forall (fun v => 0 <= v) l -> 0 <= sumZ l.
Proof.
  unfold sumZ. induction 1 as [| y l Hy Hl IH]; simpl; lia.
Qed.

Lemma sumZ_ge_elem (l : list Z) (x : Z) :
  Forall (fun v => 0 <= v) l -> In x l -> x <= sumZ l.
Proof.
  induction 1 as [| y l Hy Hl IH]; intros Hin; [contradiction |].
  pose proof (sumZ_nonneg l Hl) as H0. unfold sumZ in *. simpl.
  destruct Hin as [-> | Hin]; [lia |]. specialize (IH Hin). lia.
Qed.

Lemma profits_ok (odds : odds_map) (stakes : dict Z) (total_stake : Z) :
  bounded_prices odds ->
  keys stakes = keys odds ->
  (forall k v, get stakes k = Some v -> 0 <= v <= 2 ^ 52) ->
  1 <= total_stake <= 2 ^ 52 ->
  exists res, profits odds stakes total_stake = Ok res.
Proof.
  intros Hb K Hs HT. unfold profits. apply mapM_total.
  intros [n [t p]] Hin.
  assert (Hn : In n (keys stakes)).
  { rewrite K. change n with (fst (n, (t, p))). now apply in_map. }
  destruct (get stakes n) as [v |] eqn:G;
    [| apply get_not_in_keys in G; contradiction].
  unfold getitem. rewrite G. cbn [bind].
  destruct (Hs n v G) as [V0 V1].
  destruct (Hb n t p Hin) as (q & -> & Q1 & Q2).
  assert (Va : (Qabs (inject_Z v) <= pow2 52)%Q).
  { apply Qabs_Qle_condition. rewrite pow2_int by lia.
    change (- inject_Z (2 ^ 52))%Q with (inject_Z (- 2 ^ 52)).
    rewrite <- !Zle_Qle. lia. }
  destruct (of_int_finite v 52 Va ltac:(lia)) as (sv & Ev & S1 & S2).
  rewrite Ev. cbn [bind].
  destruct (of_int_within total_stake 52 ltac:(lia) ltac:(lia) ltac:(lia))
    as (tv & Et & T1 & T2 & _).
  rewrite Et. cbn [bind]. cbn [fmul].
  apply Qabs_Qle_condition in S1. specialize (S2 V0).
  pose proof (pow2_pos (- price_exp)) as P0.
  pose proof (pow2_pos 0) as P1.
  assert (Pa : (Qabs (sv * q) <= pow2 (52 + price_exp))%Q).
  { rewrite pow2_add. apply Qabs_Qle_condition.
    assert (0 <= sv * q)%Q by (apply Qmult_le_0_compat; lra).
    split; [pose proof (pow2_pos 52); pose proof (pow2_pos price_exp); nra |].
    apply Qmult_le_compat_nonneg; split; lra. }
  destruct (round64_finite _ _ Pa ltac:(unfold price_exp; lia))
    as (pay & Ep & Y1 & _).
  rewrite Ep. rewrite fsub_fin.
  apply Qabs_Qle_condition in Y1.
  assert (Da : (Qabs (pay + Qred (- tv)) <= pow2 (52 + price_exp + 1))%Q).
  { rewrite Qred_correct, pow2_succ. apply Qabs_Qle_condition.
    assert (pow2 52 <= pow2 (52 + price_exp))%Q
      by (apply pow2_le; unfold price_exp; lia).
    split; lra. }
  destruct (round64_finite _ _ Da ltac:(unfold price_exp; lia))
    as (d & Ed & D1 & _).
  rewrite Ed.
  destruct (round2_finite d _ D1 ltac:(unfold price_exp; lia)) as (r & Er).
  rewrite Er. cbn [bind]. eexists. reflexivity.
Qed.

Lemma NoDup_firstn_of {A : Type} (r : nat) (l : list A) :
  NoDup l -> NoDup (firstn r l).
Proof.
  revert r. induction l as [| x l IH]; intros r ND.
  - rewrite firstn_nil. constructor.
  - destruct r as [| r]; [constructor |]. cbn [firstn].
    inversion ND as [| ? ? Hnot ND']; subst.
    constructor; [| now apply IH].
    intros C. apply Hnot. eapply In_firstn; exact C.
Qed.

(** ** The whole of steps 1 to 4 *)
Lemma final_stakes_ok (odds : odds_map) (total_stake : Z) :
  NoDup (keys odds) ->
  odds <> [] ->
  bounded_prices odds ->
  1 <= total_stake ->
  (total_stake + 1) * (Z.of_nat (List.length odds) + 3) < 2 ^ 53 ->
  exists ideal rounded stakes diffs,
    final_stakes odds total_stake = Ok (ideal, rounded, stakes) /\
    mapM diff_of ideal = Ok diffs /\
    no_nan diffs /\
    keys ideal = keys odds /\ keys rounded = keys odds /\
    keys diffs = keys odds /\
    0 <= remainder_of total_stake rounded <= Z.of_nat (List.length odds) /\
    stakes = bump (firstn (Z.to_nat (remainder_of total_stake rounded))
                          (map fst (sort_desc diffs))) rounded /\
    sumZ (values stakes) = total_stake /\
    (forall k v, get stakes k = Some v -> 0 <= v) /\
    (forall k share, In (k, share) ideal ->
       exists s, share = FFin s /\ (0 < s)%Q /\ (s <= pow2 1023)%Q /\ dyadic53 s).
Proof.
  intros ND Hne Hb HT Hsmall.
  destruct (shares_exist odds total_stake Hne Hb HT Hsmall)
    as (inverse & ideal & rounded & E1 & E2 & E3 & Hideal & Hrem).
  pose proof (rounded_stakes_aligned _ _ E3) as A3.
  assert (K1 : keys ideal = keys odds).
  { rewrite (aligned_keys _ _ _ (ideal_stakes_aligned _ _ _ E2)).
    apply (aligned_keys _ _ _ (inverse_odds_aligned _ _ E1)). }
  assert (K2 : keys rounded = keys odds)
    by (now rewrite (aligned_keys _ _ _ A3)).
  assert (NDi : NoDup (keys ideal)) by (now rewrite K1).
  assert (NDr : NoDup (keys rounded)) by (now rewrite K2).
  (* the differences *)
  destruct (mapM_total_rel diff_of
              (fun item res => is_nan (snd res) = false) ideal)
    as (diffs & Ed & Fd).
  { intros [k share] Hin. destruct (Hideal k share Hin) as (s & -> & S1 & S2).
    unfold diff_of. cbn [fst snd to_int bind].
    pose proof (pow2_pos (- 2 * price_exp - 54)) as P0.
    assert (S0 : (0 <= s)%Q) by lra.
    rewrite (trunc_floor s S0).
    assert (Fa : (Qabs (inject_Z (Qfloor s)) <= pow2 (2 * price_exp + 54))%Q).
    { pose proof (Qfloor_le s). apply Qabs_Qle_condition.
      assert (0 <= inject_Z (Qfloor s))%Q.
      { change 0%Q with (inject_Z 0). rewrite <- Zle_Qle.
        change 0 with (Qfloor (inject_Z 0)). now apply Qfloor_resp_le. }
      split; lra. }
    destruct (of_int_finite _ _ Fa ltac:(unfold price_exp; lia)) as (y & Ey & _).
    rewrite Ey. cbn [bind]. eexists. split; [reflexivity |].
    cbn [snd]. rewrite fsub_fin. apply round64_not_nan. }
  assert (Kd : keys diffs = keys odds).
  { rewrite (aligned_keys _ _ _ (diffs_aligned _ _ Ed)). exact K1. }
  assert (Nd : no_nan diffs).
  { eapply Forall2_Forall_r; [| exact Fd]. intros a b H. exact H. }
  set (rem := remainder_of total_stake rounded) in *.
  set (order := map fst (sort_desc diffs)).
  assert (NO : NoDup order).
  { apply (Permutation_NoDup (sort_desc_keys_perm diffs)). now rewrite Kd. }
  assert (IO : incl order (keys rounded)).
  { intros k Hk. rewrite K2, <- Kd.
    apply (Permutation_in _ (Permutation_sym (sort_desc_keys_perm diffs))), Hk. }
  assert (Ea : adjust ideal rounded total_stake =
               Ok (bump (firstn (Z.to_nat rem) order) rounded)).
  { unfold adjust. fold rem. destruct (Z.ltb_spec 0 rem) as [Hpos | Hle].
    - rewrite (stake_diffs_eq ideal rounded NDi A3), Ed. cbn [bind].
      rewrite sorted_outcomes_eq by (now rewrite Kd). cbn [bind].
      now apply award_spec.
    - replace (Z.to_nat rem) with 0%nat by lia. cbn [firstn].
      now rewrite bump_nil. }
  exists ideal, rounded, (bump (firstn (Z.to_nat rem) order) rounded), diffs.
  split.
  { unfold final_stakes. rewrite E1. cbn [bind]. rewrite E2. cbn [bind].
    rewrite E3. cbn [bind]. rewrite Ea. reflexivity. }
  split; [exact Ed |]. split; [exact Nd |].
  split; [exact K1 |]. split; [exact K2 |]. split; [exact Kd |].
  split; [exact Hrem |]. split; [reflexivity |].
  split; [| split].
  - rewrite sum_bump.
    + rewrite length_firstn.
      assert (Lo : List.length order = List.length odds).
      { unfold order. rewrite length_map.
        rewrite <- (Permutation_length (sort_desc_perm diffs)).
        rewrite <- (length_map fst diffs), <- (length_map fst odds).
        fold (keys diffs) (keys odds). now rewrite Kd. }
      rewrite Lo. unfold rem, remainder_of in *. lia.
    + exact NDr.
    + now apply NoDup_firstn_of.
    + intros k Hk. apply IO. eapply In_firstn; exact Hk.
  - intros k v G. rewrite get_bump in G.
    destruct (get rounded k) as [r |] eqn:Gr; [| discriminate].
    destruct (aligned_get _ _ _ _ _ A3 Gr) as (share & Gi & Hto).
    destruct (Hideal k share (in_get _ _ _ Gi)) as (s & -> & S1 & _).
    cbn [to_int] in Hto. inversion Hto; subst r.
    pose proof (pow2_pos (- 2 * price_exp - 54)) as P0.
    assert (S0 : (0 <= s)%Q) by lra.
    rewrite (trunc_floor s S0) in G.
    assert (0 <= Qfloor s).
    { change 0 with (Qfloor (inject_Z 0)). now apply Qfloor_resp_le. }
    cbn [option_map] in G. destruct (mem k _); inversion G; lia.
  - intros k share Hin. destruct (Hideal k share Hin) as (s & -> & S1 & S2).
    pose proof (pow2_pos (- 2 * price_exp - 54)) as P0.
    assert (S0 : (0 < s)%Q) by lra.
    exists s. split; [reflexivity |]. split; [exact S0 |]. split.
    + eapply Qle_trans; [exact S2 |]. apply pow2_le. unfold price_exp. lia.
    + destruct (aligned_in _ _ _ _ _ (ideal_stakes_aligned _ _ _ E2) Hin)
        as (w & _ & w' & t & _ & _ & Hm).
      now apply (fmul_fin_dyadic w' t).
Qed.

(** ** The claims on the allocator *)

(** C1, as amended. For an odds mapping of [n >= 1] distinct outcomes
    whose prices are finite floats between 2^-400 and 2^400, and a total
    stake [T >= 1] with [(T + 1) * (n + 3) < 2^53], [calculate_stakes]
    returns an allocation over the same outcomes whose integer stakes sum
    to [T] exactly. *)
Theorem stake_conservation (odds : odds_map) (total_stake : Z) :
  NoDup (keys odds) ->
  odds <> [] ->
  bounded_prices odds ->
  1 <= total_stake ->
  (total_stake + 1) * (Z.of_nat (List.length odds) + 3) < 2 ^ 53 ->
  exists res,
    calculate_stakes odds total_stake = Ok res /\
    keys (stakes_of res) = keys odds /\
    sumZ (values (stakes_of res)) = total_stake.
Proof.
  intros ND Hne Hb HT Hsmall.
  destruct (final_stakes_ok odds total_stake ND Hne Hb HT Hsmall)
    as (ideal & rounded & stakes & diffs & F & _ & _ & _ & K2 & _ & _ & Es & Hsum & Hpos & _).
  assert (K : keys stakes = keys odds) by (rewrite Es, keys_bump; exact K2).
  assert (NDs : NoDup (keys stakes)) by (now rewrite K).
  destruct (profits_ok odds stakes total_stake Hb K) as (res & Er).
  - intros k v G. split; [now apply (Hpos k) |].
    assert (v <= sumZ (values stakes)).
    { apply sumZ_ge_elem.
      - apply Forall_forall. intros x Hx. unfold values in Hx.
        apply in_map_iff in Hx. destruct Hx as ([k' v'] & <- & Hin).
        apply (Hpos k'). now apply get_in.
      - unfold values. change v with (snd (k, v)). apply in_map.
        now apply in_get. }
    nia.
  - nia.
  - exists res. unfold calculate_stakes. rewrite F. cbn [bind snd].
    split; [exact Er |].
    rewrite (profits_stakes odds stakes total_stake res NDs K Er).
    now split.
Qed.

Lemma Forall2_In_l {A B : Type} (P : A -> B -> Prop) (l : list A) (l' : list B)
    (x : A) :
  Forall2 P l l' -> In x l -> exists y, In y l' /\ P x y.
Proof.
  induction 1 as [| a b l l' Hab _ IH]; intros Hin; [contradiction |].
  destruct Hin as [-> | Hin].
  - exists b. split; [now left | exact Hab].
  - destruct (IH Hin) as (y & Hy & Py). exists y. split; [now right | exact Py].
Qed.

(** C4, as amended. Under the same conditions the remainder
    [total_stake - sum of the floors] lies between 0 and the number of
    outcomes, both included; the difference that step 4 computes for an
    outcome is exactly the fractional part of its ideal share; and the
    outcomes that receive one extra unit are exactly those whose rank is
    below the remainder, the rank of an outcome being the number of
    outcomes whose fractional part is strictly larger, or is equal and
    comes earlier in the mapping. *)
Theorem remainder_distribution (odds : odds_map) (total_stake : Z) :
  NoDup (keys odds) ->
  odds <> [] ->
  bounded_prices odds ->
  1 <= total_stake ->
  (total_stake + 1) * (Z.of_nat (List.length odds) + 3) < 2 ^ 53 ->
  exists ideal rounded stakes diffs,
    final_stakes odds total_stake = Ok (ideal, rounded, stakes) /\
    stake_diffs ideal rounded = Ok diffs /\
    0 <= remainder_of total_stake rounded <= Z.of_nat (List.length odds) /\
    (forall a s,
        get ideal a = Some (FFin s) ->
        exists d, get diffs a = Some (FFin d) /\
                  (d == s - inject_Z (Qfloor s))%Q) /\
    (forall a r da,
        get rounded a = Some r ->
        get diffs a = Some da ->
        get stakes a =
        Some (if Z.of_nat (rank diffs a da) <? remainder_of total_stake rounded
              then r + 1 else r)).
Proof.
  intros ND Hne Hb HT Hsmall.
  destruct (final_stakes_ok odds total_stake ND Hne Hb HT Hsmall)
    as (ideal & rounded & stakes & diffs & F & Ed & Nd & K1 & K2 & Kd & Hrem
        & Es & _ & _ & Hdy).
  assert (NDd : NoDup (keys diffs)) by (now rewrite Kd).
  assert (NDi : NoDup (keys ideal)) by (now rewrite K1).
  exists ideal, rounded, stakes, diffs.
  split; [exact F |]. split.
  { destruct (final_stakes_inv _ _ _ _ _ F) as (inverse & _ & _ & H3 & _).
    rewrite (stake_diffs_eq ideal rounded NDi (rounded_stakes_aligned _ _ H3)).
    exact Ed. }
  split; [exact Hrem |]. split.
  - intros a s G.
    destruct (Hdy a (FFin s) (in_get _ _ _ G)) as (s' & E & S0 & S1 & Ds).
    apply FFin_inj in E. subst s'.
    destruct (diff_of_exact a s Ds S0 S1) as (d & Hd & Ex).
    exists d. split; [| exact Ex].
    destruct (Forall2_In_l _ _ _ _ (mapM_Forall2 _ _ _ Ed) (in_get _ _ _ G))
      as (y & Hy & Py).
    rewrite Hd in Py. inversion Py; subst y. now apply get_in.
  - intros a r da Gr Gd. rewrite Es, get_bump, Gr. cbn [option_map]. f_equal.
    rewrite mem_firstn.
    + rewrite (index_is_rank diffs a da Nd NDd (in_get _ _ _ Gd)).
      destruct (Nat.ltb_spec (rank diffs a da)
                  (Z.to_nat (remainder_of total_stake rounded)));
        destruct (Z.ltb_spec (Z.of_nat (rank diffs a da))
                    (remainder_of total_stake rounded)); try reflexivity; lia.
    + apply (Permutation_in _ (sort_desc_keys_perm diffs)).
      now apply (get_in_keys diffs a da).
Qed.

End Rounding.

(** * The claims at concrete inputs *)

Lemma best_price_selection_witness :
  exists t pmax,
    get Inputs.derby_best "A" = Some (t, pmax) /\
    first_best (quotes Inputs.derby) "A" t pmax /\
    (forall q p, In q (quotes Inputs.derby) -> quote_for "A" p q ->
                 fle p pmax = true).
Proof.
  apply (best_price_selection Inputs.derby Inputs.derby_best "A").
  - reflexivity.
  - intros q p Hin Hp. vm_compute in Hin.
    destruct Hin as [<- | [<- | [<- | [<- | []]]]];
      cbn in Hp; inversion Hp; reflexivity.
  - eexists. exists (lit (21 # 10)). split; [left; reflexivity |].
    split; reflexivity.
Defined.

Lemma qualification_bounds_witness :
  exists b,
    fsub (FFin 1) (FFin (1 # 128)) = FFin b /\ (0 <= b)%Q /\ (b <= 1)%Q /\
    (qualifies (FFin (1 # 128)) Inputs.sure_bet = true <->
     exists t, total_implied_odds Inputs.sure_bet = FFin t /\ (0 < t)%Q /\ (t < b)%Q) /\
    (forall ms,
        In Inputs.sure_bet (opportunities (FFin (1 # 128)) ms) <->
        In Inputs.sure_bet ms /\
        exists t, total_implied_odds Inputs.sure_bet = FFin t /\ (0 < t)%Q /\ (t < b)%Q).
Proof.
  apply (qualification_bounds (1 # 128) Inputs.sure_bet); reflexivity.
Defined.

Lemma spec_example_nodup : NoDup (keys Inputs.spec_example).
Proof.
  repeat constructor; simpl; intuition discriminate.
Defined.

Lemma spec_example_bounded : bounded_prices Inputs.spec_example.
Proof.
  intros n t p [E | [E | []]]; inversion E; subst;
    eexists; (split; [reflexivity |]); split; vm_compute; discriminate.
Defined.

Lemma spec_example_positive : positive_prices Inputs.spec_example.
Proof.
  intros n t p [E | [E | []]]; inversion E; reflexivity.
Defined.

Lemma stake_conservation_witness :
  exists res,
    calculate_stakes Inputs.spec_example 100 = Ok res /\
    keys (stakes_of res) = keys Inputs.spec_example /\
    sumZ (values (stakes_of res)) = 100.
Proof.
  apply (stake_conservation Inputs.spec_example 100).
  - exact spec_example_nodup.
  - discriminate.
  - exact spec_example_bounded.
  - lia.
  - vm_compute. reflexivity.
Defined.

Lemma remainder_distribution_witness :
  exists ideal rounded stakes diffs,
    final_stakes Inputs.spec_example 100 = Ok (ideal, rounded, stakes) /\
    stake_diffs ideal rounded = Ok diffs /\
    0 <= remainder_of 100 rounded <= 2 /\
    (forall a s,
        get ideal a = Some (FFin s) ->
        exists d, get diffs a = Some (FFin d) /\
                  (d == s - inject_Z (Qfloor s))%Q) /\
    (forall a r da,
        get rounded a = Some r ->
        get diffs a = Some da ->
        get stakes a =
        Some (if Z.of_nat (rank diffs a da) <? remainder_of 100 rounded
              then r + 1 else r)).
Proof.
  apply (remainder_distribution Inputs.spec_example 100).
  - exact spec_example_nodup.
  - discriminate.
  - exact spec_example_bounded.
  - lia.
  - vm_compute. reflexivity.
Defined.

Lemma stake_floor_or_next_witness :
  exists ideal rounded stakes,
    final_stakes Inputs.spec_example 100 = Ok (ideal, rounded, stakes) /\
    stakes_of Inputs.spec_example_result = stakes /\
    keys stakes = keys Inputs.spec_example /\
    forall n s,
      get stakes n = Some s ->
      exists q, get ideal n = Some (FFin q) /\ (0 <= q)%Q /\
                (s = Qfloor q \/ s = Qfloor q + 1).
Proof.
  apply (stake_floor_or_next Inputs.spec_example 100).
  - exact spec_example_nodup.
  - exact spec_example_positive.
  - lia.
  - vm_compute. reflexivity.
Defined.

(** C8. For the odds {A: 1.5, B: 3.0} and a total stake of 100 the
    floors are 66 and 33, the remainder is 1, A has the larger difference
    and gets the unit, and the stakes returned are {A: 67, B: 33}, which
    sum to 100. *)
Theorem spec_example_allocation :
  final_stakes Inputs.spec_example 100 =
    Ok (Inputs.spec_example_ideal,
        [("A"%string, 66); ("B"%string, 33)],
        [("A"%string, 67); ("B"%string, 33)]) /\
  remainder_of 100 [("A"%string, 66); ("B"%string, 33)] = 1 /\
  stake_diffs Inputs.spec_example_ideal [("A"%string, 66); ("B"%string, 33)] =
    Ok Inputs.spec_example_diffs /\
  (exists da db,
      get Inputs.spec_example_diffs "A" = Some da /\
      get Inputs.spec_example_diffs "B" = Some db /\
      flt db da = true) /\
  calculate_stakes Inputs.spec_example 100 = Ok Inputs.spec_example_result /\
  stakes_of Inputs.spec_example_result = [("A"%string, 67); ("B"%string, 33)] /\
  sumZ (values (stakes_of Inputs.spec_example_result)) = 100.
Proof.
  split; [vm_compute; reflexivity |].
  split; [reflexivity |].
  split; [vm_compute; reflexivity |].
  split.
  { eexists. eexists. split; [reflexivity |]. split; [reflexivity |].
    vm_compute. reflexivity. }
  split; [vm_compute; reflexivity |].
  split; reflexivity.
Qed.

(** the prices of these inputs are floats *)
Lemma example_prices_are_floats :
  representable (3 # 2) = true /\ representable 3 = true /\
  representable 2 = true /\ representable 1 = true /\ representable 9 = true.
Proof. repeat split; vm_compute; reflexivity. Qed.

(** Outside the range of prices of C1 the shares need not exist: for the
    smallest positive float, 2^-1074, the weight overflows to an infinity,
    the share is a NaN and [int] raises. *)
Lemma tiny_price_raises :
  calculate_stakes
    [("A"%string, ("Bookmaker1"%string, lit (1 # 2 ^ 1074)));
     ("B"%string, ("Bookmaker2"%string, FFin 2))] 100 = Raise ValueError.
Proof. vm_compute. reflexivity. Qed.

(** C1 as stated fails: with the odds {A: 2.0, B: 2.0} and a total stake
    of 2^53 + 3 the stakes returned sum to 2^53 + 4. *)
Lemma stake_conservation_fails_on_large_totals :
  calculate_stakes Inputs.evens 9007199254740995 =
    Ok [("A"%string, ("Bookmaker1"%string, FFin 2, 4503599627370498, FFin 0));
        ("B"%string, ("Bookmaker2"%string, FFin 2, 4503599627370498, FFin 0))] /\
  4503599627370498 + 4503599627370498 <> 9007199254740995.
Proof.
  split; [vm_compute; reflexivity | lia].
Qed.

(** C4 as stated fails: with the odds {A: 1.0, B: 9.0} and a total stake
    of 1000 the floors are 899 and 99, so that the remainder, 2, is not
    less than the number of outcomes. *)
Lemma remainder_can_reach_outcome_count :
  rounded_stakes Inputs.one_and_nine_ideal =
    Ok [("A"%string, 899); ("B"%string, 99)] /\
  final_stakes Inputs.one_and_nine 1000 =
    Ok (Inputs.one_and_nine_ideal,
        [("A"%string, 899); ("B"%string, 99)],
        [("A"%string, 900); ("B"%string, 100)]) /\
  remainder_of 1000 [("A"%string, 899); ("B"%string, 99)] =
    Z.of_nat (List.length Inputs.one_and_nine).
Proof.
  split; [vm_compute; reflexivity |].
  split; [vm_compute; reflexivity | reflexivity].
Qed.

(** * Rounding is monotone *)

Section Monotone.

Local Open Scope Q_scope.

Lemma rne_mono (x y : Q) : x <= y -> (rne x <= rne y)%Z.
Proof.
  intros H. destruct (Z_le_gt_dec (rne x) (rne y)) as [L | G]; [exact L |].
  exfalso. assert (G' : (rne y + 1 <= rne x)%Z) by lia.
  rewrite Zle_Qle, inject_Z_plus in G'. change (inject_Z 1) with 1 in G'.
  destruct (rne_close x) as [X1 _]. destruct (rne_close y) as [_ Y2].
  assert (E : x == y) by lra.
  rewrite (rne_comp x y E) in G. lia.
Qed.

Lemma ilog2_mono (x y : Q) : 0 < x -> x <= y -> (ilog2 x <= ilog2 y)%Z.
Proof.
  intros Hx Hxy. apply ilog2_ge; [lra |].
  destruct (ilog2_spec x Hx) as [S1 _]. lra.
Qed.

Lemma round_mag_mono (x y : Q) :
  0 < x -> x <= y -> round_mag x <= round_mag y.
Proof.
  intros Hx Hxy. assert (Hy : 0 < y) by lra.
  pose proof (ilog2_mono x y Hx Hxy) as HE.
  destruct (Z.eq_dec (ulp_exp x) (ulp_exp y)) as [E | N].
  - unfold round_mag. rewrite E. set (e := ulp_exp y).
    pose proof (pow2_pos e) as Pe.
    apply Qmult_le_compat_r; [| lra].
    rewrite <- Zle_Qle. apply rne_mono.
    unfold Qdiv. apply Qmult_le_compat_r; [exact Hxy |].
    apply Qlt_le_weak, Qinv_lt_0_compat, Pe.
  - assert (HB : (ilog2 x < ilog2 y /\ -1022 < ilog2 y)%Z).
    { unfold ulp_exp, emin, prec in N. lia. }
    destruct (ilog2_spec x Hx) as [_ X2]. destruct (ilog2_spec y Hy) as [Y1 _].
    assert (Xb : x <= pow2 (ilog2 y)).
    { apply Qle_trans with (pow2 (ilog2 x + 1)); [now apply Qlt_le_weak |].
      apply pow2_le. lia. }
    apply Qle_trans with (pow2 (ilog2 y)).
    + apply round_mag_le; [exact Hx | exact Xb | lia].
    + apply round_mag_ge; [exact Hy | exact Y1 | lia].
Qed.

(** the values of a less-or-equal pair of non-NaN floats, on an extended line *)
Lemma fle_fin (x y : Q) : fle (FFin x) (FFin y) = true <-> x <= y.
Proof.
  cbn [fle flt]. rewrite negb_involutive. apply Qle_bool_iff.
Qed.

Lemma round64_mono (x y : Q) : x <= y -> fle (round64 x) (round64 y) = true.
Proof.
  intros H. unfold round64.
  destruct (Qcompare_spec x 0) as [X | X | X];
    destruct (Qcompare_spec y 0) as [Y | Y | Y]; try lra.
  - apply fle_fin. apply Qle_refl.
  - destruct (Qle_bool (pow2 emax) (round_mag y)); [reflexivity |].
    apply fle_fin. rewrite Qred_correct. apply round_mag_nonneg, Y.
  - destruct (Qle_bool (pow2 emax) (round_mag (- x))); [reflexivity |].
    apply fle_fin. rewrite Qred_correct.
    pose proof (round_mag_nonneg (- x) ltac:(lra)). lra.
  - pose proof (round_mag_mono (- y) (- x) ltac:(lra) ltac:(lra)) as M.
    destruct (Qle_bool (pow2 emax) (round_mag (- x))) eqn:Bx;
      destruct (Qle_bool (pow2 emax) (round_mag (- y))) eqn:By;
      try reflexivity.
    + apply Qle_bool_iff in By. apply Qle_bool_false in Bx. lra.
    + apply fle_fin. rewrite !Qred_correct. lra.
  - destruct (Qle_bool (pow2 emax) (round_mag (- x)));
      destruct (Qle_bool (pow2 emax) (round_mag y)); try reflexivity.
    apply fle_fin. rewrite !Qred_correct.
    pose proof (round_mag_nonneg (- x) ltac:(lra)).
    pose proof (round_mag_nonneg y Y). lra.
  - pose proof (round_mag_mono x y X H) as M.
    destruct (Qle_bool (pow2 emax) (round_mag x)) eqn:Bx;
      destruct (Qle_bool (pow2 emax) (round_mag y)) eqn:By;
      try reflexivity.
    + apply Qle_bool_iff in Bx. apply Qle_bool_false in By. lra.
    + apply fle_fin. rewrite !Qred_correct. exact M.
Qed.

End Monotone.

(** * More on the stake allocator *)

Section AllocatorMore.

Lemma mapM_raise {A B : Type} (f : A -> result B) (l : list A) (e : exn) :
  mapM f l = Raise e -> exists x, In x l /\ f x = Raise e.
Proof.
  induction l as [| x l IH]; simpl; [discriminate |].
  destruct (f x) as [y | e'] eqn:Hx; cbn [bind].
  - destruct (mapM f l) as [ys | e'']; cbn [bind]; [discriminate |].
    intros H. destruct (IH H) as (x' & Hin & Hx').
    exists x'. split; [now right | exact Hx'].
  - intros H. inversion H; subst. exists x. split; [now left | exact Hx].
Qed.

Lemma of_int_raises (n : Z) (e : exn) : of_int n = Raise e -> e = OverflowError.
Proof.
  unfold of_int. destruct (round64 (inject_Z n)); intros H; now inversion H.
Qed.

Lemma to_int_raises (x : float) (e : exn) :
  to_int x = Raise e -> e = OverflowError \/ e = ValueError.
Proof.
  destruct x; cbn [to_int]; intros H; inversion H; auto.
Qed.

Lemma round2_raises (x : float) (e : exn) : round2 x = Raise e -> e = OverflowError.
Proof.
  unfold round2. destruct x as [q | |]; try discriminate.
  destruct (round64 _); intros H; now inversion H.
Qed.

Lemma inverse_odds_raises (odds : odds_map) (e : exn) :
  inverse_odds odds = Raise e -> e = ZeroDivisionError /\ has_zero_price odds.
Proof.
  intros H. apply mapM_raise in H. destruct H as ([n [t p]] & Hin & Hx).
  cbn [fst snd] in Hx.
  destruct (fdiv (FFin 1) p) as [w | e'] eqn:Hd; [discriminate |].
  cbn [bind] in Hx. inversion Hx; subst e'.
  apply fdiv_raises in Hd. destruct Hd as [-> Hz].
  split; [reflexivity |]. now exists n, t, p.
Qed.

Lemma ideal_stakes_raises (inverse : dict float) (total_stake : Z) (e : exn) :
  ideal_stakes inverse total_stake = Raise e ->
  (e = ZeroDivisionError /\ is_zero (sum (values inverse)) = true) \/
  e = OverflowError.
Proof.
  unfold ideal_stakes. intros H. apply mapM_raise in H.
  destruct H as ([n w] & Hin & Hx). cbn [fst snd] in Hx.
  destruct (fdiv w (sum (values inverse))) as [r | e'] eqn:Hd; cbn [bind] in Hx.
  - destruct (of_int total_stake) as [t | e'] eqn:Ht; cbn [bind] in Hx;
      [discriminate |].
    inversion Hx; subst e'. right. now apply of_int_raises in Ht.
  - inversion Hx; subst e'. left. now apply fdiv_raises in Hd.
Qed.

Lemma ideal_stakes_zero_total (inverse : dict float) (total_stake : Z) :
  inverse <> [] -> is_zero (sum (values inverse)) = true ->
  ideal_stakes inverse total_stake = Raise ZeroDivisionError.
Proof.
  intros Hne Hz. unfold ideal_stakes.
  destruct inverse as [| [n w] inverse]; [congruence |].
  cbn [mapM fst snd]. now rewrite (fdiv_zero w _ Hz).
Qed.

Lemma rounded_stakes_raises (ideal : dict float) (e : exn) :
  rounded_stakes ideal = Raise e -> e = OverflowError \/ e = ValueError.
Proof.
  intros H. apply mapM_raise in H. destruct H as ([n s] & _ & Hx).
  cbn [fst snd] in Hx.
  destruct (to_int s) as [k | e'] eqn:Hs; cbn [bind] in Hx; [discriminate |].
  inversion Hx; subst e'. now apply to_int_raises in Hs.
Qed.

Lemma adjust_raises (ideal : dict float) (rounded : dict Z) (total_stake : Z)
    (e : exn) :
  NoDup (keys ideal) ->
  rounded_stakes ideal = Ok rounded ->
  adjust ideal rounded total_stake = Raise e -> e = OverflowError.
Proof.
  intros ND H3 H. pose proof (rounded_stakes_aligned _ _ H3) as A3.
  assert (Kr : keys rounded = keys ideal) by apply (aligned_keys _ _ _ A3).
  unfold adjust in H.
  destruct (0 <? remainder_of total_stake rounded); [| discriminate].
  rewrite (stake_diffs_eq ideal rounded ND A3) in H.
  destruct (mapM diff_of ideal) as [diffs | e'] eqn:Hd; cbn [bind] in H.
  - exfalso.
    assert (Kd : keys diffs = keys ideal)
      by apply (aligned_keys _ _ _ (diffs_aligned _ _ Hd)).
    rewrite sorted_outcomes_eq in H by (now rewrite Kd). cbn [bind] in H.
    rewrite award_spec in H; [discriminate | now rewrite Kr | |].
    + apply (Permutation_NoDup (sort_desc_keys_perm diffs)). now rewrite Kd.
    + intros k Hk. rewrite Kr, <- Kd.
      apply (Permutation_in _ (Permutation_sym (sort_desc_keys_perm diffs))), Hk.
  - inversion H; subst e'. apply mapM_raise in Hd.
    destruct Hd as ([n s] & Hin & Hx). unfold diff_of in Hx. cbn [fst snd] in Hx.
    (* the share was already converted by step 3 *)
    destruct (Forall2_In_l _ _ _ _ (mapM_Forall2 _ _ _ H3) Hin) as (y & _ & Hy).
    cbn [fst snd] in Hy.
    destruct (to_int s) as [k | e''] eqn:Hk; cbn [bind] in Hy; [| discriminate].
    cbn [bind] in Hx.
    destruct (of_int k) as [r' | e'] eqn:Hr; cbn [bind] in Hx; [discriminate |].
    inversion Hx; subst e'. now apply of_int_raises in Hr.
Qed.

Lemma profits_raises (odds : odds_map) (stakes : dict Z) (total_stake : Z)
    (e : exn) :
  keys stakes = keys odds ->
  profits odds stakes total_stake = Raise e -> e = OverflowError.
Proof.
  intros K H. unfold profits in H. apply mapM_raise in H.
  destruct H as ([n [t p]] & Hin & Hx).
  assert (Hn : In n (keys stakes)).
  { rewrite K. change n with (fst (n, (t, p))). now apply in_map. }
  destruct (get stakes n) as [v |] eqn:G;
    [| apply get_not_in_keys in G; contradiction].
  unfold getitem in Hx. rewrite G in Hx. cbn [bind] in Hx.
  destruct (of_int v) as [sv | e'] eqn:Hv; cbn [bind] in Hx;
    [| inversion Hx; subst e'; now apply of_int_raises in Hv].
  destruct (of_int total_stake) as [tv | e'] eqn:Ht; cbn [bind] in Hx;
    [| inversion Hx; subst e'; now apply of_int_raises in Ht].
  destruct (round2 (fsub (fmul sv p) tv)) as [pr | e'] eqn:Hr; cbn [bind] in Hx;
    [discriminate |].
  inversion Hx; subst e'. now apply round2_raises in Hr.
Qed.

(** where an exception of [calculate_stakes] comes from *)
Lemma calculate_stakes_raise_cases (odds : odds_map) (total_stake : Z) (e : exn) :
  NoDup (keys odds) ->
  calculate_stakes odds total_stake = Raise e ->
  inverse_odds odds = Raise e \/
  (exists inverse, inverse_odds odds = Ok inverse /\
                   ideal_stakes inverse total_stake = Raise e) \/
  e = OverflowError \/ e = ValueError.
Proof.
  intros ND H. unfold calculate_stakes, final_stakes in H.
  destruct (inverse_odds odds) as [inverse | e1] eqn:H1; cbn [bind] in H;
    [| left; inversion H; reflexivity].
  right.
  destruct (ideal_stakes inverse total_stake) as [ideal | e2] eqn:H2;
    cbn [bind] in H;
    [| left; exists inverse; split; [reflexivity | inversion H; subst; exact H2]].
  right.
  assert (K1 : keys ideal = keys odds).
  { rewrite (aligned_keys _ _ _ (ideal_stakes_aligned _ _ _ H2)).
    apply (aligned_keys _ _ _ (inverse_odds_aligned _ _ H1)). }
  assert (NDi : NoDup (keys ideal)) by (now rewrite K1).
  destruct (rounded_stakes ideal) as [rounded | e3] eqn:H3; cbn [bind] in H.
  - destruct (adjust ideal rounded total_stake) as [stakes | e4] eqn:H4;
      cbn [bind snd] in H.
    + left. apply (profits_raises odds stakes total_stake e); [| exact H].
      rewrite (adjust_keys ideal rounded stakes total_stake NDi
                 (rounded_stakes_aligned _ _ H3) H4).
      now rewrite (aligned_keys _ _ _ (rounded_stakes_aligned _ _ H3)).
    + inversion H; subst e4. left.
      now apply (adjust_raises ideal rounded total_stake e NDi H3).
  - inversion H; subst e3. now apply rounded_stakes_raises in H3.
Qed.

(** X1. On a well-formed mapping [calculate_stakes] never raises a
    [KeyError] or an [IndexError]: what it can raise is
    [ZeroDivisionError], [OverflowError] or [ValueError]. *)
Theorem calculate_stakes_exceptions (odds : odds_map) (total_stake : Z) (e : exn) :
  NoDup (keys odds) ->
  calculate_stakes odds total_stake = Raise e ->
  e = ZeroDivisionError \/ e = OverflowError \/ e = ValueError.
Proof.
  intros ND H.
  destruct (calculate_stakes_raise_cases odds total_stake e ND H)
    as [H1 | [(inverse & _ & H2) | [-> | ->]]]; auto.
  - apply inverse_odds_raises in H1. left. apply H1.
  - apply ideal_stakes_raises in H2. destruct H2 as [[-> _] | ->]; auto.
Qed.

(** X2. [calculate_stakes] raises [ZeroDivisionError] exactly when a price is
    zero, or when no price is zero but the inverse odds of a non-empty
    mapping add up to zero. *)
Theorem zero_division_iff (odds : odds_map) (total_stake : Z) :
  NoDup (keys odds) ->
  (calculate_stakes odds total_stake = Raise ZeroDivisionError <->
   has_zero_price odds \/
   exists inverse,
     inverse_odds odds = Ok inverse /\ inverse <> [] /\
     is_zero (sum (values inverse)) = true).
Proof.
  intros ND. split.
  - intros H.
    destruct (calculate_stakes_raise_cases odds total_stake _ ND H)
      as [H1 | [(inverse & H1 & H2) | [C | C]]]; try discriminate.
    + left. apply (inverse_odds_raises odds _ H1).
    + right. exists inverse. split; [exact H1 |].
      destruct (ideal_stakes_raises _ _ _ H2) as [[_ Hz] | C]; [| discriminate].
      split; [| exact Hz].
      intros ->. discriminate H2.
  - intros [Hz | (inverse & H1 & Hne & Hz)].
    + unfold calculate_stakes, final_stakes.
      now rewrite (inverse_odds_zero odds Hz).
    + unfold calculate_stakes, final_stakes. rewrite H1. cbn [bind].
      now rewrite (ideal_stakes_zero_total inverse total_stake Hne Hz).
Qed.

(** X3. Whenever [calculate_stakes] returns, the stakes sum to the total
    stake minus the remainder of step 4, plus the units the loop could
    hand out: none for a remainder below zero, at most one per outcome.
    The sum is the total stake exactly when the remainder lies between 0
    and the number of outcomes. *)
Theorem stakes_sum_formula (odds : odds_map) (total_stake : Z) (res : allocation) :
  NoDup (keys odds) ->
  calculate_stakes odds total_stake = Ok res ->
  exists ideal rounded stakes,
    final_stakes odds total_stake = Ok (ideal, rounded, stakes) /\
    let remainder := remainder_of total_stake rounded in
    let n := Z.of_nat (List.length odds) in
    sumZ (values (stakes_of res)) =
      total_stake - remainder + Z.max 0 (Z.min remainder n) /\
    (sumZ (values (stakes_of res)) = total_stake <-> 0 <= remainder <= n).
Proof.
  intros ND H.
  destruct (calculate_stakes_inv odds total_stake res ND H)
    as (ideal & rounded & stakes & F & S & K).
  exists ideal, rounded, stakes. split; [exact F |]. cbn zeta.
  destruct (final_stakes_inv _ _ _ _ _ F) as (inverse & H1 & H2 & H3 & H4 & K1 & K2).
  pose proof (rounded_stakes_aligned _ _ H3) as A3.
  assert (NDi : NoDup (keys ideal)) by (now rewrite K1).
  assert (NDr : NoDup (keys rounded)) by (now rewrite K2).
  assert (Hsum : sumZ (values stakes) =
                 total_stake - remainder_of total_stake rounded
                 + Z.max 0 (Z.min (remainder_of total_stake rounded)
                                  (Z.of_nat (List.length odds)))).
  { destruct (adjust_spec ideal rounded stakes total_stake NDi A3 H4)
      as [[Hle ->] | [Hpos (diffs & Ed & ->)]].
    - unfold remainder_of in *. lia.
    - assert (Kd : keys diffs = keys ideal)
        by apply (aligned_keys _ _ _ (diffs_aligned _ _ Ed)).
      assert (NO : NoDup (map fst (sort_desc diffs))).
      { apply (Permutation_NoDup (sort_desc_keys_perm diffs)). now rewrite Kd. }
      rewrite sum_bump.
      + rewrite length_firstn, length_map.
        rewrite <- (Permutation_length (sort_desc_perm diffs)).
        rewrite <- (length_map fst diffs), <- (length_map fst odds).
        fold (keys diffs) (keys odds). rewrite Kd, K1.
        unfold remainder_of in *. lia.
      + exact NDr.
      + now apply NoDup_firstn_of.
      + intros k Hk. apply In_firstn in Hk. rewrite K2, <- K1, <- Kd.
        apply (Permutation_in _ (Permutation_sym (sort_desc_keys_perm diffs))), Hk. }
  rewrite S. split; [exact Hsum |]. rewrite Hsum. lia.
Qed.

Lemma profits_offers (odds : odds_map) (stakes : dict Z) (total_stake : Z)
    (res : allocation) :
  profits odds stakes total_stake = Ok res -> map offer_of res = odds.
Proof.
  intros H. unfold profits in H. apply mapM_Forall2 in H.
  induction H as [| [n [t p]] r odds res Hr _ IH]; [reflexivity |].
  cbn [map]. f_equal; [| exact IH].
  destruct (getitem stakes n) as [v |]; [| discriminate]. cbn [bind] in Hr.
  destruct (of_int v) as [sv |]; [| discriminate]. cbn [bind] in Hr.
  destruct (of_int total_stake) as [tv |]; [| discriminate]. cbn [bind] in Hr.
  destruct (round2 (fsub (fmul sv p) tv)) as [pr |]; [| discriminate].
  cbn [bind] in Hr. inversion Hr; subst r. reflexivity.
Qed.

Lemma calculate_stakes_offers (odds : odds_map) (total_stake : Z)
    (res : allocation) :
  calculate_stakes odds total_stake = Ok res -> map offer_of res = odds.
Proof.
  unfold calculate_stakes. intros H.
  destruct (final_stakes odds total_stake) as [s |]; [| discriminate].
  cbn [bind] in H. now apply (profits_offers odds (snd s) total_stake).
Qed.

(** X4. The allocation returned keeps the outcomes of the mapping in their
    order, each with the bookmaker and the price it came with. *)
Theorem allocation_keeps_offers (odds : odds_map) (total_stake : Z)
    (res : allocation) :
  calculate_stakes odds total_stake = Ok res ->
  map offer_of res = odds /\ keys res = keys odds /\
  List.length res = List.length odds.
Proof.
  intros H. pose proof (calculate_stakes_offers odds total_stake res H) as E.
  split; [exact E |]. split.
  - rewrite <- E. unfold keys. rewrite map_map. reflexivity.
  - rewrite <- E. now rewrite length_map.
Qed.

End AllocatorMore.

(** * More on the match normalizer *)

Section NormalizerMore.

Lemma keys_setitem (V : Type) (d : dict V) (k : string) (v : V) :
  keys (setitem d k v) = add_name (keys d) k.
Proof.
  unfold add_name, mem, keys.
  induction d as [| [k' v'] d IH]; [reflexivity |].
  cbn [setitem map fst existsb].
  destruct (String.eqb k k'); [reflexivity |].
  cbn [map fst orb]. rewrite IH.
  destruct (existsb (String.eqb k) (map fst d)); reflexivity.
Qed.

Lemma add_name_seen (seen : list string) (n : string) :
  In n seen -> add_name seen n = seen.
Proof. intros H. unfold add_name. now rewrite (proj2 (mem_In n seen) H). Qed.

Lemma add_name_NoDup (seen : list string) (n : string) :
  NoDup seen -> NoDup (add_name seen n).
Proof.
  intros ND. unfold add_name. destruct (mem n seen) eqn:M; [exact ND |].
  assert (Hn : ~ In n seen).
  { intros C. apply mem_In in C. congruence. }
  clear M. induction ND as [| x l Hx ND IH]; simpl.
  - constructor; [intros [] | constructor].
  - constructor.
    + intros C. apply in_app_or in C. destruct C as [C | [C | []]].
      * contradiction.
      * subst. apply Hn. now left.
    + apply IH. intros C. apply Hn. now right.
Qed.

Lemma add_name_length (seen : list string) (n : string) :
  (List.length (add_name seen n) <= S (List.length seen))%nat.
Proof.
  unfold add_name. destruct (mem n seen); [lia |].
  rewrite length_app. simpl. lia.
Qed.

Lemma keep_best_keys (b : bookmaker) (best best' : odds_map) (o : outcome) :
  keep_best b best o = Ok best' ->
  exists n, name o = Some n /\ keys best' = add_name (keys best) n.
Proof.
  unfold keep_best. destruct (name o) as [n |]; [| discriminate].
  destruct (price o) as [p |]; [| discriminate]. cbn [field bind].
  intros H. exists n. split; [reflexivity |].
  destruct (get best n) as [held |] eqn:G.
  - destruct (fgt p (snd held)).
    + destruct (title b) as [t |]; [| discriminate]. cbn [field bind] in H.
      inversion H; subst. apply keys_setitem.
    + inversion H; subst. symmetry. apply add_name_seen.
      eapply get_in_keys. exact G.
  - destruct (title b) as [t |]; [| discriminate]. cbn [field bind] in H.
    inversion H; subst. apply keys_setitem.
Qed.

Lemma scan_outcomes_keys (b : bookmaker) (os : list outcome) :
  forall best best' : odds_map,
    foldM (keep_best b) best os = Ok best' ->
    keys best' = fold_left add_name (names_of (map (pair b) os)) (keys best).
Proof.
  induction os as [| o os IH]; intros best best' H; simpl in H.
  - now inversion H.
  - destruct (keep_best b best o) as [best1 |] eqn:Hk; [| discriminate].
    cbn [bind] in H. destruct (keep_best_keys b best best1 o Hk) as (n & Hn & K).
    cbn [map names_of flat_map snd]. rewrite Hn. cbn [app fold_left].
    rewrite <- K. now apply IH.
Qed.

Lemma names_of_app (l1 l2 : list (bookmaker * outcome)) :
  names_of (l1 ++ l2) = names_of l1 ++ names_of l2.
Proof. unfold names_of. apply flat_map_app. Qed.

Lemma scan_bookmakers_keys (bs : list bookmaker) :
  forall best best' : odds_map,
    foldM scan_bookmaker best bs = Ok best' ->
    keys best' =
    fold_left add_name (names_of (flat_map quotes_of_bookmaker bs)) (keys best).
Proof.
  induction bs as [| b bs IH]; intros best best' H; simpl in H.
  - now inversion H.
  - destruct (scan_bookmaker best b) as [best1 |] eqn:Hs; [| discriminate].
    cbn [bind] in H. unfold scan_bookmaker in Hs.
    cbn [flat_map]. unfold quotes_of_bookmaker at 1.
    destruct (quoted b) as [os |]; [| discriminate]. cbn [bind] in Hs.
    rewrite names_of_app, fold_left_app.
    rewrite <- (scan_outcomes_keys b os best best1 Hs). now apply IH.
Qed.

Lemma fold_add_name_NoDup (names seen : list string) :
  NoDup seen -> NoDup (fold_left add_name names seen).
Proof.
  revert seen. induction names as [| n names IH]; intros seen ND; [exact ND |].
  simpl. apply IH. now apply add_name_NoDup.
Qed.

Lemma fold_add_name_length (names seen : list string) :
  (List.length (fold_left add_name names seen)
   <= List.length seen + List.length names)%nat.
Proof.
  revert seen. induction names as [| n names IH]; intros seen; simpl; [lia |].
  specialize (IH (add_name seen n)). pose proof (add_name_length seen n). lia.
Qed.

Lemma build_keys (m : raw_match) (best : odds_map) :
  build_best_odds m = Ok best ->
  keys best = first_appearance (names_of (quotes m)).
Proof.
  intros H. pose proof (scan_bookmakers_keys _ [] best H) as K.
  change (keys (@nil (string * (string * float)))) with (@nil string) in K.
  exact K.
Qed.

Lemma build_NoDup (m : raw_match) (best : odds_map) :
  build_best_odds m = Ok best -> NoDup (keys best).
Proof.
  intros H. rewrite (build_keys m best H).
  apply fold_add_name_NoDup. constructor.
Qed.

Lemma names_of_length (qs : list (bookmaker * outcome)) :
  (List.length (names_of qs) <= List.length qs)%nat.
Proof.
  unfold names_of. induction qs as [| q qs IH]; [simpl; lia |].
  cbn [flat_map]. rewrite length_app. cbn [List.length].
  destruct (name (snd q)); simpl; lia.
Qed.

Lemma build_length (m : raw_match) (best : odds_map) :
  build_best_odds m = Ok best ->
  (List.length best <= List.length (quotes m))%nat.
Proof.
  intros H. rewrite <- (length_map fst best). fold (keys best).
  rewrite (build_keys m best H).
  pose proof (fold_add_name_length (names_of (quotes m)) []) as L.
  unfold first_appearance. cbn [List.length Nat.add] in L.
  pose proof (names_of_length (quotes m)). lia.
Qed.

(** X5. The best-odds map of a match holds the quoted outcome names, each
    once, in the order in which the loops first meet them. *)
Theorem best_odds_keys (m : raw_match) (best : odds_map) :
  build_best_odds m = Ok best ->
  keys best = first_appearance (names_of (quotes m)) /\
  NoDup (keys best) /\
  (List.length best <= List.length (quotes m))%nat.
Proof.
  intros H. split; [now apply build_keys |].
  split; [now apply (build_NoDup m) | now apply build_length].
Qed.

(** ** One more bookmaker *)

Lemma never_lower_refl (best : odds_map) : never_lower best best.
Proof. intros n t p G. exists t, p. split; [exact G | now left]. Qed.

Lemma never_lower_trans (a b c : odds_map) :
  never_lower a b -> never_lower b c -> never_lower a c.
Proof.
  intros H1 H2 n t p G.
  destruct (H1 n t p G) as (t1 & p1 & G1 & R1).
  destruct (H2 n t1 p1 G1) as (t2 & p2 & G2 & R2).
  exists t2, p2. split; [exact G2 |].
  destruct R1 as [E1 | L1]; [inversion E1; subst; exact R2 |].
  right. destruct R2 as [E2 | L2]; [now inversion E2; subst |].
  now apply flt_trans with p1.
Qed.

Lemma keep_best_never_lower (b : bookmaker) (best best' : odds_map) (o : outcome) :
  keep_best b best o = Ok best' -> never_lower best best'.
Proof.
  unfold keep_best. destruct (name o) as [n0 |]; [| discriminate].
  destruct (price o) as [p0 |]; [| discriminate]. cbn [field bind].
  assert (Set_case : forall t0,
            (forall held, get best n0 = Some held -> flt (snd held) p0 = true) ->
            never_lower best (setitem best n0 (t0, p0))).
  { intros t0 Hheld n t p G. destruct (string_dec n n0) as [-> | N].
    - exists t0, p0. rewrite get_setitem_same. split; [reflexivity |].
      right. apply (Hheld (t, p) G).
    - exists t, p. rewrite get_setitem_other by assumption.
      split; [exact G | now left]. }
  destruct (get best n0) as [held |] eqn:G0.
  - unfold fgt. destruct (flt (snd held) p0) eqn:Hgt.
    + destruct (title b) as [t0 |]; [| discriminate]. cbn [field bind].
      intros H. inversion H; subst. apply Set_case.
      intros held' E. now inversion E; subst.
    + intros H. inversion H; subst. apply never_lower_refl.
  - destruct (title b) as [t0 |]; [| discriminate]. cbn [field bind].
    intros H. inversion H; subst. apply Set_case. intros held' E. discriminate.
Qed.

Lemma scan_bookmaker_never_lower (best best' : odds_map) (b : bookmaker) :
  scan_bookmaker best b = Ok best' -> never_lower best best'.
Proof.
  unfold scan_bookmaker. destruct (quoted b) as [os |]; [| discriminate].
  cbn [bind]. revert best. induction os as [| o os IH]; intros best H; simpl in H.
  - inversion H; subst. apply never_lower_refl.
  - destruct (keep_best b best o) as [best1 |] eqn:Hk; [| discriminate].
    cbn [bind] in H.
    apply never_lower_trans with best1;
      [now apply (keep_best_never_lower b best best1 o) | now apply IH].
Qed.

Lemma foldM_snoc {A S : Type} (f : S -> A -> result S) (s : S) (l : list A) (x : A) :
  foldM f s (l ++ [x]) = (s' <- foldM f s l ;; f s' x).
Proof.
  revert s. induction l as [| y l IH]; intros s; simpl.
  - destruct (f s x); reflexivity.
  - destruct (f s y) as [s' |]; simpl; [apply IH | reflexivity].
Qed.

(** X6. One more bookmaker at the end of the list never removes an outcome
    from the best-odds map and never lowers a best price: an entry stays
    as it is or is replaced by a strictly higher price. *)
Theorem one_more_bookmaker (m : raw_match) (b : bookmaker) (best' : odds_map) :
  build_best_odds (with_bookmaker b m) = Ok best' ->
  exists best, build_best_odds m = Ok best /\ never_lower best best'.
Proof.
  unfold build_best_odds, with_bookmaker. cbn [bookmakers get_or].
  rewrite foldM_snoc.
  destruct (foldM scan_bookmaker [] (get_or (bookmakers m) [])) as [best |];
    [| discriminate].
  cbn [bind]. intros H. exists best. split; [reflexivity |].
  now apply (scan_bookmaker_never_lower best best' b).
Qed.

(** ** What the stream holds *)

Lemma process_match_yield (now : clock) (inc : bool) (m : raw_match)
    (tick tick' : nat) (r : normalized) :
  process_match now inc m tick = Ok (Some r, tick') ->
  comes_from m r /\ (2 <= List.length (best_odds r))%nat.
Proof.
  unfold process_match, comes_from.
  destruct (commence_time m) as [t |]; [| discriminate]. cbn [field bind].
  destruct (fst (if inc then (false, tick)
                 else (int_lt_float t (now tick), S tick))); [discriminate |].
  destruct (build_best_odds m) as [best |]; [| discriminate]. cbn [bind].
  destruct (Z.ltb_spec (Z.of_nat (List.length best)) 2) as [L | G]; [discriminate |].
  destruct (total_implied best) as [total |] eqn:Ht; [| discriminate]. cbn [bind].
  destruct (of_int t) as [s |]; [| discriminate]. cbn [bind].
  destruct (fdiv _ _) as [h |]; [| discriminate]. cbn [bind].
  destruct (round2 h) as [hours |]; [| discriminate]. cbn [bind].
  intros H. inversion H; subst. cbn.
  split; [| lia]. split; [reflexivity |]. split; [reflexivity |].
  split; [exact Ht |]. split; reflexivity.
Qed.

Lemma stream_member (now : clock) (inc : bool) (ms : list raw_match)
    (tick : nat) (r : normalized) :
  In r (fst (process_data now inc ms tick)) ->
  exists m t t', In m ms /\ process_match now inc m t = Ok (Some r, t').
Proof.
  revert tick. induction ms as [| m ms IH]; intros tick Hin; [contradiction |].
  cbn [process_data] in Hin.
  destruct (process_match now inc m tick) as [[[r0 |] tick'] | e] eqn:Hm.
  - destruct (process_data now inc ms tick') as [rs e'] eqn:Hrest.
    cbn [fst] in Hin. destruct Hin as [<- | Hin].
    + exists m, tick, tick'. split; [now left | exact Hm].
    + specialize (IH tick'). rewrite Hrest in IH.
      destruct (IH Hin) as (m' & t & t' & Hm' & H').
      exists m', t, t'. split; [now right | exact H'].
  - destruct (IH tick' Hin) as (m' & t & t' & Hm' & H').
    exists m', t, t'. split; [now right | exact H'].
  - contradiction.
Qed.

(** X7. Every record of the stream is what one of the input matches is
    normalized to: its start time, league, name, best odds and total
    implied odds are those of that match, and its best-odds map holds at
    least two outcomes, no outcome twice. *)
Theorem stream_records (now : clock) (inc : bool) (ms : list raw_match)
    (tick : nat) (r : normalized) :
  In r (fst (process_data now inc ms tick)) ->
  exists m, In m ms /\ comes_from m r /\
            (2 <= List.length (best_odds r))%nat /\
            NoDup (keys (best_odds r)).
Proof.
  intros Hin.
  destruct (stream_member now inc ms tick r Hin) as (m & t & t' & Hm & E).
  exists m. split; [exact Hm |].
  destruct (process_match_yield now inc m t t' r E) as [C L].
  split; [exact C |]. split; [exact L |].
  destruct C as (_ & B & _). apply (build_NoDup m _ B).
Qed.

(** X8. The records yielded for the first matches of the input are yielded
    whatever follows them, and once a match has raised, the matches after
    it are never looked at. *)
Theorem stream_prefix (now : clock) (inc : bool) (ms rest : list raw_match)
    (tick : nat) :
  exists more,
    fst (process_data now inc (ms ++ rest) tick) =
      fst (process_data now inc ms tick) ++ more /\
    (forall e, snd (process_data now inc ms tick) = Some e ->
               process_data now inc (ms ++ rest) tick =
               process_data now inc ms tick).
Proof.
  revert tick. induction ms as [| m ms IH]; intros tick.
  - exists (fst (process_data now inc rest tick)). split; [reflexivity |].
    intros e H. discriminate.
  - cbn [app process_data].
    destruct (process_match now inc m tick) as [[[r0 |] tick'] | e0].
    + destruct (IH tick') as (more & E & R).
      destruct (process_data now inc ms tick') as [rs e1].
      destruct (process_data now inc (ms ++ rest) tick') as [rs' e1'].
      cbn [fst snd] in *. exists more. split; [now rewrite E |].
      intros e H. specialize (R e H). now inversion R; subst.
    + apply IH.
    + exists []. split; [reflexivity |]. reflexivity.
Qed.

End NormalizerMore.

(** * With started matches included, the clock only sets the hours *)

Section ClockFree.

Lemma round64_fin_abs (x y : Q) : round64 x = FFin y -> (Qabs y <= pow2 1024)%Q.
Proof.
  pose proof (pow2_pos 1024) as P.
  unfold round64. destruct (Qcompare x 0) eqn:C.
  - intros H. apply FFin_inj in H. subst y. apply Qabs_Qle_condition.
    split; lra.
  - apply Qlt_alt in C.
    assert (V : (0 <= round_mag (- x))%Q) by (apply FloatFacts.round_mag_nonneg; lra).
    destruct (Qle_bool (pow2 emax) (round_mag (- x))) eqn:L; [discriminate |].
    apply FloatFacts.Qle_bool_false in L. unfold emax in L.
    intros H. apply FFin_inj in H. subst y. apply Qabs_Qle_condition.
    rewrite Qred_correct. split; lra.
  - apply Qgt_alt in C.
    assert (V : (0 <= round_mag x)%Q) by (apply FloatFacts.round_mag_nonneg; lra).
    destruct (Qle_bool (pow2 emax) (round_mag x)) eqn:L; [discriminate |].
    apply FloatFacts.Qle_bool_false in L. unfold emax in L.
    intros H. apply FFin_inj in H. subst y. apply Qabs_Qle_condition.
    rewrite Qred_correct. split; lra.
Qed.

(** once the start time is a float, the hours to start are computed
    without an exception, whatever the clock reads *)
Lemma hours_total (t : Z) (s x : float) :
  of_int t = Ok s ->
  exists h hours,
    fdiv (fsub s x) (FFin 3600) = Ok h /\ round2 h = Ok hours.
Proof.
  unfold of_int. destruct (round64 (inject_Z t)) as [q | |]; try discriminate.
  intros H. inversion H; subst s. clear H.
  assert (Inf : forall b, exists h hours,
            fdiv (FInf b) (FFin 3600) = Ok h /\ round2 h = Ok hours).
  { intros b. exists (FInf (xorb b (is_neg (FFin 3600)))), (FInf (xorb b (is_neg (FFin 3600)))).
    split; reflexivity. }
  destruct x as [xq | b |].
  - rewrite FloatFacts.fsub_fin.
    destruct (round64 (q + Qred (- xq))) as [d | b |] eqn:Ed.
    + apply round64_fin_abs in Ed. apply Qabs_Qle_condition in Ed.
      assert (S : (pow2 1024 == pow2 1013 * 2048)%Q).
      { change 1024%Z with (1013 + 11)%Z. rewrite FloatFacts.pow2_add. reflexivity. }
      pose proof (FloatFacts.pow2_pos 1013) as P.
      assert (Hq : (Qabs (d / 3600) <= pow2 1013)%Q).
      { apply Qabs_Qle_condition. split.
        - apply Qle_shift_div_l; lra.
        - apply Qle_shift_div_r; lra. }
      destruct (FloatFacts.round64_finite _ 1013 Hq ltac:(lia)) as (h & Eh & H1 & _).
      destruct (round2_finite h 1013 H1 ltac:(lia)) as [r Er].
      exists (FFin h), (FFin r). split; [| exact Er].
      unfold fdiv. change (is_zero (FFin 3600)) with false. now rewrite Eh.
    + apply Inf.
    + pose proof (FloatFacts.round64_not_nan (q + Qred (- xq))) as N.
      rewrite Ed in N. discriminate.
  - apply (Inf (negb b)).
  - exists FNan, FNan. split; reflexivity.
Qed.

Lemma process_match_clock_free (now now' : clock) (m : raw_match)
    (tick tick' : nat) :
  match process_match now true m tick, process_match now' true m tick' with
  | Ok (Some r, _), Ok (Some r', _) => timeless r = timeless r'
  | Ok (None, _), Ok (None, _) => True
  | Raise e, Raise e' => e = e'
  | _, _ => False
  end.
Proof.
  unfold process_match.
  destruct (commence_time m) as [t |]; cbn [field bind fst snd]; [| reflexivity].
  destruct (build_best_odds m) as [best |]; cbn [bind]; [| reflexivity].
  destruct (Z.of_nat (List.length best) <? 2)%Z; [exact I |].
  destruct (total_implied best) as [total |]; cbn [bind]; [| reflexivity].
  destruct (of_int t) as [s |] eqn:Es; cbn [bind]; [| reflexivity].
  destruct (hours_total t s (now tick) Es) as (h & hours & E1 & E2).
  destruct (hours_total t s (now' tick') Es) as (h' & hours' & E1' & E2').
  rewrite E1, E1'. cbn [bind]. rewrite E2, E2'. reflexivity.
Qed.

Lemma stream_clock_free (now now' : clock) (ms : list raw_match)
    (tick tick' : nat) :
  map timeless (fst (process_data now true ms tick)) =
  map timeless (fst (process_data now' true ms tick')) /\
  snd (process_data now true ms tick) = snd (process_data now' true ms tick').
Proof.
  revert tick tick'. induction ms as [| m ms IH]; intros tick tick'.
  - split; reflexivity.
  - cbn [process_data].
    pose proof (process_match_clock_free now now' m tick tick') as R.
    destruct (process_match now true m tick) as [[[r |] t1] | e];
      destruct (process_match now' true m tick') as [[[r' |] t1'] | e'];
      try contradiction.
    + destruct (IH t1 t1') as [F S].
      destruct (process_data now true ms t1) as [rs e1].
      destruct (process_data now' true ms t1') as [rs' e1'].
      cbn [fst snd map] in *. split; [now rewrite R, F | exact S].
    + apply IH.
    + subst e'. split; reflexivity.
Qed.

(** X9. With started matches included, the clock decides nothing but the
    hours to start: under any two clocks the stream holds the same records
    in the same order, up to that one field, and ends with the same
    exception or with none. *)
Theorem clock_only_sets_hours (now now' : clock) (ms : list raw_match)
    (tick tick' : nat) :
  map timeless (fst (process_data now true ms tick)) =
  map timeless (fst (process_data now' true ms tick')) /\
  snd (process_data now true ms tick) = snd (process_data now' true ms tick').
Proof. apply stream_clock_free. Qed.

End ClockFree.

(** * The detector and the exact implied odds *)

Section Detector.

Local Open Scope Q_scope.

Lemma flt_fle_trans (a b c : float) :
  flt a b = true -> fle b c = true -> flt a c = true.
Proof. intros H1 H2. float_order. Qed.

Lemma threshold_antitone (c c' : float) :
  fle c c' = true -> fle (fsub (FFin 1) c') (fsub (FFin 1) c) = true.
Proof.
  intros H. destruct c as [x | [|] |], c' as [y | [|] |];
    try discriminate; try reflexivity.
  - rewrite !fsub_fin. apply round64_mono. rewrite !Qred_correct.
    apply fle_fin in H. lra.
  - cbn [fsub fneg fadd negb].
    pose proof (round64_not_nan (1 + Qred (- x))) as N.
    destruct (round64 (1 + Qred (- x))) as [z | [|] |]; try reflexivity; discriminate.
  - cbn [fsub fneg fadd negb].
    pose proof (round64_not_nan (1 + Qred (- y))) as N.
    destruct (round64 (1 + Qred (- y))) as [z | [|] |]; try reflexivity; discriminate.
Qed.

(** X10. A higher cutoff flags fewer matches: whatever is flagged under a
    cutoff is flagged under every lower one. The threshold [1 - cutoff] is
    rounded, and the rounding keeps the order. *)
Theorem higher_cutoff_flags_fewer (cutoff cutoff' : float) (ms : list normalized) :
  fle cutoff cutoff' = true ->
  incl (opportunities cutoff' ms) (opportunities cutoff ms).
Proof.
  intros H m Hin. unfold opportunities in *.
  apply filter_In in Hin as [I Q]. apply filter_In. split; [exact I |].
  unfold qualifies in *. apply andb_true_iff in Q as [Q1 Q2].
  rewrite Q1. cbn [andb].
  apply flt_fle_trans with (fsub (FFin 1) cutoff'); [exact Q2 |].
  now apply threshold_antitone.
Qed.

Lemma sumQ_close (k : nat) (f : string * float -> Q) (l : list (string * float))
    (l' : list float) :
  Forall2 (fun a b => close k (f a) (fval b)) l l' ->
  close k (sumQ (map f l)) (sumQ (map fval l')).
Proof.
  induction 1 as [| a b l l' Hab _ IH].
  - change (sumQ (map f [])) with 0. change (sumQ (map fval [])) with 0.
    unfold close. split; lra.
  - change (sumQ (map f (a :: l))) with (f a + sumQ (map f l)).
    change (sumQ (map fval (b :: l'))) with (fval b + sumQ (map fval l')).
    now apply close_add.
Qed.

Lemma implied_sum_values (best : odds_map) :
  implied_sum best = sumQ (map (fun d : string * float => / fval (snd d)) (values best)).
Proof. unfold implied_sum, values. now rewrite map_map. Qed.

Lemma implied_sum_pos (best : odds_map) :
  bounded_prices best -> best <> [] -> 0 < implied_sum best.
Proof.
  intros Hb Hne. unfold implied_sum.
  assert (H : forall l : odds_map,
            (forall e, In e l -> 0 < / fval (snd (snd e))) -> l <> [] ->
            0 < sumQ (map (fun e : string * (string * float) => / fval (snd (snd e))) l)).
  { induction l as [| e l IH]; intros P N; [congruence |].
    change (sumQ (map (fun e : string * (string * float) => / fval (snd (snd e))) (e :: l)))
      with (/ fval (snd (snd e)) +
            sumQ (map (fun e : string * (string * float) => / fval (snd (snd e))) l)).
    pose proof (P e (or_introl eq_refl)) as Pe.
    destruct l as [| e' l'].
    - change (sumQ (map (fun e : string * (string * float) => / fval (snd (snd e))) []))
        with 0. lra.
    - assert (0 < sumQ (map (fun e : string * (string * float) => / fval (snd (snd e)))
                            (e' :: l'))).
      { apply IH; [| discriminate]. intros x Hx. apply P. now right. }
      lra. }
  apply H; [| exact Hne].
  intros [n [t p]] Hin. destruct (Hb n t p Hin) as (q & -> & Q1 & _).
  cbn [snd fval]. pose proof (pow2_pos (- price_exp)). apply Qinv_lt_0_compat. lra.
Qed.

(** the float the normalizer computes for the implied odds, against their
    exact value *)
Lemma total_implied_close (best : odds_map) :
  best <> [] ->
  bounded_prices best ->
  (Z.of_nat (List.length best) <= 2 ^ 52)%Z ->
  exists W, total_implied best = Ok (FFin W) /\
            close (S (List.length best)) (implied_sum best) W /\
            pow2 (- price_exp - 1) <= W.
Proof.
  intros Hne Hb Hn. unfold total_implied.
  destruct (mapM_total_rel
              (fun data : string * float => fdiv (FFin 1) (snd data))
              (fun data y => fin_within (- price_exp) price_exp y /\
                             close 1 (/ fval (snd data)) (fval y))
              (values best)) as (inv & E & F).
  { intros [t p] Hin. unfold values in Hin. apply in_map_iff in Hin.
    destruct Hin as ([n [t' p']] & Ex & Hin). cbn [snd] in Ex. inversion Ex; subst.
    destruct (Hb n t p Hin) as (q & -> & Q1 & Q2). cbn [snd fval].
    destruct (fdiv_within 1 q 0 0 _ _ (Qle_refl _) (Qle_refl _) Q1 Q2
                ltac:(unfold price_exp; lia) ltac:(unfold price_exp; lia))
      as (y & Ey & Y1 & Y2 & Yc).
    exists (FFin y). split; [exact Ey |]. split.
    - exists y. split; [reflexivity |].
      replace (0 - price_exp)%Z with (- price_exp)%Z in Y1 by lia.
      replace (0 - - price_exp)%Z with price_exp in Y2 by lia. auto.
    - cbn [fval]. unfold close in *. unfold Qdiv in Yc.
      rewrite Qmult_1_l in Yc. exact Yc. }
  rewrite E. cbn [bind].
  assert (Lw : List.length inv = List.length best).
  { rewrite <- (Forall2_length F). unfold values. apply length_map. }
  assert (Hw : Forall (fin_within (- price_exp) price_exp) inv).
  { eapply Forall2_Forall_r; [| exact F]. now intros a b [H _]. }
  assert (Hwne : inv <> []).
  { destruct inv; [destruct best; [congruence | discriminate Lw] | discriminate]. }
  destruct (sum_close inv Hw Hwne) as (W & EW & CW & W1 & _).
  { now rewrite Lw. }
  exists W. split; [now rewrite EW |]. split; [| exact W1].
  rewrite Lw in CW. rewrite implied_sum_values.
  change (S (List.length best)) with (1 + List.length best)%nat.
  apply close_trans with (sumQ (map fval inv)); [| exact CW].
  apply sumQ_close. eapply Forall2_impl; [| exact F]. now intros a b [_ H].
Qed.

Lemma of_nat_succ_Q (n : nat) :
  inject_Z (Z.of_nat (S n)) == inject_Z (Z.of_nat n) + 1.
Proof. rewrite Nat2Z.inj_succ. unfold Z.succ. now rewrite inject_Z_plus. Qed.

Lemma count_times_u (n : nat) :
  (Z.of_nat n <= 2 ^ 52)%Z ->
  0 <= inject_Z (Z.of_nat n) /\ inject_Z (Z.of_nat n) * u <= 1 # 2.
Proof.
  intros H. split.
  - change 0 with (inject_Z 0). rewrite <- Zle_Qle. lia.
  - assert (E : inject_Z (2 ^ 52) * u == 1 # 2) by reflexivity.
    rewrite Zle_Qle in H. pose proof u_bounds as [U0 _]. nra.
Qed.

Lemma round64_pow2 (e : Z) :
  (-1074 <= e <= 1023)%Z -> exists y, round64 (pow2 e) = FFin y /\ y == pow2 e.
Proof.
  intros He. apply round64_exact; [| apply pow2_le; lia].
  exists 1%Z, e. split; [| lia]. change (inject_Z 1) with 1. ring.
Qed.

(** X11. A flagged match is a sure bet in exact arithmetic, as soon as the
    cutoff covers the rounding of the implied odds: for a record whose
    total implied odds were computed from its best odds, with [n] outcomes
    at prices from 2^-400 to 2^400 and a cutoff of at least [(n + 2) * 2^-53],
    the reciprocals of the best prices add up to less than 1. *)
Theorem flagged_is_sure_bet (c : Q) (r : normalized) :
  total_implied (best_odds r) = Ok (total_implied_odds r) ->
  bounded_prices (best_odds r) ->
  (Z.of_nat (List.length (best_odds r)) <= 2 ^ 52)%Z ->
  (inject_Z (Z.of_nat (List.length (best_odds r))) + 2) * u <= c ->
  qualifies (FFin c) r = true ->
  implied_sum (best_odds r) < 1.
Proof.
  intros Et Hb Hn Hc Hq. unfold qualifies in Hq.
  apply andb_true_iff in Hq as [Q1 Q2].
  destruct (best_odds r) as [| e0 best0] eqn:Eb.
  { cbn in Et. inversion Et as [E0]. rewrite <- E0 in Q1. discriminate. }
  rewrite <- Eb in *.
  assert (Hne : best_odds r <> []) by (rewrite Eb; discriminate).
  destruct (total_implied_close (best_odds r) Hne Hb Hn) as (W & EW & [C1 _] & W1).
  rewrite EW in Et. inversion Et as [E0]. rewrite <- E0 in Q2. clear Q1 E0 Et.
  set (n := List.length (best_odds r)) in *.
  destruct (count_times_u n Hn) as [N0 N1].
  pose proof u_bounds as [U0 U1].
  pose proof (implied_sum_pos (best_odds r) Hb Hne) as S0.
  pose proof (rpow_bernoulli (S n)) as B. rewrite of_nat_succ_Q in B.
  set (N := inject_Z (Z.of_nat n)) in *.
  set (Sm := implied_sum (best_odds r)) in *.
  assert (C0 : 0 < c) by nra.
  rewrite fsub_fin in Q2.
  assert (Hx : 1 + Qred (- c) == 1 - c) by (rewrite Qred_correct; ring).
  rewrite (round64_comp _ _ Hx) in Q2.
  assert (P : pow2 (- price_exp - 1) < pow2 (- price_exp)) by (apply pow2_lt; lia).
  destruct (Qlt_le_dec (1 - c) (pow2 (- price_exp - 1))) as [Small | Big].
  - (* the threshold is below every sum of reciprocals *)
    exfalso.
    destruct (round64_pow2 (- price_exp - 1) ltac:(unfold price_exp; lia)) as (y & Ey & Yq).
    pose proof (round64_mono (1 - c) (pow2 (- price_exp - 1)) ltac:(lra)) as M.
    rewrite Ey in M.
    pose proof (flt_fle_trans _ _ _ Q2 M) as L. cbn [flt] in L.
    apply negb_true_iff, Qle_bool_false in L. lra.
  - destruct (round64_bounds (1 - c) (- price_exp - 1) 0 Big
                ltac:(change (pow2 0) with 1; lra)
                ltac:(unfold price_exp; lia) ltac:(lia))
      as (y & Ey & _ & _ & Yr).
    destruct (Yr ltac:(unfold emin, price_exp; lia)) as [_ Y2].
    rewrite Ey in Q2. cbn [flt] in Q2.
    apply negb_true_iff, Qle_bool_false in Q2.
    assert (D0 : 0 < 1 - (N + 1) * u) by nra.
    assert (L1 : Sm * (1 - (N + 1) * u) <= W).
    { apply Qle_trans with (Sm * rpow (S n)); [| exact C1]. nra. }
    assert (L2 : (1 - c) * (1 + u) <= 1 - (N + 1) * u) by nra.
    assert (L3 : Sm * (1 - (N + 1) * u) < 1 * (1 - (N + 1) * u)) by lra.
    apply Qmult_lt_r in L3; [exact L3 | exact D0].
Qed.

(** X12. No sure bet with a margin is missed: when the reciprocals of the
    best prices add up to less than [(1 - cutoff) * (1 - (n + 2) * 2^-53)],
    for a cutoff that is not negative, the record is flagged. *)
Theorem sure_bet_is_flagged (c : Q) (r : normalized) :
  total_implied (best_odds r) = Ok (total_implied_odds r) ->
  best_odds r <> [] ->
  bounded_prices (best_odds r) ->
  (Z.of_nat (List.length (best_odds r)) <= 2 ^ 52)%Z ->
  0 <= c ->
  implied_sum (best_odds r) <
    (1 - c) * (1 - (inject_Z (Z.of_nat (List.length (best_odds r))) + 2) * u) ->
  qualifies (FFin c) r = true.
Proof.
  intros Et Hne Hb Hn C0 Hs.
  destruct (total_implied_close (best_odds r) Hne Hb Hn) as (W & EW & [_ C2] & W1).
  rewrite EW in Et. inversion Et as [E0]. clear Et.
  set (n := List.length (best_odds r)) in *.
  destruct (count_times_u n Hn) as [N0 N1].
  pose proof u_bounds as [U0 U1].
  pose proof (implied_sum_pos (best_odds r) Hb Hne) as S0.
  pose proof (rpow_bernoulli (S (S n))) as B. rewrite !of_nat_succ_Q in B.
  pose proof (rpow_pos (S n)) as R0. pose proof (rpow_le_1 (S n)) as R1.
  set (N := inject_Z (Z.of_nat n)) in *.
  set (Sm := implied_sum (best_odds r)) in *.
  pose proof (pow2_pos (- price_exp - 1)) as P1.
  assert (W0 : 0 < W) by lra.
  assert (D0 : 0 < 1 - (N + 2) * u).
  { assert (u <= 1 # 8) by (change (1 # 8) with (pow2 (-3)); apply pow2_le; lia).
    nra. }
  assert (X0 : 0 < 1 - c).
  { destruct (Qlt_le_dec 0 (1 - c)) as [H | H]; [exact H |]. exfalso. nra. }
  assert (X1 : Sm < 1 - c).
  { assert (0 <= (1 - c) * ((N + 2) * u)).
    { apply Qmult_le_0_compat; [lra |]. apply Qmult_le_0_compat; lra. }
    lra. }
  unfold qualifies. rewrite <- E0. cbn [flt].
  assert (Z0 : Qle_bool W 0 = false) by (apply Qle_bool_false; exact W0).
  rewrite Z0. cbn [negb andb].
  rewrite fsub_fin.
  assert (Hx : 1 + Qred (- c) == 1 - c) by (rewrite Qred_correct; ring).
  rewrite (round64_comp _ _ Hx).
  assert (U8 : u <= 1 # 8) by (change (1 # 8) with (pow2 (-3)); apply pow2_le; lia).
  assert (Rq : 1 # 4 <= rpow (S n)).
  { pose proof (rpow_bernoulli (S n)) as B1. rewrite of_nat_succ_Q in B1.
    fold N in B1. lra. }
  assert (Wl : W * (1 # 4) <= Sm) by nra.
  assert (P2 : pow2 (- price_exp - 3) <= 1 - c).
  { assert (E2 : pow2 (- price_exp - 1) == pow2 (- price_exp - 3) * 4).
    { replace (- price_exp - 1)%Z with (- price_exp - 3 + 2)%Z by lia.
      rewrite pow2_add. reflexivity. }
    pose proof (pow2_pos (- price_exp - 3)). lra. }
  destruct (round64_bounds (1 - c) (- price_exp - 3) 0 P2
              ltac:(change (pow2 0) with 1; lra)
              ltac:(unfold price_exp; lia) ltac:(lia))
    as (y & Ey & _ & _ & Yr).
  destruct (Yr ltac:(unfold emin, price_exp; lia)) as [Y1 _].
  rewrite Ey. cbn [flt]. apply negb_true_iff, Qle_bool_false.
  assert (L1 : W * rpow (S n) < (1 - c) * (1 - (N + 2) * u)) by lra.
  assert (L2 : (1 - c) * (1 - (N + 2) * u) <= (1 - c) * rpow (S (S n))).
  { apply Qmult_le_l; [exact X0 |]. lra. }
  assert (L3 : (1 - c) * rpow (S (S n)) == ((1 - c) * (1 - u)) * rpow (S n)).
  { change (rpow (S (S n))) with ((1 - u) * rpow (S n)). ring. }
  assert (L4 : W * rpow (S n) < y * rpow (S n)) by nra.
  apply Qmult_lt_r in L4; [exact L4 | exact R0].
Qed.

End Detector.

(** * The scan *)

Section Pipeline.

(** ** What can end the stream *)

Lemma foldM_raise {A S : Type} (f : S -> A -> result S) (l : list A) (e : exn) :
  forall s, foldM f s l = Raise e -> exists s' x, In x l /\ f s' x = Raise e.
Proof.
  induction l as [| x l IH]; intros s H; simpl in H; [discriminate |].
  destruct (f s x) as [s1 | e1] eqn:Hx; cbn [bind] in H.
  - destruct (IH s1 H) as (s' & x' & Hin & Hx').
    exists s', x'. split; [now right | exact Hx'].
  - inversion H; subst e1. exists s, x. split; [now left | exact Hx].
Qed.

Lemma keep_best_raises (b : bookmaker) (best : odds_map) (o : outcome) (e : exn) :
  keep_best b best o = Raise e ->
  e = KeyError "name" \/ e = KeyError "price" \/ e = KeyError "title".
Proof.
  unfold keep_best.
  destruct (name o) as [n |]; cbn [field bind];
    [| intros H; inversion H; auto].
  destruct (price o) as [p |]; cbn [field bind];
    [| intros H; inversion H; auto].
  destruct (get best n) as [held |].
  - destruct (fgt p (snd held)); [| discriminate].
    destruct (title b); cbn [field bind]; [discriminate |].
    intros H; inversion H; auto.
  - destruct (title b); cbn [field bind]; [discriminate |].
    intros H; inversion H; auto.
Qed.

Lemma quoted_raises (b : bookmaker) (e : exn) : quoted b = Raise e -> e = IndexError.
Proof.
  unfold quoted. destruct (get_or (markets b) _) as [| m ms]; cbn [first bind].
  - intros H. now inversion H.
  - discriminate.
Qed.

Lemma build_raises (m : raw_match) (e : exn) :
  build_best_odds m = Raise e ->
  e = IndexError \/
  e = KeyError "name" \/ e = KeyError "price" \/ e = KeyError "title".
Proof.
  unfold build_best_odds. intros H. apply foldM_raise in H.
  destruct H as (best & b & _ & Hb). unfold scan_bookmaker in Hb.
  destruct (quoted b) as [os | e1] eqn:Hq; cbn [bind] in Hb.
  - right. apply foldM_raise in Hb. destruct Hb as (best' & o & _ & Ho).
    now apply keep_best_raises in Ho.
  - left. inversion Hb; subst e1. now apply quoted_raises in Hq.
Qed.

Lemma total_implied_raises (best : odds_map) (e : exn) :
  total_implied best = Raise e -> e = ZeroDivisionError.
Proof.
  unfold total_implied.
  destruct (mapM _ (values best)) as [inv | e1] eqn:Hm; cbn [bind]; [discriminate |].
  intros H. inversion H; subst e1. apply mapM_raise in Hm.
  destruct Hm as (x & _ & Hx). now apply fdiv_raises in Hx.
Qed.

Lemma process_match_raises (now : clock) (inc : bool) (m : raw_match)
    (tick : nat) (e : exn) :
  process_match now inc m tick = Raise e ->
  e = KeyError "commence_time" \/ e = KeyError "name" \/ e = KeyError "price" \/
  e = KeyError "title" \/ e = IndexError \/ e = ZeroDivisionError \/
  e = OverflowError.
Proof.
  unfold process_match.
  destruct (commence_time m) as [t |]; cbn [field bind];
    [| intros H; inversion H; auto].
  destruct (fst (if inc then (false, tick)
                 else (int_lt_float t (now tick), S tick))); [discriminate |].
  destruct (build_best_odds m) as [best | e1] eqn:Hb; cbn [bind].
  - destruct (Z.of_nat (List.length best) <? 2)%Z; [discriminate |].
    destruct (total_implied best) as [total | e2] eqn:Ht; cbn [bind].
    + destruct (of_int t) as [s | e3] eqn:Hs; cbn [bind].
      * match goal with
        | |- context [fsub s ?x] =>
            destruct (hours_total t s x Hs) as (h & hours & E1 & E2)
        end.
        rewrite E1. cbn [bind]. rewrite E2. cbn [bind]. discriminate.
      * intros H. inversion H; subst e3. apply of_int_raises in Hs. tauto.
    + intros H. inversion H; subst e2. apply total_implied_raises in Ht. tauto.
  - intros H. inversion H; subst e1. apply build_raises in Hb. tauto.
Qed.

(** X13. The stream can only end with a [KeyError] for a missing
    [commence_time], [name], [price] or [title], an [IndexError] for an
    empty market list, a [ZeroDivisionError] for a best price of zero, or
    an [OverflowError] for a start time too large for a float. *)
Theorem stream_exceptions (now : clock) (inc : bool) (ms : list raw_match)
    (tick : nat) (e : exn) :
  snd (process_data now inc ms tick) = Some e ->
  e = KeyError "commence_time" \/ e = KeyError "name" \/ e = KeyError "price" \/
  e = KeyError "title" \/ e = IndexError \/ e = ZeroDivisionError \/
  e = OverflowError.
Proof.
  revert tick. induction ms as [| m ms IH]; intros tick H; [discriminate |].
  cbn [process_data] in H.
  destruct (process_match now inc m tick) as [[[r |] tick'] | e1] eqn:Hm.
  - specialize (IH tick'). destruct (process_data now inc ms tick') as [rs e2].
    cbn [snd] in *. now apply IH.
  - now apply (IH tick').
  - cbn [snd] in H. inversion H; subst e1.
    now apply (process_match_raises now inc m tick).
Qed.

(** ** A flagged record in the allocator *)

Lemma sum_fin_all (l : list float) :
  forall (acc : float) (W : Q),
    fold_left fadd l acc = FFin W ->
    (exists a, acc = FFin a) /\ Forall (fun x => exists q, x = FFin q) l.
Proof.
  induction l as [| x l IH]; intros acc W H; simpl in H.
  - split; [now exists W | constructor].
  - destruct (IH _ _ H) as [(a & Ha) Hl].
    destruct acc as [p | s1 |], x as [q | s2 |]; cbn [fadd] in Ha;
      try discriminate.
    + split; [now exists p |]. constructor; [now exists q | exact Hl].
    + destruct (Bool.eqb s1 s2); discriminate.
Qed.

(** the allocator divides by the float the normalizer stored *)
Lemma total_is_inverse_sum (best : odds_map) (W : float) :
  total_implied best = Ok W ->
  exists inverse, inverse_odds best = Ok inverse /\ sum (values inverse) = W.
Proof.
  unfold total_implied, inverse_odds, values.
  destruct (mapM (fun data : string * float => fdiv (FFin 1) (snd data))
                 (map snd best)) as [inv |] eqn:Hm; cbn [bind]; [| discriminate].
  intros H. inversion H; subst W. clear H.
  assert (G : exists inverse,
            mapM (fun item : string * (string * float) =>
                    inv <- fdiv (FFin 1) (snd (snd item)) ;; Ok (fst item, inv))
                 best = Ok inverse /\ map snd inverse = inv).
  { revert inv Hm. induction best as [| [n d] best IH]; intros inv Hm; simpl in Hm.
    - inversion Hm. now exists [].
    - cbn [mapM fst snd].
      destruct (fdiv (FFin 1) (snd d)) as [w |]; cbn [bind] in *; [| discriminate].
      destruct (mapM (fun data : string * float => fdiv (FFin 1) (snd data))
                     (map snd best)) as [inv' |]; cbn [bind] in Hm; [| discriminate].
      inversion Hm; subst inv. destruct (IH inv' eq_refl) as (inverse & E & V).
      rewrite E. cbn [bind]. exists ((n, w) :: inverse). split; [reflexivity |].
      cbn [map snd]. now rewrite V. }
  destruct G as (inverse & E & V). exists inverse. split; [exact E |]. now rewrite V.
Qed.

Lemma flagged_total (cutoff : float) (r : normalized) :
  qualifies cutoff r = true ->
  exists w, total_implied_odds r = FFin w /\ (0 < w)%Q.
Proof.
  unfold qualifies. intros H. apply andb_true_iff in H as [H1 H2].
  destruct (total_implied_odds r) as [w | [|] |]; try discriminate.
  - exists w. split; [reflexivity |]. cbn [flt] in H1.
    now apply negb_true_iff, Qle_bool_false in H1.
  - destruct (fsub (FFin 1) cutoff) as [x | [|] |]; discriminate.
Qed.

Lemma of_int_1000 : of_int 1000 = Ok (FFin 1000).
Proof. vm_compute. reflexivity. Qed.

Lemma ideal_shares_numbers (inverse : dict float) (W : Q) :
  sum (values inverse) = FFin W -> (0 < W)%Q ->
  exists ideal, ideal_stakes inverse 1000 = Ok ideal /\
                Forall (fun e : string * float => is_nan (snd e) = false) ideal.
Proof.
  intros Hs HW. unfold ideal_stakes. rewrite Hs.
  destruct (sum_fin_all _ _ _ Hs) as [_ Hfin].
  destruct (mapM_total_rel
              (fun item : string * float =>
                 w <- fdiv (snd item) (FFin W) ;;
                 t <- of_int 1000 ;;
                 Ok (fst item, fmul w t))
              (fun _ res => is_nan (snd res) = false)
              inverse) as (ideal & E & F).
  { intros [k x] Hin. cbn [fst snd].
    assert (Hx : exists q, x = FFin q).
    { rewrite Forall_forall in Hfin. apply Hfin. unfold values.
      change x with (snd (k, x)). now apply in_map. }
    destruct Hx as (q & ->).
    assert (Z0 : is_zero (FFin W) = false).
    { cbn [is_zero]. destruct (Qeq_bool W 0) eqn:EW; [| reflexivity].
      apply Qeq_bool_iff in EW. lra. }
    unfold fdiv. rewrite Z0. cbn [bind]. rewrite of_int_1000. cbn [bind].
    eexists. split; [reflexivity |]. cbn [snd].
    pose proof (round64_not_nan (q / W)) as N.
    destruct (round64 (q / W)) as [y | b |]; [| reflexivity | discriminate].
    cbn [fmul]. apply round64_not_nan. }
  exists ideal. split; [exact E |].
  eapply Forall2_Forall_r; [| exact F]. now intros a b H.
Qed.

Lemma rounded_stakes_overflow (ideal : dict float) (e : exn) :
  Forall (fun e : string * float => is_nan (snd e) = false) ideal ->
  rounded_stakes ideal = Raise e -> e = OverflowError.
Proof.
  intros Hn H. apply mapM_raise in H. destruct H as ([k x] & Hin & Hx).
  rewrite Forall_forall in Hn. specialize (Hn _ Hin). cbn [fst snd] in *.
  destruct x as [q | b |]; cbn [to_int bind] in Hx; try discriminate.
  now inversion Hx.
Qed.

Lemma calculate_stakes_length (odds : odds_map) (total_stake : Z)
    (res : allocation) :
  calculate_stakes odds total_stake = Ok res ->
  List.length res = List.length odds.
Proof.
  intros H. pose proof (calculate_stakes_offers odds total_stake res H) as E.
  rewrite <- E. now rewrite length_map.
Qed.

Lemma report_match_inv (m : normalized) (rep : report) :
  report_match m = Ok rep ->
  for_match rep = m /\
  calculate_stakes (best_odds m) 1000 = Ok (allocated rep) /\
  py_min (map profit_of (allocated rep)) = Ok (fst (profit_range rep)) /\
  py_max (map profit_of (allocated rep)) = Ok (snd (profit_range rep)).
Proof.
  unfold report_match.
  destruct (calculate_stakes (best_odds m) 1000) as [res |]; cbn [bind];
    [| discriminate].
  destruct (py_min (map profit_of res)) as [lo |] eqn:Hlo; cbn [bind];
    [| discriminate].
  destruct (py_max (map profit_of res)) as [hi |] eqn:Hhi; cbn [bind];
    [| discriminate].
  intros H. inversion H; subst rep. cbn. auto.
Qed.

Lemma flagged_failure_is_overflow_aux (cutoff : float) (r : normalized) (e : exn) :
  total_implied (best_odds r) = Ok (total_implied_odds r) ->
  NoDup (keys (best_odds r)) ->
  qualifies cutoff r = true ->
  report_match r = Raise e ->
  e = OverflowError.
Proof.
  intros Et ND Hq H.
  destruct (flagged_total cutoff r Hq) as (w & Ew & W0).
  destruct (total_is_inverse_sum _ _ Et) as (inverse & H1 & Hs).
  rewrite Ew in Hs.
  destruct (ideal_shares_numbers inverse w Hs W0) as (ideal & H2 & Hn).
  assert (K1 : keys ideal = keys (best_odds r)).
  { rewrite (aligned_keys _ _ _ (ideal_stakes_aligned _ _ _ H2)).
    apply (aligned_keys _ _ _ (inverse_odds_aligned _ _ H1)). }
  assert (NDi : NoDup (keys ideal)) by (now rewrite K1).
  unfold report_match in H.
  destruct (calculate_stakes (best_odds r) 1000) as [res | e1] eqn:Hc;
    cbn [bind] in H.
  - (* the profits are not an empty list *)
    exfalso.
    pose proof (calculate_stakes_length _ _ _ Hc) as L.
    destruct (best_odds r) as [| o os] eqn:Eb.
    { cbn in Et. rewrite Ew in Et. inversion Et as [E0]. rewrite <- E0 in W0.
      now apply Qlt_irrefl in W0. }
    destruct res as [| x res]; [discriminate L |].
    cbn [map py_min py_max bind] in H. discriminate.
  - inversion H; subst e1. clear H.
    unfold calculate_stakes, final_stakes in Hc.
    rewrite H1 in Hc. cbn [bind] in Hc. rewrite H2 in Hc. cbn [bind] in Hc.
    destruct (rounded_stakes ideal) as [rounded | e3] eqn:H3; cbn [bind] in Hc.
    + destruct (adjust ideal rounded 1000) as [stakes | e4] eqn:H4;
        cbn [bind snd] in Hc.
      * apply (profits_raises (best_odds r) stakes 1000 e); [| exact Hc].
        rewrite (adjust_keys ideal rounded stakes 1000 NDi
                   (rounded_stakes_aligned _ _ H3) H4).
        rewrite (aligned_keys _ _ _ (rounded_stakes_aligned _ _ H3)). exact K1.
      * inversion Hc; subst e4.
        now apply (adjust_raises ideal rounded 1000 e NDi H3).
    + inversion Hc; subst e3. now apply (rounded_stakes_overflow ideal e Hn).
Qed.

(** X14. For a flagged record of the stream the allocator divides by the
    very float that was compared with the threshold, a finite number above
    zero: no [ZeroDivisionError], no [ValueError] and no [KeyError] can come
    out of the body of the [if]; if it raises, it is an [OverflowError]. *)
Theorem flagged_failure_is_overflow (cutoff : float) (r : normalized) (e : exn) :
  total_implied (best_odds r) = Ok (total_implied_odds r) ->
  NoDup (keys (best_odds r)) ->
  qualifies cutoff r = true ->
  report_match r = Raise e ->
  e = OverflowError.
Proof. apply flagged_failure_is_overflow_aux. Qed.

(** ** What can end the scan *)

Lemma stream_record_wf (now : clock) (inc : bool) (ms : list raw_match)
    (tick : nat) (r : normalized) :
  In r (fst (process_data now inc ms tick)) ->
  total_implied (best_odds r) = Ok (total_implied_odds r) /\
  NoDup (keys (best_odds r)) /\
  (2 <= List.length (best_odds r))%nat /\
  exists m, In m ms /\ build_best_odds m = Ok (best_odds r).
Proof.
  intros Hin.
  destruct (stream_member now inc ms tick r Hin) as (m & t & t' & Hm & E).
  destruct (process_match_yield now inc m t t' r E) as [(_ & B & T & _) L].
  split; [exact T |]. split; [apply (build_NoDup m _ B) |].
  split; [exact L |]. now exists m.
Qed.

Lemma scan_matches_raises (cutoff : float) (rs : list normalized) (e : exn) :
  (forall r, In r rs ->
             total_implied (best_odds r) = Ok (total_implied_odds r) /\
             NoDup (keys (best_odds r))) ->
  snd (scan_matches cutoff rs) = Some e -> e = OverflowError.
Proof.
  induction rs as [| r rs IH]; intros Hwf H; [discriminate |].
  cbn [scan_matches] in H.
  assert (Hrest : forall r', In r' rs ->
            total_implied (best_odds r') = Ok (total_implied_odds r') /\
            NoDup (keys (best_odds r'))) by (intros; apply Hwf; now right).
  destruct (qualifies cutoff r) eqn:Hq; [| now apply IH].
  destruct (report_match r) as [rep | e1] eqn:Hr.
  - destruct (scan_matches cutoff rs) as [reps e2]. cbn [snd] in *. now apply IH.
  - cbn [snd] in H. inversion H; subst e1.
    destruct (Hwf r (or_introl eq_refl)) as [Et ND].
    now apply (flagged_failure_is_overflow_aux cutoff r e).
Qed.

(** X15. The scan of the fetched matches can only end with what ends the
    stream of [process_data], or with an [OverflowError] raised for a
    flagged match. *)
Theorem scan_exceptions (now : clock) (cutoff : float) (data : list raw_match)
    (tick : nat) (e : exn) :
  snd (get_arbitrage_opportunities now cutoff data tick) = Some e ->
  snd (process_data now true data tick) = Some e \/ e = OverflowError.
Proof.
  unfold get_arbitrage_opportunities.
  pose proof (stream_record_wf now true data tick) as Hwf.
  destruct (process_data now true data tick) as [rs ended]. cbn [fst snd] in *.
  pose proof (scan_matches_raises cutoff rs) as Hs.
  destruct (scan_matches cutoff rs) as [reps [e1 |]]; cbn [snd] in *.
  - intros H. inversion H; subst e1. right. apply Hs; [| reflexivity].
    intros r Hr. destruct (Hwf r Hr) as (T & ND & _). now split.
  - intros H. now left.
Qed.

(** ** Matches with quotes in range *)

Lemma build_bounded (m : raw_match) (best : odds_map) :
  quotes_in_range m -> build_best_odds m = Ok best -> bounded_prices best.
Proof.
  intros Hr Hb n t p Hin.
  assert (Hnum : numeric ([] ++ flat_map quotes_of_bookmaker (get_or (bookmakers m) []))).
  { intros q p' Hq Hp. destruct (Hr q p' Hq Hp) as (x & -> & _). reflexivity. }
  assert (Inv0 : best_so_far [] []).
  { split; [intros ? _ ? [] | intros ? ? ? G; discriminate G]. }
  destruct (scan_bookmakers_invariant _ [] [] best Hnum Inv0 Hb) as [_ I2].
  cbn [app] in I2. fold (quotes m) in I2.
  pose proof (build_NoDup m best Hb) as ND.
  destruct (I2 n t p (get_in best n (t, p) ND Hin))
    as (pre & b & o & post & Eq & _ & [_ Qp] & _).
  apply (Hr (b, o)); [| exact Qp].
  rewrite Eq. apply in_or_app. right. now left.
Qed.

Lemma profits_numbers (odds : odds_map) (stakes : dict Z) (total_stake : Z) :
  bounded_prices odds ->
  keys stakes = keys odds ->
  (forall k v, get stakes k = Some v -> 0 <= v <= 2 ^ 52) ->
  1 <= total_stake <= 2 ^ 52 ->
  exists res, profits odds stakes total_stake = Ok res /\
              Forall (fun e => is_nan (profit_of e) = false) res.
Proof.
  intros Hb K Hs HT. unfold profits.
  destruct (mapM_total_rel
              (fun item : string * (string * float) =>
                 let '(outcome, (bookie, odd)) := item in
                 stake <- getitem stakes outcome ;;
                 s <- of_int stake ;;
                 t <- of_int total_stake ;;
                 profit <- round2 (fsub (fmul s odd) t) ;;
                 Ok (outcome, (bookie, odd, stake, profit)))
              (fun _ res => is_nan (profit_of res) = false)
              odds) as (res & E & F).
  { intros [n [t p]] Hin.
    assert (Hn : In n (keys stakes)).
    { rewrite K. change n with (fst (n, (t, p))). now apply in_map. }
    destruct (get stakes n) as [v |] eqn:G;
      [| apply get_not_in_keys in G; contradiction].
    unfold getitem. rewrite G. cbn [bind].
    destruct (Hs n v G) as [V0 V1].
    destruct (Hb n t p Hin) as (q & -> & Q1 & Q2).
    assert (Va : (Qabs (inject_Z v) <= pow2 52)%Q).
    { apply Qabs_Qle_condition. rewrite pow2_int by lia.
      change (- inject_Z (2 ^ 52))%Q with (inject_Z (- 2 ^ 52)).
      rewrite <- !Zle_Qle. lia. }
    destruct (of_int_finite v 52 Va ltac:(lia)) as (sv & Ev & S1 & S2).
    rewrite Ev. cbn [bind].
    destruct (of_int_within total_stake 52 ltac:(lia) ltac:(lia) ltac:(lia))
      as (tv & Et & T1 & T2 & _).
    rewrite Et. cbn [bind]. cbn [fmul].
    apply Qabs_Qle_condition in S1. specialize (S2 V0).
    pose proof (pow2_pos (- price_exp)) as P0.
    pose proof (pow2_pos 0) as P1.
    assert (Pa : (Qabs (sv * q) <= pow2 (52 + price_exp))%Q).
    { rewrite pow2_add. apply Qabs_Qle_condition.
      assert (0 <= sv * q)%Q by (apply Qmult_le_0_compat; lra).
      split; [pose proof (pow2_pos 52); pose proof (pow2_pos price_exp); nra |].
      apply Qmult_le_compat_nonneg; split; lra. }
    destruct (round64_finite _ _ Pa ltac:(unfold price_exp; lia))
      as (pay & Ep & Y1 & _).
    rewrite Ep. rewrite fsub_fin.
    apply Qabs_Qle_condition in Y1.
    assert (Da : (Qabs (pay + Qred (- tv)) <= pow2 (52 + price_exp + 1))%Q).
    { rewrite Qred_correct, pow2_succ. apply Qabs_Qle_condition.
      assert (pow2 52 <= pow2 (52 + price_exp))%Q
        by (apply pow2_le; unfold price_exp; lia).
      split; lra. }
    destruct (round64_finite _ _ Da ltac:(unfold price_exp; lia))
      as (d & Ed & D1 & _).
    rewrite Ed.
    destruct (round2_finite d _ D1 ltac:(unfold price_exp; lia)) as (r & Er).
    rewrite Er. cbn [bind]. eexists. split; reflexivity. }
  exists res. split; [exact E |].
  eapply Forall2_Forall_r; [| exact F]. now intros a b H.
Qed.

Lemma calculate_stakes_ok (odds : odds_map) (total_stake : Z) :
  NoDup (keys odds) ->
  odds <> [] ->
  bounded_prices odds ->
  1 <= total_stake ->
  (total_stake + 1) * (Z.of_nat (List.length odds) + 3) < 2 ^ 53 ->
  exists res,
    calculate_stakes odds total_stake = Ok res /\
    sumZ (values (stakes_of res)) = total_stake /\
    NoDup (keys (stakes_of res)) /\
    (forall k v, get (stakes_of res) k = Some v -> 0 <= v) /\
    Forall (fun e => is_nan (profit_of e) = false) res.
Proof.
  intros ND Hne Hb HT Hsmall.
  destruct (final_stakes_ok odds total_stake ND Hne Hb HT Hsmall)
    as (ideal & rounded & stakes & diffs & F & _ & _ & _ & K2 & _ & _ & Es & Hsum & Hpos & _).
  assert (K : keys stakes = keys odds) by (rewrite Es, keys_bump; exact K2).
  assert (NDs : NoDup (keys stakes)) by (now rewrite K).
  destruct (profits_numbers odds stakes total_stake Hb K) as (res & Er & Hn).
  - intros k v G. split; [now apply (Hpos k) |].
    assert (v <= sumZ (values stakes)).
    { apply sumZ_ge_elem.
      - apply Forall_forall. intros x Hx. unfold values in Hx.
        apply in_map_iff in Hx. destruct Hx as ([k' v'] & <- & Hin).
        apply (Hpos k'). now apply get_in.
      - unfold values. change v with (snd (k, v)). apply in_map.
        now apply in_get. }
    nia.
  - nia.
  - exists res. unfold calculate_stakes. rewrite F. cbn [bind snd].
    split; [exact Er |].
    rewrite (profits_stakes odds stakes total_stake res NDs K Er).
    auto.
Qed.

Lemma fle_refl (a : float) : is_nan a = false -> fle a a = true.
Proof. intros H. float_order. Qed.

Lemma fle_trans (a b c : float) :
  fle a b = true -> fle b c = true -> fle a c = true.
Proof. intros H1 H2. float_order. Qed.

Lemma fold_min_spec (rest : list float) :
  Forall (fun x => is_nan x = false) rest ->
  forall acc, is_nan acc = false ->
    let m := fold_left (fun m y => if flt y m then y else m) rest acc in
    In m (acc :: rest) /\ fle m acc = true /\
    (forall x, In x rest -> fle m x = true).
Proof.
  induction 1 as [| y rest Hy _ IH]; intros acc Ha; cbn [fold_left].
  - split; [now left |]. split; [now apply fle_refl | intros x []].
  - destruct (flt y acc) eqn:L.
    + destruct (IH y Hy) as (I1 & I2 & I3).
      split; [right; exact I1 |].
      split; [apply fle_trans with y; [exact I2 | now apply flt_fle] |].
      intros x [<- | Hx]; [exact I2 | now apply I3].
    + destruct (IH acc Ha) as (I1 & I2 & I3).
      split; [destruct I1 as [E | I1]; [now left | right; now right] |].
      split; [exact I2 |].
      intros x [<- | Hx]; [| now apply I3].
      apply fle_trans with acc; [exact I2 | now apply not_flt_fle].
Qed.

Lemma fold_max_spec (rest : list float) :
  Forall (fun x => is_nan x = false) rest ->
  forall acc, is_nan acc = false ->
    let m := fold_left (fun m y => if fgt y m then y else m) rest acc in
    In m (acc :: rest) /\ fle acc m = true /\
    (forall x, In x rest -> fle x m = true).
Proof.
  induction 1 as [| y rest Hy _ IH]; intros acc Ha; cbn [fold_left].
  - split; [now left |]. split; [now apply fle_refl | intros x []].
  - change (fgt y acc) with (flt acc y). destruct (flt acc y) eqn:L.
    + destruct (IH y Hy) as (I1 & I2 & I3).
      split; [right; exact I1 |].
      split; [apply fle_trans with y; [now apply flt_fle | exact I2] |].
      intros x [<- | Hx]; [exact I2 | now apply I3].
    + destruct (IH acc Ha) as (I1 & I2 & I3).
      split; [destruct I1 as [E | I1]; [now left | right; now right] |].
      split; [exact I2 |].
      intros x [<- | Hx]; [| now apply I3].
      apply fle_trans with acc; [now apply not_flt_fle | exact I2].
Qed.

Lemma profit_range_spec (res : allocation) :
  res <> [] ->
  Forall (fun e => is_nan (profit_of e) = false) res ->
  exists lo hi,
    py_min (map profit_of res) = Ok lo /\ py_max (map profit_of res) = Ok hi /\
    forall entry, In entry res ->
                  fle lo (profit_of entry) = true /\
                  fle (profit_of entry) hi = true.
Proof.
  intros Hne Hn. destruct res as [| x res]; [congruence |].
  inversion Hn as [| ? ? Hx Hrest]; subst.
  assert (Hr : Forall (fun y => is_nan y = false) (map profit_of res)).
  { apply Forall_map. exact Hrest. }
  destruct (fold_min_spec _ Hr (profit_of x) Hx) as (_ & A2 & A3).
  destruct (fold_max_spec _ Hr (profit_of x) Hx) as (_ & B2 & B3).
  cbn [map py_min py_max]. eexists. eexists.
  split; [reflexivity |]. split; [reflexivity |].
  intros entry [<- | Hin]; [now split |].
  split; [apply A3 | apply B3]; now apply in_map.
Qed.

Lemma report_ok (r : normalized) :
  NoDup (keys (best_odds r)) ->
  best_odds r <> [] ->
  bounded_prices (best_odds r) ->
  (Z.of_nat (List.length (best_odds r)) <= 2 ^ 40) ->
  exists rep,
    report_match r = Ok rep /\
    sumZ (values (stakes_of (allocated rep))) = 1000 /\
    forall entry, In entry (allocated rep) ->
      0 <= stake_of entry /\
      fle (fst (profit_range rep)) (profit_of entry) = true /\
      fle (profit_of entry) (snd (profit_range rep)) = true.
Proof.
  intros ND Hne Hb Hn.
  destruct (calculate_stakes_ok (best_odds r) 1000 ND Hne Hb ltac:(lia) ltac:(lia))
    as (res & Ec & Hsum & NDs & Hpos & Hnan).
  assert (Rne : res <> []).
  { pose proof (calculate_stakes_length _ _ _ Ec) as L.
    destruct res; [| discriminate]. destruct (best_odds r); [congruence | discriminate L]. }
  destruct (profit_range_spec res Rne Hnan) as (lo & hi & Elo & Ehi & Hrange).
  unfold report_match. rewrite Ec. cbn [bind]. rewrite Elo, Ehi. cbn [bind].
  eexists. split; [reflexivity |]. cbn [allocated profit_range fst snd].
  split; [exact Hsum |].
  intros entry Hin. split; [| now apply Hrange].
  apply (Hpos (fst entry)). apply get_in; [exact NDs |].
  unfold stakes_of. change (fst entry, stake_of entry)
    with ((fun e : string * (string * float * Z * float) => (fst e, stake_of e)) entry).
  now apply in_map.
Qed.

Lemma scan_all_ok (cutoff : float) (rs : list normalized) :
  (forall r, In r rs -> qualifies cutoff r = true ->
             exists rep, report_match r = Ok rep) ->
  snd (scan_matches cutoff rs) = None /\
  map for_match (fst (scan_matches cutoff rs)) = opportunities cutoff rs /\
  (forall rep, In rep (fst (scan_matches cutoff rs)) ->
               exists r, In r rs /\ report_match r = Ok rep).
Proof.
  induction rs as [| r rs IH]; intros Hok.
  - split; [reflexivity |]. split; [reflexivity | intros rep []].
  - destruct IH as (I1 & I2 & I3); [intros; apply Hok; [now right | assumption] |].
    cbn [scan_matches opportunities filter].
    destruct (qualifies cutoff r) eqn:Hq.
    + destruct (Hok r (or_introl eq_refl) Hq) as (rep & Er). rewrite Er.
      destruct (scan_matches cutoff rs) as [reps e]. cbn [fst snd map] in *.
      split; [exact I1 |]. split.
      * f_equal; [apply (report_match_inv r rep Er) | exact I2].
      * intros rep' [<- | Hin]; [exists r; split; [now left | exact Er] |].
        destruct (I3 rep' Hin) as (r' & Hr' & E'). exists r'. split; [now right | exact E'].
    + split; [exact I1 |]. split; [exact I2 |].
      intros rep Hin. destruct (I3 rep Hin) as (r' & Hr' & E').
      exists r'. split; [now right | exact E'].
Qed.

(** X16. When every quoted price of the fetched matches is a finite number
    from 2^-400 to 2^400 and no match has more than 2^40 quotes, the scan
    ends only as the stream of [process_data] ends, it reports every
    flagged record of the stream, in order, and each report allocates
    stakes that are not negative and sum to 1000, to the outcomes of the
    record at their best prices, with a profit range that bounds every
    profit. *)
Theorem scan_of_sound_quotes (now : clock) (cutoff : float)
    (data : list raw_match) (tick : nat) :
  (forall m, In m data ->
             quotes_in_range m /\ Z.of_nat (List.length (quotes m)) <= 2 ^ 40) ->
  let stream := process_data now true data tick in
  let result := get_arbitrage_opportunities now cutoff data tick in
  snd result = snd stream /\
  map for_match (fst result) = opportunities cutoff (fst stream) /\
  forall rep, In rep (fst result) ->
    map offer_of (allocated rep) = best_odds (for_match rep) /\
    sumZ (values (stakes_of (allocated rep))) = 1000 /\
    forall entry, In entry (allocated rep) ->
      0 <= stake_of entry /\
      fle (fst (profit_range rep)) (profit_of entry) = true /\
      fle (profit_of entry) (snd (profit_range rep)) = true.
Proof.
  intros Hdata. cbn zeta. unfold get_arbitrage_opportunities.
  pose proof (stream_record_wf now true data tick) as Hwf.
  destruct (process_data now true data tick) as [rs ended]. cbn [fst snd] in *.
  assert (Hok : forall r, In r rs ->
            exists rep,
              report_match r = Ok rep /\
              sumZ (values (stakes_of (allocated rep))) = 1000 /\
              forall entry, In entry (allocated rep) ->
                0 <= stake_of entry /\
                fle (fst (profit_range rep)) (profit_of entry) = true /\
                fle (profit_of entry) (snd (profit_range rep)) = true).
  { intros r Hr. destruct (Hwf r Hr) as (_ & ND & L & m & Hm & B).
    destruct (Hdata m Hm) as [Hrange Hlen].
    apply report_ok.
    - exact ND.
    - intros E. rewrite E in L. cbn in L. lia.
    - now apply (build_bounded m).
    - pose proof (build_length m _ B). lia. }
  destruct (scan_all_ok cutoff rs) as (S1 & S2 & S3).
  { intros r Hr _. destruct (Hok r Hr) as (rep & Er & _). now exists rep. }
  destruct (scan_matches cutoff rs) as [reps raised]. cbn [fst snd] in *.
  subst raised. split; [reflexivity |]. split; [exact S2 |].
  intros rep Hin. destruct (S3 rep Hin) as (r & Hr & Er).
  destruct (Hok r Hr) as (rep' & Er' & Hsum & Hentries).
  rewrite Er in Er'. inversion Er'; subst rep'.
  destruct (report_match_inv r rep Er) as (Ef & Ec & _).
  split; [rewrite Ef; now apply (calculate_stakes_offers _ 1000) |].
  split; [exact Hsum | exact Hentries].
Qed.

End Pipeline.

(** * Floats that are results of a rounding *)

Section FloatOutputs.

Local Open Scope Q_scope.

Lemma round64_cases (z d : Q) :
  round64 z = FFin d ->
  d = 0 \/
  (0 < z /\ d = Qred (round_mag z) /\ round_mag z < pow2 emax) \/
  (z < 0 /\ d = Qred (- round_mag (- z)) /\ round_mag (- z) < pow2 emax).
Proof.
  unfold round64. destruct (Qcompare_spec z 0) as [Z0 | Z0 | Z0].
  - intros H. apply FFin_inj in H. now left.
  - destruct (Qle_bool _ _) eqn:L; [discriminate |]. apply Qle_bool_false in L.
    intros H. apply FFin_inj in H. right. right. auto.
  - destruct (Qle_bool _ _) eqn:L; [discriminate |]. apply Qle_bool_false in L.
    intros H. apply FFin_inj in H. right. left. auto.
Qed.

Lemma round64_of_dyadic (m e : Z) (d : Q) :
  (0 < m <= 2 ^ 53)%Z -> (-1074 <= e)%Z ->
  d == inject_Z m * pow2 e -> d < pow2 emax ->
  round64 d = FFin (Qred d) /\ round64 (- d) = FFin (Qred (- d)).
Proof.
  intros Hm He E Hb.
  pose proof (pow2_pos e) as Pe.
  assert (M0 : 0 < inject_Z m).
  { change 0 with (inject_Z 0). rewrite <- Zlt_Qlt. lia. }
  assert (D0 : 0 < d) by (rewrite E; nra).
  assert (R : round_mag d == d).
  { rewrite (round_mag_comp d _ D0 E). rewrite round_mag_exact by assumption.
    now symmetry. }
  split.
  - rewrite round64_pos; [| exact D0 | now rewrite R].
    f_equal. now apply Qred_complete.
  - assert (R' : round_mag (- - d) == d).
    { rewrite (round_mag_comp (- - d) d); [exact R | lra | ring]. }
    rewrite round64_neg; [| lra | now rewrite R'].
    f_equal. apply Qred_complete. now rewrite R'.
Qed.

(** a float has at most 53 significant bits, and rounding it changes
    nothing *)
Lemma float_magnitude (z d : Q) :
  round64 z = FFin d ->
  round64 d = FFin d /\
  exists m e, (0 <= m <= 2 ^ 53)%Z /\ (-1074 <= e)%Z /\
              Qabs d == inject_Z m * pow2 e.
Proof.
  intros H.
  assert (Zero : forall v, v == 0 -> Qred v = 0).
  { intros v E. now rewrite (Qred_complete v 0 E). }
  assert (Case0 : d = 0 ->
            round64 d = FFin d /\
            exists m e, (0 <= m <= 2 ^ 53)%Z /\ (-1074 <= e)%Z /\
                        Qabs d == inject_Z m * pow2 e).
  { intros ->. split; [reflexivity |]. exists 0%Z, 0%Z.
    split; [lia |]. split; [lia | reflexivity]. }
  destruct (round64_cases z d H) as [E0 | [(Z0 & Ed & Hb) | (Z0 & Ed & Hb)]].
  - now apply Case0.
  - pose proof (round_mag_nonneg z Z0) as V0.
    destruct (Qlt_le_dec 0 (round_mag z)) as [Vp | Vz].
    + assert (Dv : d == round_mag z) by (rewrite Ed; apply Qred_correct).
      assert (D0 : 0 < d) by lra.
      destruct (round64_dyadic z d H D0) as (m & e & E & Hm & He).
      assert (Mp : (0 < m)%Z).
      { destruct (Z.eq_dec m 0) as [-> | N]; [| lia].
        change (inject_Z 0) with 0 in E. lra. }
      destruct (round64_of_dyadic m e d ltac:(lia) He E ltac:(lra)) as [I _].
      split.
      * rewrite I. f_equal. rewrite Ed. apply Qred_complete, Qred_correct.
      * exists m, e. split; [lia |]. split; [exact He |].
        rewrite Qabs_pos by lra. exact E.
    + apply Case0. rewrite Ed. apply Zero. lra.
  - pose proof (round_mag_nonneg (- z) ltac:(lra)) as V0.
    destruct (Qlt_le_dec 0 (round_mag (- z))) as [Vp | Vz].
    + assert (Dv : d == - round_mag (- z)) by (rewrite Ed; apply Qred_correct).
      pose proof (round64_pos (- z) ltac:(lra) Hb) as P.
      assert (Q0 : 0 < Qred (round_mag (- z))) by (rewrite Qred_correct; exact Vp).
      destruct (round64_dyadic _ _ P Q0) as (m & e & E & Hm & He).
      rewrite Qred_correct in E.
      assert (Mp : (0 < m)%Z).
      { destruct (Z.eq_dec m 0) as [-> | N]; [| lia].
        change (inject_Z 0) with 0 in E. lra. }
      destruct (round64_of_dyadic m e (round_mag (- z)) ltac:(lia) He E Hb) as [_ I].
      split.
      * rewrite (round64_comp d _ Dv). rewrite I. f_equal. now rewrite Ed.
      * exists m, e. split; [lia |]. split; [exact He |].
        rewrite Qabs_neg by lra. rewrite Dv, <- E. ring.
    + apply Case0. rewrite Ed. apply Zero. lra.
Qed.

Lemma round64_idem (z d : Q) : round64 z = FFin d -> round64 d = FFin d.
Proof. intros H. apply (float_magnitude z d H). Qed.

(** [round(x, 2)] of a float never overflows *)
Lemma round2_float (z d : Q) :
  round64 z = FFin d -> exists r, round2 (FFin d) = Ok (FFin r).
Proof.
  intros H. destruct (float_magnitude z d H) as (I & m & e & Hm & He & E).
  destruct (Qlt_le_dec (pow2 1022) (Qabs d)) as [Big | Small].
  - (* so large that it is an integer *)
    assert (E0 : (0 <= e)%Z).
    { destruct (Z.lt_ge_cases e 0) as [Neg | ?]; [exfalso | assumption].
      assert (pow2 e <= pow2 0) by (apply pow2_le; lia).
      change (pow2 0) with 1 in *. pose proof (pow2_pos e).
      assert (M1 : inject_Z m <= pow2 53).
      { rewrite pow2_int by lia. rewrite <- Zle_Qle. lia. }
      assert (M0 : 0 <= inject_Z m).
      { change 0 with (inject_Z 0). rewrite <- Zle_Qle. lia. }
      assert (pow2 53 < pow2 1022) by (apply pow2_lt; lia).
      nra. }
    rewrite pow2_int in E by exact E0. rewrite <- inject_Z_mult in E.
    assert (Hk : exists k, d == inject_Z k).
    { destruct (Qlt_le_dec d 0) as [N | P].
      - exists (- (m * 2 ^ e))%Z. rewrite Qabs_neg in E by lra.
        rewrite inject_Z_opp, <- E. ring.
      - exists (m * 2 ^ e)%Z. rewrite Qabs_pos in E by lra. exact E. }
    destruct Hk as (k & Ek).
    assert (Ev : inject_Z (rne (d * 100)) / 100 == d).
    { assert (E100 : d * 100 == inject_Z (k * 100)).
      { rewrite inject_Z_mult, Ek. reflexivity. }
      rewrite (rne_comp _ _ E100), rne_int, inject_Z_mult, Ek.
      change (inject_Z 100) with 100. field. }
    exists d. unfold round2. rewrite (round64_comp _ _ Ev), I. reflexivity.
  - apply (round2_finite d 1022 Small). lia.
Qed.

(** the profit of step 5 is rounded without an exception, whatever the
    payout *)
Lemma round2_fsub_total (a b : float) : exists y, round2 (fsub a b) = Ok y.
Proof.
  assert (R : forall z, exists y, round2 (round64 z) = Ok y).
  { intros z. destruct (round64 z) as [d | s |] eqn:E.
    - destruct (round2_float z d E) as (r & Er). now exists (FFin r).
    - now exists (FInf s).
    - now exists FNan. }
  destruct a as [p | s1 |], b as [q | s2 |]; cbn [fsub fneg fadd];
    try (eexists; reflexivity); try apply R.
  destruct (Bool.eqb s1 (negb s2)); eexists; reflexivity.
Qed.

End FloatOutputs.

(** * Positive prices *)

Section PositivePrices.

Lemma positive_inverse (best : odds_map) (inverse : dict float) :
  positive_prices best ->
  inverse_odds best = Ok inverse ->
  Forall (fun x => x = FInf false \/ nonneg_float x) (values inverse).
Proof.
  intros Hp H. apply inverse_odds_aligned in H. unfold values.
  induction H as [| [n [t p]] [n' x] best inverse [_ Hx] _ IH]; [constructor |].
  cbn [map snd] in *. constructor.
  - pose proof (Hp n t p (or_introl eq_refl)) as P.
    destruct p as [q | [|] |]; try discriminate; cbn [flt] in P.
    + apply negb_true_iff, Qle_bool_false in P.
      unfold fdiv in Hx.
      destruct (is_zero (FFin q)); [discriminate |]. inversion Hx as [E].
      pose proof (round64_nonneg (1 / q)) as N.
      pose proof (round64_not_nan (1 / q)) as NN.
      destruct (round64 (1 / q)) as [y | [|] |] eqn:Ey; try discriminate.
      * right. exists y. split; [reflexivity |].
        split; [| now apply (round64_idem (1 / q))].
        apply N. apply Qlt_le_weak. unfold Qdiv. rewrite Qmult_1_l.
        now apply Qinv_lt_0_compat.
      * exfalso. cbn [fnonneg] in N. enough (true = false) by discriminate.
        apply N. apply Qlt_le_weak. unfold Qdiv. rewrite Qmult_1_l.
        now apply Qinv_lt_0_compat.
      * now left.
    + inversion Hx. right. exists 0%Q. split; [reflexivity |].
      split; [apply Qle_refl | reflexivity].
  - apply IH. intros n0 t0 p0 Hin. apply (Hp n0 t0 p0). now right.
Qed.

Lemma sum_dominates (l : list float) :
  Forall nonneg_float l ->
  forall a W : Q,
    (0 <= a)%Q -> round64 a = FFin a ->
    fold_left fadd l (FFin a) = FFin W ->
    (a <= W)%Q /\ Forall (fun x => (fval x <= W)%Q) l.
Proof.
  induction 1 as [| x l (q & -> & Q0 & Qi) _ IH]; intros a W A0 Ai H; simpl in H.
  - apply FFin_inj in H. subst W. split; [apply Qle_refl | constructor].
  - destruct (sum_fin_all _ _ _ H) as [(a' & Ea) _].
    rewrite Ea in H.
    pose proof (round64_mono a (a + q) ltac:(lra)) as M1.
    pose proof (round64_mono q (a + q) ltac:(lra)) as M2.
    rewrite Ai, Ea in M1. rewrite Qi, Ea in M2.
    apply fle_fin in M1. apply fle_fin in M2.
    destruct (IH a' W ltac:(lra) (round64_idem _ _ Ea) H) as [L1 L2].
    split; [lra |]. constructor; [cbn [fval]; lra | exact L2].
Qed.

Lemma round64_1000 : round64 1000 = FFin 1000.
Proof. vm_compute. reflexivity. Qed.

Lemma positive_shares (inverse : dict float) (W : Q) :
  Forall nonneg_float (values inverse) ->
  Forall (fun x => (fval x <= W)%Q) (values inverse) ->
  (0 < W)%Q ->
  sum (values inverse) = FFin W ->
  exists ideal,
    ideal_stakes inverse 1000 = Ok ideal /\
    Forall (fun e : string * float =>
              exists s, snd e = FFin s /\ (0 <= s)%Q /\ (s <= 1000)%Q) ideal.
Proof.
  intros Hn Hle HW Hs. unfold ideal_stakes. rewrite Hs.
  rewrite Forall_forall in Hn, Hle.
  destruct (mapM_total_rel
              (fun item : string * float =>
                 w <- fdiv (snd item) (FFin W) ;;
                 t <- of_int 1000 ;;
                 Ok (fst item, fmul w t))
              (fun _ res => exists s, snd res = FFin s /\ (0 <= s)%Q /\ (s <= 1000)%Q)
              inverse) as (ideal & E & F).
  { intros [k x] Hin. cbn [fst snd].
    assert (Hx : In x (values inverse)).
    { unfold values. change x with (snd (k, x)). now apply in_map. }
    destruct (Hn x Hx) as (q & -> & Q0 & _).
    pose proof (Hle _ Hx) as Q1. cbn [fval] in Q1.
    assert (Z0 : is_zero (FFin W) = false).
    { cbn [is_zero]. destruct (Qeq_bool W 0) eqn:EW; [| reflexivity].
      apply Qeq_bool_iff in EW. lra. }
    unfold fdiv. rewrite Z0. cbn [bind]. rewrite of_int_1000. cbn [bind].
    assert (R0 : (0 <= q / W)%Q).
    { apply Qle_shift_div_l; [exact HW | lra]. }
    assert (R1 : (q / W <= 1)%Q).
    { apply Qle_shift_div_r; [exact HW | lra]. }
    assert (Ra : (Qabs (q / W) <= pow2 0)%Q).
    { change (pow2 0) with 1%Q. apply Qabs_Qle_condition. split; lra. }
    destruct (round64_finite _ 0 Ra ltac:(lia)) as (r & Er & Rb & Rp & _).
    rewrite Er. cbn [fmul].
    apply Qabs_Qle_condition in Rb. change (pow2 0) with 1%Q in Rb.
    specialize (Rp R0).
    assert (Sa : (Qabs (r * 1000) <= pow2 10)%Q).
    { change (pow2 10) with 1024%Q. apply Qabs_Qle_condition. split; lra. }
    destruct (round64_finite _ 10 Sa ltac:(lia)) as (s0 & Es & _ & Sp & _).
    pose proof (round64_mono (r * 1000) 1000 ltac:(lra)) as M.
    rewrite Es, round64_1000 in M. apply fle_fin in M.
    eexists. split; [reflexivity |]. cbn [snd]. exists s0.
    split; [exact Es |]. split; [apply Sp; lra | exact M]. }
  exists ideal. split; [exact E |].
  eapply Forall2_Forall_r; [| exact F]. now intros a b H.
Qed.

Lemma positive_rounded (ideal : dict float) :
  Forall (fun e : string * float =>
            exists s, snd e = FFin s /\ (0 <= s)%Q /\ (s <= 1000)%Q) ideal ->
  exists rounded,
    rounded_stakes ideal = Ok rounded /\
    Forall (fun e : string * Z => 0 <= snd e <= 1000) rounded.
Proof.
  intros Hi. rewrite Forall_forall in Hi. unfold rounded_stakes.
  destruct (mapM_total_rel
              (fun item : string * float =>
                 n <- to_int (snd item) ;; Ok (fst item, n))
              (fun _ res => 0 <= snd res <= 1000)
              ideal) as (rounded & E & F).
  { intros [k x] Hin. destruct (Hi _ Hin) as (s0 & Es & S0 & S1).
    cbn [fst snd] in *. subst x. cbn [to_int bind].
    eexists. split; [reflexivity |]. cbn [snd].
    rewrite trunc_floor by exact S0. split; [now apply Qfloor_nonneg |].
    change 1000 with (Qfloor (inject_Z 1000)).
    apply Qfloor_resp_le. exact S1. }
  exists rounded. split; [exact E |].
  eapply Forall2_Forall_r; [| exact F]. now intros a b H.
Qed.

Lemma adjust_raise_source (ideal : dict float) (rounded : dict Z)
    (total_stake : Z) (e : exn) :
  NoDup (keys ideal) ->
  rounded_stakes ideal = Ok rounded ->
  adjust ideal rounded total_stake = Raise e ->
  exists n k, In (n, k) rounded /\ of_int k = Raise e.
Proof.
  intros ND H3 H. pose proof (rounded_stakes_aligned _ _ H3) as A3.
  assert (Kr : keys rounded = keys ideal) by apply (aligned_keys _ _ _ A3).
  unfold adjust in H.
  destruct (0 <? remainder_of total_stake rounded); [| discriminate].
  rewrite (stake_diffs_eq ideal rounded ND A3) in H.
  destruct (mapM diff_of ideal) as [diffs | e'] eqn:Hd; cbn [bind] in H.
  - exfalso.
    assert (Kd : keys diffs = keys ideal)
      by apply (aligned_keys _ _ _ (diffs_aligned _ _ Hd)).
    rewrite sorted_outcomes_eq in H by (now rewrite Kd). cbn [bind] in H.
    rewrite award_spec in H; [discriminate | now rewrite Kr | |].
    + apply (Permutation_NoDup (sort_desc_keys_perm diffs)). now rewrite Kd.
    + intros k Hk. rewrite Kr, <- Kd.
      apply (Permutation_in _ (Permutation_sym (sort_desc_keys_perm diffs))), Hk.
  - inversion H; subst e'. apply mapM_raise in Hd.
    destruct Hd as ([n s0] & Hin & Hx). unfold diff_of in Hx. cbn [fst snd] in Hx.
    destruct (Forall2_In_l _ _ _ _ (mapM_Forall2 _ _ _ H3) Hin) as ([n' k'] & Hy' & Hy).
    cbn [fst snd] in Hy.
    destruct (to_int s0) as [k |] eqn:Hk; cbn [bind] in Hy; [| discriminate].
    inversion Hy; subst n' k'. cbn [bind] in Hx.
    destruct (of_int k) as [r' | e'] eqn:Hr; cbn [bind] in Hx; [discriminate |].
    inversion Hx; subst e'. now exists n, k.
Qed.

Lemma small_of_int (v : Z) :
  0 <= v <= 2 ^ 52 -> exists sv, of_int v = Ok (FFin sv).
Proof.
  intros Hv.
  assert (Va : (Qabs (inject_Z v) <= pow2 52)%Q).
  { apply Qabs_Qle_condition. rewrite pow2_int by lia.
    change (- inject_Z (2 ^ 52))%Q with (inject_Z (- 2 ^ 52)).
    rewrite <- !Zle_Qle. lia. }
  destruct (of_int_finite v 52 Va ltac:(lia)) as (sv & Ev & _). now exists sv.
Qed.

Lemma positive_adjust (ideal : dict float) (rounded : dict Z) :
  NoDup (keys ideal) ->
  rounded_stakes ideal = Ok rounded ->
  Forall (fun e : string * Z => 0 <= snd e <= 1000) rounded ->
  exists stakes,
    adjust ideal rounded 1000 = Ok stakes /\
    keys stakes = keys rounded /\
    forall k v, get stakes k = Some v -> 0 <= v <= 1001.
Proof.
  intros ND H3 Hr. rewrite Forall_forall in Hr.
  pose proof (rounded_stakes_aligned _ _ H3) as A3.
  destruct (adjust ideal rounded 1000) as [stakes | e] eqn:H4.
  - exists stakes. split; [reflexivity |].
    split; [apply (adjust_keys ideal rounded stakes 1000 ND A3 H4) |].
    assert (Hget : forall k v, get rounded k = Some v -> 0 <= v <= 1000).
    { intros k v G. apply (Hr (k, v)). now apply in_get. }
    destruct (adjust_spec ideal rounded stakes 1000 ND A3 H4)
      as [[_ ->] | [_ (diffs & _ & ->)]].
    + intros k v G. specialize (Hget k v G). lia.
    + intros k v G. rewrite get_bump in G.
      destruct (get rounded k) as [v0 |] eqn:G0; [| discriminate].
      cbn [option_map] in G. specialize (Hget k v0 G0).
      destruct (mem k _); inversion G; lia.
  - exfalso.
    destruct (adjust_raise_source ideal rounded 1000 e ND H3 H4) as (n & k & Hin & Hk).
    pose proof (Hr _ Hin) as B. cbn [snd] in B.
    destruct (small_of_int k ltac:(lia)) as (sv & E). rewrite E in Hk. discriminate.
Qed.

Lemma profits_total (odds : odds_map) (stakes : dict Z) (total_stake : Z) :
  keys stakes = keys odds ->
  (forall k v, get stakes k = Some v -> 0 <= v <= 2 ^ 52) ->
  0 <= total_stake <= 2 ^ 52 ->
  exists res, profits odds stakes total_stake = Ok res.
Proof.
  intros K Hs HT. unfold profits. apply mapM_total.
  intros [n [t p]] Hin.
  assert (Hn : In n (keys stakes)).
  { rewrite K. change n with (fst (n, (t, p))). now apply in_map. }
  destruct (get stakes n) as [v |] eqn:G;
    [| apply get_not_in_keys in G; contradiction].
  unfold getitem. rewrite G. cbn [bind].
  destruct (small_of_int v (Hs n v G)) as (sv & Ev). rewrite Ev. cbn [bind].
  destruct (small_of_int total_stake HT) as (tv & Et). rewrite Et. cbn [bind].
  destruct (round2_fsub_total (fmul (FFin sv) p) (FFin tv)) as (y & Ey).
  rewrite Ey. cbn [bind]. eexists. reflexivity.
Qed.

Lemma positive_allocation (odds : odds_map) (W : Q) :
  NoDup (keys odds) ->
  positive_prices odds ->
  total_implied odds = Ok (FFin W) ->
  (0 < W)%Q ->
  exists res,
    calculate_stakes odds 1000 = Ok res /\
    forall entry, In entry res -> 0 <= stake_of entry <= 1001.
Proof.
  intros ND Hp Et HW.
  destruct (total_is_inverse_sum _ _ Et) as (inverse & H1 & Hs).
  pose proof (positive_inverse odds inverse Hp H1) as Hinv.
  assert (Hn : Forall nonneg_float (values inverse)).
  { destruct (sum_fin_all _ _ _ Hs) as [_ Hfin].
    rewrite Forall_forall in *. intros x Hx.
    destruct (Hinv x Hx) as [-> | N]; [| exact N].
    destruct (Hfin _ Hx) as (q & C). discriminate. }
  destruct (sum_dominates _ Hn 0 W ltac:(apply Qle_refl) eq_refl Hs) as [_ Hle].
  destruct (positive_shares inverse W Hn Hle HW Hs) as (ideal & H2 & Hi).
  destruct (positive_rounded ideal Hi) as (rounded & H3 & Hr).
  assert (K1 : keys ideal = keys odds).
  { rewrite (aligned_keys _ _ _ (ideal_stakes_aligned _ _ _ H2)).
    apply (aligned_keys _ _ _ (inverse_odds_aligned _ _ H1)). }
  assert (NDi : NoDup (keys ideal)) by (now rewrite K1).
  destruct (positive_adjust ideal rounded NDi H3 Hr) as (stakes & H4 & K4 & Hst).
  assert (K : keys stakes = keys odds).
  { rewrite K4, (aligned_keys _ _ _ (rounded_stakes_aligned _ _ H3)). exact K1. }
  destruct (profits_total odds stakes 1000 K) as (res & H5).
  { intros k v G. specialize (Hst k v G). lia. }
  { lia. }
  exists res. split.
  - unfold calculate_stakes, final_stakes.
    rewrite H1. cbn [bind]. rewrite H2. cbn [bind]. rewrite H3. cbn [bind].
    rewrite H4. cbn [bind snd]. exact H5.
  - intros entry Hin.
    assert (NDs : NoDup (keys stakes)) by (now rewrite K).
    pose proof (profits_stakes odds stakes 1000 res NDs K H5) as Es.
    apply (Hst (fst entry)). rewrite <- Es. apply get_in.
    + now rewrite Es.
    + unfold stakes_of.
      change (fst entry, stake_of entry)
        with ((fun e : string * (string * float * Z * float) => (fst e, stake_of e)) entry).
      now apply in_map.
Qed.

Lemma positive_report (cutoff : float) (r : normalized) :
  total_implied (best_odds r) = Ok (total_implied_odds r) ->
  NoDup (keys (best_odds r)) ->
  positive_prices (best_odds r) ->
  qualifies cutoff r = true ->
  exists rep,
    report_match r = Ok rep /\
    forall entry, In entry (allocated rep) -> 0 <= stake_of entry <= 1001.
Proof.
  intros Et ND Hp Hq.
  destruct (flagged_total cutoff r Hq) as (w & Ew & W0).
  rewrite Ew in Et.
  destruct (positive_allocation (best_odds r) w ND Hp Et W0) as (res & Ec & Hst).
  pose proof (calculate_stakes_length _ _ _ Ec) as L.
  assert (Rne : exists x res', res = x :: res').
  { destruct res as [| x res']; [| now exists x, res'].
    destruct (best_odds r); [| discriminate L].
    cbn in Et. inversion Et as [E0]. rewrite <- E0 in W0.
    now apply Qlt_irrefl in W0. }
  destruct Rne as (x & res' & ->).
  unfold report_match. rewrite Ec. cbn [bind map py_min py_max].
  eexists. split; [reflexivity |]. exact Hst.
Qed.

(** X17. A flagged record whose best prices are all above zero is always
    reported: the allocator returns, with a stake from 0 to 1001 on every
    outcome, and the profit range is computed. *)
Theorem flagged_positive_is_reported (cutoff : float) (r : normalized) :
  total_implied (best_odds r) = Ok (total_implied_odds r) ->
  NoDup (keys (best_odds r)) ->
  positive_prices (best_odds r) ->
  qualifies cutoff r = true ->
  exists rep,
    report_match r = Ok rep /\
    forall entry, In entry (allocated rep) -> 0 <= stake_of entry <= 1001.
Proof. apply positive_report. Qed.

Lemma build_positive (m : raw_match) (best : odds_map) :
  quotes_positive m -> build_best_odds m = Ok best -> positive_prices best.
Proof.
  intros Hr Hb n t p Hin.
  assert (Hnum : numeric ([] ++ flat_map quotes_of_bookmaker (get_or (bookmakers m) []))).
  { intros q p' Hq Hp. now apply (flt_not_nan _ _ (Hr q p' Hq Hp)). }
  assert (Inv0 : best_so_far [] []).
  { split; [intros ? _ ? [] | intros ? ? ? G; discriminate G]. }
  destruct (scan_bookmakers_invariant _ [] [] best Hnum Inv0 Hb) as [_ I2].
  cbn [app] in I2. fold (quotes m) in I2.
  pose proof (build_NoDup m best Hb) as ND.
  destruct (I2 n t p (get_in best n (t, p) ND Hin))
    as (pre & b & o & post & Eq & _ & [_ Qp] & _).
  apply (Hr (b, o)); [| exact Qp].
  rewrite Eq. apply in_or_app. right. now left.
Qed.

(** X18. When every quoted price of the fetched matches is above zero, the
    loop body never raises: the scan ends only as the stream of
    [process_data] ends and reports every flagged record of the stream, in
    order. *)
Theorem scan_of_positive_quotes (now : clock) (cutoff : float)
    (data : list raw_match) (tick : nat) :
  (forall m, In m data -> quotes_positive m) ->
  let stream := process_data now true data tick in
  let result := get_arbitrage_opportunities now cutoff data tick in
  snd result = snd stream /\
  map for_match (fst result) = opportunities cutoff (fst stream) /\
  forall rep entry, In rep (fst result) -> In entry (allocated rep) ->
                    0 <= stake_of entry <= 1001.
Proof.
  intros Hdata. cbn zeta. unfold get_arbitrage_opportunities.
  pose proof (stream_record_wf now true data tick) as Hwf.
  destruct (process_data now true data tick) as [rs ended]. cbn [fst snd] in *.
  assert (Hok : forall r, In r rs -> qualifies cutoff r = true ->
            exists rep,
              report_match r = Ok rep /\
              forall entry, In entry (allocated rep) -> 0 <= stake_of entry <= 1001).
  { intros r Hr Hq. destruct (Hwf r Hr) as (T & ND & _ & m & Hm & B).
    apply (positive_report cutoff); try assumption.
    now apply (build_positive m _ (Hdata m Hm)). }
  destruct (scan_all_ok cutoff rs) as (S1 & S2 & S3).
  { intros r Hr Hq. destruct (Hok r Hr Hq) as (rep & Er & _). now exists rep. }
  assert (Hflag : forall rep, In rep (fst (scan_matches cutoff rs)) ->
                              qualifies cutoff (for_match rep) = true).
  { intros rep Hin.
    assert (I : In (for_match rep) (opportunities cutoff rs)).
    { rewrite <- S2. now apply in_map. }
    apply filter_In in I. apply I. }
  destruct (scan_matches cutoff rs) as [reps raised]. cbn [fst snd] in *.
  subst raised. split; [reflexivity |]. split; [exact S2 |].
  intros rep entry Hin He. destruct (S3 rep Hin) as (r & Hr & Er).
  pose proof (Hflag rep Hin) as Hq.
  destruct (report_match_inv r rep Er) as (Ef & _). rewrite Ef in Hq.
  destruct (Hok r Hr Hq) as (rep' & Er' & Hst).
  rewrite Er in Er'. inversion Er'; subst rep'. now apply Hst.
Qed.

End PositivePrices.

(** * Level payouts *)

Section LevelPayouts.

Lemma sumQ_close2 {A B : Type} (f : A -> Q) (g : B -> Q) (k : nat)
    (l : list A) (l' : list B) :
  Forall2 (fun a b => close k (f a) (g b)) l l' ->
  close k (sumQ (map f l)) (sumQ (map g l')).
Proof.
  induction 1 as [| a b l l' Hab _ IH].
  - change (sumQ (map f [])) with 0%Q. change (sumQ (map g [])) with 0%Q.
    unfold close. split; lra.
  - change (sumQ (map f (a :: l))) with (f a + sumQ (map f l))%Q.
    change (sumQ (map g (b :: l'))) with (g b + sumQ (map g l'))%Q.
    now apply close_add.
Qed.

Lemma Forall2_compose {A B C : Type} (P : A -> B -> Prop) (R : B -> C -> Prop)
    (l : list A) (l' : list B) (l'' : list C) :
  Forall2 P l l' -> Forall2 R l' l'' ->
  Forall2 (fun a c => exists b, P a b /\ R b c) l l''.
Proof.
  intros H. revert l''. induction H as [| a b l l' Hab _ IH]; intros l'' H2.
  - inversion H2. constructor.
  - inversion H2 as [| ? c ? l3 Hbc H3]; subst.
    constructor; [now exists b | now apply IH].
Qed.

(** every ideal share against its exact value
    [(1 / p) / (1 / p_1 + ... + 1 / p_n) * total_stake] *)
Lemma shares_close (odds : odds_map) (total_stake : Z) :
  odds <> [] ->
  bounded_prices odds ->
  1 <= total_stake <= 2 ^ 52 ->
  Z.of_nat (List.length odds) <= 2 ^ 52 ->
  exists inverse ideal,
    inverse_odds odds = Ok inverse /\
    ideal_stakes inverse total_stake = Ok ideal /\
    Forall2 (fun (item : string * (string * float)) (share : string * float) =>
               fst share = fst item /\
               exists s, snd share = FFin s /\
                 close (List.length odds + 5)
                       (/ fval (snd (snd item)) *
                        (inject_Z total_stake / implied_sum odds))%Q s)
            odds ideal.
Proof.
  intros Hne Hb HT Hn.
  set (n := List.length odds) in *.
  destruct (mapM_total_rel
              (fun item : string * (string * float) =>
                 inv <- fdiv (FFin 1) (snd (snd item)) ;; Ok (fst item, inv))
              (fun item res => fst res = fst item /\
                               fin_within (- price_exp) price_exp (snd res) /\
                               fin_within (- price_exp) price_exp (snd (snd item)) /\
                               close 1 (/ fval (snd (snd item)))%Q (fval (snd res)))
              odds) as (inverse & E1 & F1).
  { intros [k [t p]] Hin. destruct (Hb k t p Hin) as (q & -> & Q1 & Q2).
    cbn [fst snd fval].
    destruct (fdiv_within 1 q 0 0 _ _ (Qle_refl _) (Qle_refl _) Q1 Q2
                ltac:(unfold price_exp; lia) ltac:(unfold price_exp; lia))
      as (y & Ey & Y1 & Y2 & Yc).
    rewrite Ey. cbn [bind]. eexists. split; [reflexivity |].
    split; [reflexivity |]. cbn [snd fval]. split; [| split].
    - exists y. split; [reflexivity |].
      replace (0 - price_exp) with (- price_exp) in Y1 by lia.
      replace (0 - - price_exp) with price_exp in Y2 by lia. auto.
    - exists q. auto.
    - unfold close in *. unfold Qdiv in Yc. rewrite Qmult_1_l in Yc. exact Yc. }
  fold (inverse_odds odds) in E1.
  assert (Lw : List.length inverse = n) by (symmetry; apply (Forall2_length F1)).
  assert (Hw : Forall (fin_within (- price_exp) price_exp) (values inverse)).
  { unfold values. apply Forall_map.
    eapply Forall2_Forall_r; [| exact F1]. now intros a b (_ & H & _ & _). }
  assert (Hwne : values inverse <> []).
  { destruct inverse; [destruct odds; [congruence | discriminate Lw] | discriminate]. }
  destruct (sum_close (values inverse) Hw Hwne) as (W & EW & CW & W1 & W2).
  { unfold values. rewrite length_map, Lw. exact Hn. }
  unfold values in CW at 1. rewrite length_map, Lw in CW.
  set (Sw := sumQ (map fval (values inverse))) in *.
  destruct (sumQ_bounds _ Hw) as (_ & _ & S2). specialize (S2 Hwne). fold Sw in S2.
  assert (HSw : (0 < Sw)%Q) by (pose proof (pow2_pos (- price_exp)); lra).
  pose proof (implied_sum_pos odds Hb Hne) as HSx.
  set (Sx := implied_sum odds) in *.
  assert (CS : close 1 Sx Sw).
  { unfold Sx, implied_sum, Sw, values. rewrite map_map.
    apply sumQ_close2. eapply Forall2_impl; [| exact F1].
    now intros a b (_ & _ & _ & H). }
  destruct (mapM_total_rel
              (fun item : string * float =>
                 w <- fdiv (snd item) (FFin W) ;;
                 t <- of_int total_stake ;;
                 Ok (fst item, fmul w t))
              (fun item res =>
                 fst res = fst item /\
                 exists s, snd res = FFin s /\
                           close (n + 3) (fval (snd item) *
                                          (inject_Z total_stake / Sw))%Q s)
              inverse) as (ideal & E2 & F2).
  { intros [k x] Hin. cbn [fst snd].
    assert (Hx : fin_within (- price_exp) price_exp x).
    { rewrite Forall_forall in Hw. apply Hw. unfold values.
      change x with (snd (k, x)). now apply in_map. }
    destruct Hx as (w & -> & X1 & X2).
    destruct (ideal_share_close w W Sw n total_stake X1 X2 W1 W2 HSw CW ltac:(lia))
      as (r & t & s & Er & Et & Es & _ & _ & Cs).
    rewrite Er. cbn [bind]. rewrite Et. cbn [bind]. rewrite Es.
    eexists. split; [reflexivity |]. split; [reflexivity |].
    exists s. cbn [snd fval]. split; [reflexivity | exact Cs]. }
  assert (E2' : ideal_stakes inverse total_stake = Ok ideal).
  { unfold ideal_stakes. rewrite EW. exact E2. }
  exists inverse, ideal. split; [exact E1 |]. split; [exact E2' |].
  eapply Forall2_impl; [| exact (Forall2_compose _ _ _ _ _ F1 F2)].
  intros [k [t p]] [k'' share] ([k' x] & (K1 & Hx & Hp & C1) & (K2 & s & Es & C2)).
  cbn [fst snd] in *. split; [congruence |]. exists s. split; [exact Es |].
  destruct Hx as (w & -> & X1 & _). destruct Hp as (q & -> & Q1 & _).
  cbn [fval] in *.
  replace (n + 5)%nat with (1 + 1 + (n + 3))%nat by lia.
  apply close_trans with (w * (inject_Z total_stake / Sw))%Q; [| exact C2].
  pose proof (pow2_pos (- price_exp)) as P0.
  assert (T0 : (0 <= inject_Z total_stake)%Q).
  { change 0%Q with (inject_Z 0). rewrite <- Zle_Qle. lia. }
  apply close_mul.
  - apply Qlt_le_weak, Qinv_lt_0_compat. lra.
  - lra.
  - apply Qle_shift_div_l; [exact HSx | lra].
  - apply Qle_shift_div_l; [exact HSw | lra].
  - exact C1.
  - change 1%nat with (0 + 1)%nat.
    apply close_div; try assumption. apply close_refl.
Qed.

(** X19. The allocation levels the payouts: for in-range prices, the payout
    of every outcome, its stake times its price, is within one price of
    the total stake divided by the sum of the reciprocal prices, up to the
    factor [(1 - 2^-53)^(n + 5)] that the float operations can lose. *)
Theorem payouts_are_level (odds : odds_map) (total_stake : Z) (res : allocation) :
  NoDup (keys odds) ->
  odds <> [] ->
  bounded_prices odds ->
  1 <= total_stake ->
  (total_stake + 1) * (Z.of_nat (List.length odds) + 3) < 2 ^ 53 ->
  calculate_stakes odds total_stake = Ok res ->
  forall entry, In entry res ->
    let p := fval (snd (snd (offer_of entry))) in
    let payout := (inject_Z (stake_of entry) * p)%Q in
    let level := (inject_Z total_stake / implied_sum odds)%Q in
    let lost := rpow (List.length odds + 5) in
    (level * lost < payout + p)%Q /\ ((payout - p) * lost <= level)%Q.
Proof.
  intros ND Hne Hb HT Hsmall H entry Hin. cbn zeta.
  destruct (calculate_stakes_inv odds total_stake res ND H)
    as (ideal & rounded & stakes & F & S & K).
  destruct (final_stakes_inv _ _ _ _ _ F) as (inverse & H1 & H2 & H3 & H4 & K1 & K2).
  destruct (final_stakes_ok odds total_stake ND Hne Hb HT Hsmall)
    as (ideal' & rounded' & stakes' & diffs & F' & _ & _ & _ & _ & _ & _ & Es & _).
  rewrite F in F'. injection F' as Ei Er Est. rewrite <- Er, <- Est in Es.
  clear ideal' rounded' stakes' Ei Er Est.
  destruct (shares_close odds total_stake Hne Hb ltac:(nia) ltac:(nia))
    as (inverse' & ideal' & H1' & H2' & Fc).
  rewrite H1 in H1'. inversion H1'; subst inverse'.
  rewrite H2 in H2'. inversion H2'; subst ideal'. clear H1' H2'.
  pose proof (rounded_stakes_aligned _ _ H3) as A3.
  assert (NDi : NoDup (keys ideal)) by (now rewrite K1).
  assert (NDr : NoDup (keys rounded)) by (now rewrite K2).
  assert (NDs : NoDup (keys stakes)) by (now rewrite K).
  (* the offer of the entry, its share, its floor and its stake *)
  assert (Ho : In (offer_of entry) odds).
  { rewrite <- (calculate_stakes_offers odds total_stake res H). now apply in_map. }
  destruct (offer_of entry) as [n [t p]] eqn:Eo.
  assert (En : fst entry = n) by (unfold offer_of in Eo; now inversion Eo).
  destruct (Hb n t p Ho) as (q & -> & Q1 & _).
  destruct (Forall2_In_l _ _ _ _ Fc Ho) as ([n' share] & Hshare & Kn & s & Es' & Cs).
  cbn [fst snd fval] in *. subst n' share.
  destruct (Forall2_In_l _ _ _ _ A3 Hshare) as ([n' k0] & Hk0 & Kn & Hto).
  cbn [fst snd to_int] in *. subst n'. injection Hto as Hto.
  assert (G0 : get rounded n = Some k0) by (now apply get_in).
  assert (Gs : get stakes n = Some (stake_of entry)).
  { rewrite <- S. apply get_in; [now rewrite S |].
    rewrite <- En. unfold stakes_of.
    change (fst entry, stake_of entry)
      with ((fun e : string * (string * float * Z * float) => (fst e, stake_of e)) entry).
    now apply in_map. }
  rewrite Es, get_bump, G0 in Gs. cbn [option_map] in Gs.
  pose proof (pow2_pos (- price_exp)) as P0.
  assert (Q0 : (0 < q)%Q) by lra.
  pose proof (implied_sum_pos odds Hb Hne) as HS.
  set (level := (inject_Z total_stake / implied_sum odds)%Q) in *.
  set (lost := rpow (List.length odds + 5)) in *.
  assert (L0 : (0 < level)%Q).
  { unfold level. apply Qlt_shift_div_l; [exact HS |].
    rewrite Qmult_0_l. change 0%Q with (inject_Z 0). rewrite <- Zlt_Qlt. lia. }
  assert (R0 : (0 < lost)%Q) by apply rpow_pos.
  destruct Cs as [C1 C2]. fold lost in C1, C2.
  assert (Ex : (/ q * level * q == level)%Q) by (field; lra).
  assert (S0 : (0 <= s)%Q).
  { assert (0 <= / q * level * lost)%Q.
    { apply Qmult_le_0_compat; [| lra].
      apply Qmult_le_0_compat; [| lra].
      apply Qlt_le_weak, Qinv_lt_0_compat. exact Q0. }
    lra. }
  rewrite (trunc_floor s S0) in Hto. subst k0.
  pose proof (Qfloor_le s) as Fl. pose proof (Qlt_floor s) as Fu.
  rewrite inject_Z_plus in Fu. change (inject_Z 1) with 1%Q in Fu.
  assert (Hk : (s - 1 < inject_Z (stake_of entry))%Q /\
               (inject_Z (stake_of entry) <= s + 1)%Q).
  { destruct (mem n _); inversion Gs as [Ek]; [rewrite inject_Z_plus |];
      change (inject_Z 1) with 1%Q; split; lra. }
  destruct Hk as [Klo Khi].
  set (k := inject_Z (stake_of entry)) in *.
  split.
  - (* s * q >= level * lost *)
    assert (A : (/ q * level * lost * q <= s * q)%Q).
    { apply Qmult_le_compat_r; lra. }
    assert (B : (s * q < (k + 1) * q)%Q).
    { apply Qmult_lt_compat_r; lra. }
    assert (E : (/ q * level * lost * q == level * lost)%Q) by (field; lra).
    lra.
  - assert (A : (s * lost * q <= / q * level * q)%Q).
    { apply Qmult_le_compat_r; lra. }
    assert (B : ((k - 1) * (lost * q) <= s * (lost * q))%Q).
    { apply Qmult_le_compat_r; [lra |]. apply Qlt_le_weak.
      apply Qmult_lt_0_compat; assumption. }
    lra.
Qed.

End LevelPayouts.

(** * The scan and the clock *)

Section ScanClock.

Lemma timeless_fields (r r' : normalized) :
  timeless r = timeless r' ->
  best_odds r = best_odds r' /\ total_implied_odds r = total_implied_odds r'.
Proof. unfold timeless. intros H. inversion H. auto. Qed.

Lemma report_match_timeless (r r' : normalized) :
  timeless r = timeless r' ->
  match report_match r, report_match r' with
  | Ok rep, Ok rep' => shown rep = shown rep'
  | Raise e, Raise e' => e = e'
  | _, _ => False
  end.
Proof.
  intros H. destruct (timeless_fields r r' H) as [Eb _].
  unfold report_match. rewrite <- Eb.
  destruct (calculate_stakes (best_odds r) 1000) as [res |]; cbn [bind];
    [| reflexivity].
  destruct (py_min (map profit_of res)) as [lo |]; cbn [bind]; [| reflexivity].
  destruct (py_max (map profit_of res)) as [hi |]; cbn [bind]; [| reflexivity].
  unfold shown. cbn [for_match allocated profit_range]. now rewrite H.
Qed.

Lemma scan_timeless (cutoff : float) (rs : list normalized) :
  forall rs',
    map timeless rs = map timeless rs' ->
    map shown (fst (scan_matches cutoff rs)) =
    map shown (fst (scan_matches cutoff rs')) /\
    snd (scan_matches cutoff rs) = snd (scan_matches cutoff rs').
Proof.
  induction rs as [| r rs IH]; intros [| r' rs'] H; try discriminate.
  - split; reflexivity.
  - cbn [map] in H.
    remember (timeless r) as a eqn:Ea. remember (timeless r') as b eqn:Eb.
    injection H as Hr Hrs. subst a b.
    destruct (IH rs' Hrs) as [I1 I2].
    cbn [scan_matches].
    assert (Q : qualifies cutoff r = qualifies cutoff r').
    { unfold qualifies. destruct (timeless_fields r r' Hr) as [_ ->]. reflexivity. }
    rewrite <- Q. destruct (qualifies cutoff r); [| now split].
    pose proof (report_match_timeless r r' Hr) as R.
    destruct (report_match r) as [rep | e], (report_match r') as [rep' | e'];
      try contradiction.
    + destruct (scan_matches cutoff rs) as [reps e1].
      destruct (scan_matches cutoff rs') as [reps' e1'].
      cbn [fst snd map] in *. split; [now rewrite R, I1 | exact I2].
    + subst e'. split; reflexivity.
Qed.

(** X20. What the scan reports does not depend on the clock, except for the
    hours to start of the matches: under any two clocks the reports hold
    the same matches, allocations and profit ranges, in the same order, and
    the scan ends with the same exception or with none. *)
Theorem scan_ignores_clock (now now' : clock) (cutoff : float)
    (data : list raw_match) (tick tick' : nat) :
  map shown (fst (get_arbitrage_opportunities now cutoff data tick)) =
  map shown (fst (get_arbitrage_opportunities now' cutoff data tick')) /\
  snd (get_arbitrage_opportunities now cutoff data tick) =
  snd (get_arbitrage_opportunities now' cutoff data tick').
Proof.
  unfold get_arbitrage_opportunities.
  destruct (stream_clock_free now now' data tick tick') as [S1 S2].
  destruct (process_data now true data tick) as [rs ended].
  destruct (process_data now' true data tick') as [rs' ended'].
  cbn [fst snd] in *. subst ended'.
  destruct (scan_timeless cutoff rs rs' S1) as [T1 T2].
  destruct (scan_matches cutoff rs) as [reps raised].
  destruct (scan_matches cutoff rs') as [reps' raised'].
  cbn [fst snd] in *. subst raised'. split; [exact T1 | reflexivity].
Qed.

Lemma process_match_excluding (now now' : clock) (m : raw_match)
    (tick tick' : nat) :
  match process_match now false m tick, process_match now' true m tick' with
  | Ok (None, _), _ => True
  | Ok (Some r, _), Ok (Some r', _) => timeless r = timeless r'
  | Raise e, Raise e' => e = e'
  | _, _ => False
  end.
Proof.
  unfold process_match.
  destruct (commence_time m) as [t |]; cbn [field bind fst snd]; [| reflexivity].
  destruct (int_lt_float t (now tick)); [exact I |].
  destruct (build_best_odds m) as [best |]; cbn [bind]; [| reflexivity].
  destruct (Z.of_nat (List.length best) <? 2)%Z; [exact I |].
  destruct (total_implied best) as [total |]; cbn [bind]; [| reflexivity].
  destruct (of_int t) as [s |] eqn:Es; cbn [bind]; [| reflexivity].
  destruct (hours_total t s (now (S tick)) Es) as (h & hours & E1 & E2).
  destruct (hours_total t s (now' tick') Es) as (h' & hours' & E1' & E2').
  rewrite E1, E1'. cbn [bind]. rewrite E2, E2'. reflexivity.
Qed.

(** X21. Excluding started matches only removes records: when the stream
    with started matches included ends without an exception, the stream
    without them ends without one too, and its records are, in order, some
    of the records of the other, up to their hours to start. *)
Theorem excluding_started_only_removes (now now' : clock) (ms : list raw_match)
    (tick tick' : nat) :
  snd (process_data now' true ms tick') = None ->
  snd (process_data now false ms tick) = None /\
  subsequence (map timeless (fst (process_data now false ms tick)))
              (map timeless (fst (process_data now' true ms tick'))).
Proof.
  revert tick tick'. induction ms as [| m ms IH]; intros tick tick' H.
  - split; [reflexivity | constructor].
  - cbn [process_data] in *.
    pose proof (process_match_excluding now now' m tick tick') as R.
    destruct (process_match now' true m tick') as [[[r' |] t1'] | e'].
    + assert (H' : snd (process_data now' true ms t1') = None).
      { destruct (process_data now' true ms t1'). exact H. }
      destruct (process_match now false m tick) as [[[r |] t1] | e];
        try contradiction.
      * destruct (IH t1 t1' H') as [I1 I2].
        destruct (process_data now false ms t1) as [rs e1].
        destruct (process_data now' true ms t1') as [rs' e1'].
        cbn [fst snd map] in *. split; [exact I1 |].
        rewrite R. now apply sub_keep.
      * destruct (IH t1 t1' H') as [I1 I2].
        destruct (process_data now' true ms t1') as [rs' e1'].
        cbn [fst snd map] in *. split; [exact I1 |]. now apply sub_skip.
    + destruct (process_match now false m tick) as [[[r |] t1] | e];
        try contradiction.
      now apply IH.
    + discriminate.
Qed.

End ScanClock.

(** * The properties of the stream and of the scan at concrete inputs *)

Lemma zero_kept_best_nodup : NoDup (keys Inputs.zero_kept_best).
Proof.
  repeat constructor; simpl; intuition discriminate.
Defined.

Lemma derby_best_nodup : NoDup (keys Inputs.derby_best).
Proof.
  repeat constructor; simpl; intuition discriminate.
Defined.

Lemma derby_best_bounded : bounded_prices Inputs.derby_best.
Proof.
  intros n t p Hin. vm_compute in Hin.
  destruct Hin as [E | [E | []]]; inversion E; subst;
    eexists; (split; [reflexivity |]); split; vm_compute; discriminate.
Defined.

Lemma derby_best_positive : positive_prices Inputs.derby_best.
Proof.
  intros n t p Hin. vm_compute in Hin.
  destruct Hin as [E | [E | []]]; inversion E; reflexivity.
Defined.

Lemma derby_quotes_in_range : quotes_in_range Inputs.derby.
Proof.
  intros q p Hin Hp. vm_compute in Hin.
  destruct Hin as [<- | [<- | [<- | [<- | []]]]];
    cbn in Hp; inversion Hp;
    eexists; (split; [reflexivity |]); split; vm_compute; discriminate.
Defined.

Lemma derby_quotes_positive : quotes_positive Inputs.derby.
Proof.
  intros q p Hin Hp. vm_compute in Hin.
  destruct Hin as [<- | [<- | [<- | [<- | []]]]];
    cbn in Hp; inversion Hp; reflexivity.
Defined.

Lemma calculate_stakes_exceptions_witness :
  ZeroDivisionError = ZeroDivisionError \/
  ZeroDivisionError = OverflowError \/ ZeroDivisionError = ValueError.
Proof.
  apply (calculate_stakes_exceptions Inputs.zero_kept_best 1000 ZeroDivisionError).
  - exact zero_kept_best_nodup.
  - vm_compute. reflexivity.
Defined.

Lemma zero_division_iff_witness :
  calculate_stakes Inputs.zero_kept_best 1000 = Raise ZeroDivisionError <->
  has_zero_price Inputs.zero_kept_best \/
  exists inverse,
    inverse_odds Inputs.zero_kept_best = Ok inverse /\ inverse <> [] /\
    is_zero (sum (values inverse)) = true.
Proof.
  apply (zero_division_iff Inputs.zero_kept_best 1000).
  exact zero_kept_best_nodup.
Defined.

Lemma stakes_sum_formula_witness :
  exists ideal rounded stakes,
    final_stakes Inputs.spec_example 100 = Ok (ideal, rounded, stakes) /\
    let remainder := remainder_of 100 rounded in
    let n := Z.of_nat (List.length Inputs.spec_example) in
    sumZ (values (stakes_of Inputs.spec_example_result)) =
      100 - remainder + Z.max 0 (Z.min remainder n) /\
    (sumZ (values (stakes_of Inputs.spec_example_result)) = 100 <->
     0 <= remainder <= n).
Proof.
  apply (stakes_sum_formula Inputs.spec_example 100 Inputs.spec_example_result).
  - exact spec_example_nodup.
  - vm_compute. reflexivity.
Defined.

Lemma allocation_keeps_offers_witness :
  map offer_of Inputs.spec_example_result = Inputs.spec_example /\
  keys Inputs.spec_example_result = keys Inputs.spec_example /\
  List.length Inputs.spec_example_result = List.length Inputs.spec_example.
Proof.
  apply (allocation_keeps_offers Inputs.spec_example 100 Inputs.spec_example_result).
  vm_compute. reflexivity.
Defined.

Lemma best_odds_keys_witness :
  keys Inputs.derby_best = first_appearance (names_of (quotes Inputs.derby)) /\
  NoDup (keys Inputs.derby_best) /\
  (List.length Inputs.derby_best <= List.length (quotes Inputs.derby))%nat.
Proof.
  apply (best_odds_keys Inputs.derby Inputs.derby_best).
  vm_compute. reflexivity.
Defined.

Lemma one_more_bookmaker_witness :
  exists best,
    build_best_odds Examples.first_book_only = Ok best /\
    never_lower best Inputs.derby_best.
Proof.
  apply (one_more_bookmaker Examples.first_book_only Examples.second_book
           Inputs.derby_best).
  vm_compute. reflexivity.
Defined.

Lemma stream_records_witness :
  exists m, In m [Inputs.derby] /\ comes_from m Examples.derby_record /\
            (2 <= List.length (best_odds Examples.derby_record))%nat /\
            NoDup (keys (best_odds Examples.derby_record)).
Proof.
  apply (stream_records Inputs.at_2000 true [Inputs.derby] 0 Examples.derby_record).
  vm_compute. left. reflexivity.
Defined.

Lemma higher_cutoff_flags_fewer_witness :
  fle (lit (1 # 100)) (lit (1 # 10)) = true /\
  incl (opportunities (lit (1 # 10)) [Examples.derby_record])
       (opportunities (lit (1 # 100)) [Examples.derby_record]).
Proof.
  split; [vm_compute; reflexivity |].
  apply (higher_cutoff_flags_fewer (lit (1 # 100)) (lit (1 # 10))
           [Examples.derby_record]).
  vm_compute. reflexivity.
Defined.

Lemma flagged_is_sure_bet_witness :
  (implied_sum (best_odds Examples.derby_record) < 1)%Q.
Proof.
  apply (flagged_is_sure_bet (1 # 128) Examples.derby_record).
  - vm_compute. reflexivity.
  - exact derby_best_bounded.
  - vm_compute. discriminate.
  - vm_compute. discriminate.
  - vm_compute. reflexivity.
Defined.

Lemma sure_bet_is_flagged_witness :
  qualifies (FFin (1 # 128)) Examples.derby_record = true.
Proof.
  apply (sure_bet_is_flagged (1 # 128) Examples.derby_record).
  - vm_compute. reflexivity.
  - discriminate.
  - exact derby_best_bounded.
  - vm_compute. discriminate.
  - vm_compute. discriminate.
  - vm_compute. reflexivity.
Defined.

Lemma stream_exceptions_witness :
  KeyError "commence_time" = KeyError "commence_time" \/
  KeyError "commence_time" = KeyError "name" \/
  KeyError "commence_time" = KeyError "price" \/
  KeyError "commence_time" = KeyError "title" \/
  KeyError "commence_time" = IndexError \/
  KeyError "commence_time" = ZeroDivisionError \/
  KeyError "commence_time" = OverflowError.
Proof.
  apply (stream_exceptions Inputs.at_2000 true [Inputs.no_time] 0
           (KeyError "commence_time")).
  vm_compute. reflexivity.
Defined.

Lemma huge_inverses_nodup : NoDup (keys Examples.huge_inverses).
Proof.
  repeat constructor; simpl; intuition discriminate.
Defined.

Lemma flagged_failure_is_overflow_witness :
  report_match Examples.huge_inverses_record = Raise OverflowError /\
  OverflowError = OverflowError.
Proof.
  split; [vm_compute; reflexivity |].
  apply (flagged_failure_is_overflow (lit (1 # 100))
           Examples.huge_inverses_record OverflowError).
  - vm_compute. reflexivity.
  - exact huge_inverses_nodup.
  - vm_compute. reflexivity.
  - vm_compute. reflexivity.
Defined.

Lemma scan_exceptions_witness :
  snd (process_data Inputs.at_2000 true [Inputs.no_time] 0) =
    Some (KeyError "commence_time") \/
  KeyError "commence_time" = OverflowError.
Proof.
  apply (scan_exceptions Inputs.at_2000 (lit (1 # 100)) [Inputs.no_time] 0
           (KeyError "commence_time")).
  vm_compute. reflexivity.
Defined.

Lemma scan_of_sound_quotes_witness :
  let stream := process_data Inputs.at_2000 true [Inputs.derby] 0 in
  let result :=
    get_arbitrage_opportunities Inputs.at_2000 (lit (1 # 100)) [Inputs.derby] 0 in
  snd result = snd stream /\
  map for_match (fst result) = opportunities (lit (1 # 100)) (fst stream) /\
  forall rep, In rep (fst result) ->
    map offer_of (allocated rep) = best_odds (for_match rep) /\
    sumZ (values (stakes_of (allocated rep))) = 1000 /\
    forall entry, In entry (allocated rep) ->
      0 <= stake_of entry /\
      fle (fst (profit_range rep)) (profit_of entry) = true /\
      fle (profit_of entry) (snd (profit_range rep)) = true.
Proof.
  apply (scan_of_sound_quotes Inputs.at_2000 (lit (1 # 100)) [Inputs.derby] 0).
  intros m [<- | []]. split; [exact derby_quotes_in_range |].
  vm_compute. discriminate.
Defined.

Lemma flagged_positive_is_reported_witness :
  exists rep,
    report_match Examples.derby_record = Ok rep /\
    forall entry, In entry (allocated rep) -> 0 <= stake_of entry <= 1001.
Proof.
  apply (flagged_positive_is_reported (lit (1 # 100)) Examples.derby_record).
  - vm_compute. reflexivity.
  - exact derby_best_nodup.
  - exact derby_best_positive.
  - vm_compute. reflexivity.
Defined.

Lemma scan_of_positive_quotes_witness :
  let stream := process_data Inputs.at_2000 true [Inputs.derby] 0 in
  let result :=
    get_arbitrage_opportunities Inputs.at_2000 (lit (1 # 100)) [Inputs.derby] 0 in
  snd result = snd stream /\
  map for_match (fst result) = opportunities (lit (1 # 100)) (fst stream) /\
  forall rep entry, In rep (fst result) -> In entry (allocated rep) ->
                    0 <= stake_of entry <= 1001.
Proof.
  apply (scan_of_positive_quotes Inputs.at_2000 (lit (1 # 100)) [Inputs.derby] 0).
  intros m [<- | []]. exact derby_quotes_positive.
Defined.

Lemma payouts_are_level_witness :
  calculate_stakes Inputs.spec_example 100 = Ok Inputs.spec_example_result /\
  forall entry, In entry Inputs.spec_example_result ->
    let p := fval (snd (snd (offer_of entry))) in
    let payout := (inject_Z (stake_of entry) * p)%Q in
    let level := (inject_Z 100 / implied_sum Inputs.spec_example)%Q in
    let lost := rpow (List.length Inputs.spec_example + 5) in
    (level * lost < payout + p)%Q /\ ((payout - p) * lost <= level)%Q.
Proof.
  split; [vm_compute; reflexivity |].
  apply (payouts_are_level Inputs.spec_example 100 Inputs.spec_example_result).
  - exact spec_example_nodup.
  - discriminate.
  - exact spec_example_bounded.
  - lia.
  - vm_compute. reflexivity.
  - vm_compute. reflexivity.
Defined.

Lemma excluding_started_only_removes_witness :
  snd (process_data Inputs.at_2000 false [Inputs.derby] 0) = None /\
  subsequence (map timeless (fst (process_data Inputs.at_2000 false [Inputs.derby] 0)))
              (map timeless (fst (process_data Inputs.at_2000 true [Inputs.derby] 0))).
Proof.
  apply (excluding_started_only_removes Inputs.at_2000 Inputs.at_2000
           [Inputs.derby] 0 0).
  vm_compute. reflexivity.
Defined.
